(** * TinyClaw: queue dispatcher, team chains, swarm shuffle, memory composer

    A shallow embedding of the orchestration core of TinyClaw
    ([queue-processor.ts], [swarm/swarm-processor.ts], [swarm/shuffle.ts],
    [lib/invoke.ts]) and the properties of its specification proved or
    refuted over the embedded code.

    Conventions.
    - A JavaScript string is a [string]; one character stands for one UTF-16
      code unit, so [String.length] is the source's [.length].
    - Directories of the file queue are finite maps from a file's base name to
      its content; an operation on a file that exists succeeds.
    - Code that can throw runs in a state monad whose outcome is a value, a
      thrown error or divergence; effects made before a throw are kept.
    - A task runs to completion once started: the interleaving of tasks at
      their [await] points is not modelled. Concurrent workers are run one
      after the other in the order they are started.
    - The external collaborators (configuration, routing helpers, the agent
      worker, [JSON.parse], the clock) are parameters.
    - Logging ([log], [emitEvent]) only feeds the observability sinks and is
      left out of the state. *)

From Stdlib Require Import String Ascii List Arith ZArith Lia Bool.
From Stdlib Require OrderedTypeEx.
From stdpp Require Import gmap strings list pretty.
From Equations Require Import Equations.

(** ** JavaScript string primitives used by the sources *)
Module Js.

(** White space of [String.prototype.trim] and of the regular expression
    class [\s], restricted to code units below 256: TAB, LF, VT, FF, CR,
    SPACE and NBSP. *)
Definition isWhiteSpace (c : ascii) : bool :=
  let n := nat_of_ascii c in
  ((9 <=? n) && (n <=? 13)) || (n =? 32) || (n =? 160).

Fixpoint trimStart (s : string) : string :=
  match s with
  | EmptyString => EmptyString
  | String c t => if isWhiteSpace c then trimStart t else s
  end.

Fixpoint trimEnd (s : string) : string :=
  match s with
  | EmptyString => EmptyString
  | String c t =>
      match trimEnd t with
      | EmptyString => if isWhiteSpace c then EmptyString else String c EmptyString
      | t' => String c t'
      end
  end.

Definition trim (s : string) : string := trimEnd (trimStart s).

(** [s.substring(0, n)] *)
Fixpoint take (n : nat) (s : string) : string :=
  match n, s with
  | S k, String c t => String c (take k t)
  | _, _ => EmptyString
  end.

(** [s.startsWith(p)], returning what follows the prefix. *)
Fixpoint stripPrefix (p s : string) : option string :=
  match p, s with
  | EmptyString, _ => Some s
  | String a p', String b s' => if Ascii.eqb a b then stripPrefix p' s' else None
  | String _ _, EmptyString => None
  end.

Definition startsWith (s p : string) : bool :=
  match stripPrefix p s with Some _ => true | None => false end.

(** [s.endsWith(p)] *)
Definition endsWith (s p : string) : bool :=
  let n := String.length s in
  let k := String.length p in
  (k <=? n) && String.eqb (String.substring (n - k) k s) p.

(** [s.includes(p)] *)
Fixpoint includes (s p : string) : bool :=
  match s with
  | EmptyString => match p with EmptyString => true | _ => false end
  | String _ t => startsWith s p || includes t p
  end.

(** [parts.join(sep)] *)
Fixpoint join (sep : string) (parts : list string) : string :=
  match parts with
  | [] => EmptyString
  | [x] => x
  | x :: rest => x +:+ sep +:+ join sep rest
  end.

(** [s.split('\n')]: never empty, the empty string splits to one empty
    piece. *)
Fixpoint splitLines (s : string) : list string :=
  match s with
  | EmptyString => [EmptyString]
  | String c t =>
      if Ascii.eqb c "010"%char then EmptyString :: splitLines t
      else match splitLines t with
           | l :: ls => String c l :: ls
           | [] => [String c EmptyString]
           end
  end.

(** Truthiness of a string: the empty string is falsy. *)
Definition nonEmpty (s : string) : bool :=
  match s with EmptyString => false | _ => true end.

(** The one-character string holding a line feed. *)
Definition newline : string := String (ascii_of_nat 10) EmptyString.

(** The one-character string holding a double quote. *)
Definition dquote : string := String (ascii_of_nat 34) EmptyString.

(** [String(n)] for a natural number. *)
Definition ofNat (n : nat) : string := pretty n.

(** [arr.slice(-n)] *)
Definition lastN {A} (n : nat) (l : list A) : list A :=
  skipn (List.length l - n) l.

(** [arr.slice(i, j)] for [0 <= i <= j]. *)
Definition slice {A} (i j : nat) (l : list A) : list A :=
  firstn (j - i) (skipn i l).

End Js.

(** ** Send-file markers: the regular expression [/\[send_file:\s*([^\]]+)\]/g] *)
Module Marker.

Definition inspect {A} (a : A) : {b : A | a = b} := exist _ a eq_refl.

Definition markerPrefix : string := "[send_file:".

(** The run matched by [[^\]]*] and what follows the closing bracket. *)
Fixpoint untilClose (s : string) : option (string * string) :=
  match s with
  | EmptyString => None
  | String c t =>
      if Ascii.eqb c "]"%char then Some (EmptyString, t)
      else match untilClose t with
           | Some (b, r) => Some (String c b, r)
           | None => None
           end
  end.

(** A match anchored at the start of [s]: the text between the prefix and
    the first closing bracket, which the pattern requires to be non-empty,
    and the text after the match. *)
Definition matchMarker (s : string) : option (string * string) :=
  match Js.stripPrefix markerPrefix s with
  | Some r =>
      match untilClose r with
      | Some (String c b, rest) => Some (String c b, rest)
      | _ => None
      end
  | None => None
  end.

Fixpoint lastChar (s : string) : string :=
  match s with
  | EmptyString => EmptyString
  | String c EmptyString => s
  | String _ t => lastChar t
  end.

(** Capture group 1 of a match with body [body]: the greedy [\s*] takes the
    leading white space, and gives one character back when it would leave
    nothing for [[^\]]+]. *)
Definition capture (body : string) : string :=
  match Js.trimStart body with
  | EmptyString => lastChar body
  | g => g
  end.

Ltac marker_decreases :=
  match goal with
  | H : matchMarker ?s = Some (_, ?rest) |- _ =>
      let P := fresh in let U := fresh in
      assert (P : forall p x r, Js.stripPrefix p x = Some r ->
                    String.length x = String.length p + String.length r)
        by (intros p; induction p as [|a p IH]; intros [|b x] r Hp; simpl in *;
            try congruence; try (inversion Hp; reflexivity);
            destruct (Ascii.eqb a b); [|congruence]; rewrite (IH _ _ Hp); reflexivity);
      assert (U : forall x b r, untilClose x = Some (b, r) ->
                    String.length x = String.length b + 1 + String.length r)
        by (intros x; induction x as [|c x IH]; intros b r Hu; simpl in *; [congruence|];
            destruct (Ascii.eqb c "]");
            [inversion Hu; subst; simpl; lia
            |destruct (untilClose x) as [[b' r']|]; [|congruence];
             inversion Hu; subst; simpl; rewrite (IH _ _ eq_refl); lia]);
      unfold matchMarker in H;
      let E := fresh in let V := fresh in
      destruct (Js.stripPrefix markerPrefix s) as [?r0|] eqn:E; [|congruence];
      match type of H with
      | context [untilClose ?r0] =>
          destruct (untilClose r0) as [[[|? ?] ?]|] eqn:V; try congruence;
          inversion H; subst; apply P in E; apply U in V; simpl in *; lia
      end
  end.

(** The captures of the successive matches of a [regex.exec] loop: each
    search resumes where the previous match ended. *)
Equations? scanMarkers (s : string) : list string by wf (String.length s) lt :=
  scanMarkers s with inspect (matchMarker s) := {
    | exist _ (Some (body, rest)) _ => capture body :: scanMarkers rest
    | exist _ None _ with s := {
        | EmptyString => []
        | String _ t => scanMarkers t } }.
Proof. marker_decreases. Qed.

(** [s.replace(regex, '')] with the global flag: every match of the same
    left-to-right search is deleted. *)
Equations? replaceMarkers (s : string) : string by wf (String.length s) lt :=
  replaceMarkers s with inspect (matchMarker s) := {
    | exist _ (Some (body, rest)) _ => replaceMarkers rest
    | exist _ None _ with s := {
        | EmptyString => EmptyString
        | String c t => String c (replaceMarkers t) } }.
Proof. marker_decreases. Qed.

(** A text contains a marker when the search finds a match in it. *)
Definition containsMarker (s : string) : bool :=
  match scanMarkers s with
  | [] => false
  | _ => true
  end.

Fixpoint hasOpenBracket (s : string) : bool :=
  match s with
  | EmptyString => false
  | String c t => Ascii.eqb c "["%char || hasOpenBracket t
  end.

(** The text outside the markers that the search finds holds no opening
    bracket. *)
Equations? bracketsOnlyInMarkers (s : string) : bool by wf (String.length s) lt :=
  bracketsOnlyInMarkers s with inspect (matchMarker s) := {
    | exist _ (Some (body, rest)) _ => bracketsOnlyInMarkers rest
    | exist _ None _ with s := {
        | EmptyString => true
        | String c t => negb (Ascii.eqb c "["%char) && bracketsOnlyInMarkers t } }.
Proof. marker_decreases. Qed.

(** [set.add(x)] on a [Set] listed in insertion order. *)
Definition setAdd (x : string) (l : list string) : list string :=
  if bool_decide (x ∈ l) then l else l ++ [x].

(** The [while ((m = regex.exec(text)) !== null)] loop that collects the
    paths of existing files into a set. *)
Definition collectFiles (existsSync : string -> bool) (text : string)
    (acc : list string) : list string :=
  foldl (fun acc g =>
           let filePath := Js.trim g in
           if existsSync filePath then setAdd filePath acc else acc)
        acc (scanMarkers text).

(** Lines 349-352 of [processMessage]. *)
Definition truncationNotice : string :=
  Js.newline +:+ Js.newline +:+ "[Response truncated...]".

Definition truncateResponse (text : string) : string :=
  if 4000 <? String.length text
  then Js.take 3900 text +:+ truncationNotice
  else text.

(** Lines 331-347 of [processMessage]: trim, collect, strip when a file is
    attached. Returns the text and the attachment list. *)
Definition strippedText (existsSync : string -> bool) (allFiles : list string)
    (finalResponse : string) : string * list string :=
  let trimmed := Js.trim finalResponse in
  let outboundFiles := collectFiles existsSync trimmed allFiles in
  let text := match outboundFiles with
              | [] => trimmed
              | _ => Js.trim (replaceMarkers trimmed)
              end in
  (text, outboundFiles).

(** Lines 331-352. *)
Definition finishResponse (existsSync : string -> bool) (allFiles : list string)
    (finalResponse : string) : string * list string :=
  let '(text, outboundFiles) := strippedText existsSync allFiles finalResponse in
  (truncateResponse text, outboundFiles).

End Marker.

(** ** Data model of the queue processor ([lib/types]) *)
Module Types.

Record MessageData := {
  channel : string;
  sender : string;
  message : string;
  timestamp : N;
  messageId : string;
  agent : option string;
  senderId : option string;
  files : option (list string)
}.

Record ResponseData := {
  r_channel : string;
  r_sender : string;
  r_message : string;
  r_originalMessage : string;
  r_timestamp : N;
  r_messageId : string;
  r_agent : option string;
  r_files : option (list string)
}.

Record AgentConfig := {
  a_name : string;
  a_provider : option string;
  a_model : string;
  a_working_directory : option string
}.

Record TeamConfig := {
  t_name : string;
  t_agents : list string;
  t_leader_agent : string
}.

Record ChainStep := { agentId : string; response : string }.

(** What [parseAgentRouting] returns. *)
Record Routing := { rt_agentId : string; rt_message : string; rt_isTeam : bool }.

(** What [extractTeammateMentions] returns, one per mentioned teammate. *)
Record Mention := { teammateId : string; m_message : string }.

(** The content of a queue file, up to [JSON.parse]: either text on which
    reading the message throws ([JSON.parse] fails, or the [message] field
    is no string and [rawMessage.substring] throws), or a message record. *)
Inductive FileBody :=
  | Malformed (raw : string)
  | MessageJson (m : MessageData).

(** A [Record<string, T>] settings table, in [Object.keys] order.
    [lookupTable tbl k] is the read [tbl[k]] for a key [k] that is no
    property name of [Object.prototype]; for such a name ([constructor],
    [toString], ...) the read of the code finds the inherited value. *)
Fixpoint lookupTable {T} (tbl : list (string * T)) (k : string) : option T :=
  match tbl with
  | [] => None
  | (k', v) :: rest => if String.eqb k' k then Some v else lookupTable rest k
  end.

(** One recorded call of [invokeAgent]. *)
Record Invocation := {
  i_agentId : string;
  i_message : string;
  i_reset : bool
}.

End Types.
Export Types.

(** ** The file queue and the state the dispatcher runs in *)
Module Fs.

(** The result of running a piece of code: a value, a thrown error, or no
    result at all (the team chain loop has no bound). *)
Inductive Outcome (A : Type) :=
  | Ok (a : A)
  | Throw (msg : string)
  | Diverge.
Arguments Ok {A} a.
Arguments Throw {A} msg.
Arguments Diverge {A}.

Section WithWorld.

(** [W] stands for everything outside the queue that agents can change: their
    working directories and the files their markers name. *)
Context {W : Type}.

Record State := {
  incoming : gmap string FileBody;
  processing : gmap string FileBody;
  outgoing : gmap string ResponseData;
  filesDir : gmap string string;
  resetFlag : bool;
  agentResetFlags : gset string;
  chats : list (string * string);
  world : W;
  now : N;
  invocations : list Invocation;
  queuedFiles : gset string
}.

Definition setIncoming (st : State) v :=
  {| incoming := v; processing := processing st; outgoing := outgoing st;
     filesDir := filesDir st; resetFlag := resetFlag st;
     agentResetFlags := agentResetFlags st; chats := chats st; world := world st;
     now := now st; invocations := invocations st; queuedFiles := queuedFiles st |}.
Definition setProcessing (st : State) v :=
  {| incoming := incoming st; processing := v; outgoing := outgoing st;
     filesDir := filesDir st; resetFlag := resetFlag st;
     agentResetFlags := agentResetFlags st; chats := chats st; world := world st;
     now := now st; invocations := invocations st; queuedFiles := queuedFiles st |}.
Definition setOutgoing (st : State) v :=
  {| incoming := incoming st; processing := processing st; outgoing := v;
     filesDir := filesDir st; resetFlag := resetFlag st;
     agentResetFlags := agentResetFlags st; chats := chats st; world := world st;
     now := now st; invocations := invocations st; queuedFiles := queuedFiles st |}.
Definition setFilesDir (st : State) v :=
  {| incoming := incoming st; processing := processing st; outgoing := outgoing st;
     filesDir := v; resetFlag := resetFlag st;
     agentResetFlags := agentResetFlags st; chats := chats st; world := world st;
     now := now st; invocations := invocations st; queuedFiles := queuedFiles st |}.
Definition setResetFlag (st : State) v :=
  {| incoming := incoming st; processing := processing st; outgoing := outgoing st;
     filesDir := filesDir st; resetFlag := v;
     agentResetFlags := agentResetFlags st; chats := chats st; world := world st;
     now := now st; invocations := invocations st; queuedFiles := queuedFiles st |}.
Definition setAgentResetFlags (st : State) v :=
  {| incoming := incoming st; processing := processing st; outgoing := outgoing st;
     filesDir := filesDir st; resetFlag := resetFlag st;
     agentResetFlags := v; chats := chats st; world := world st;
     now := now st; invocations := invocations st; queuedFiles := queuedFiles st |}.
Definition setChats (st : State) v :=
  {| incoming := incoming st; processing := processing st; outgoing := outgoing st;
     filesDir := filesDir st; resetFlag := resetFlag st;
     agentResetFlags := agentResetFlags st; chats := v; world := world st;
     now := now st; invocations := invocations st; queuedFiles := queuedFiles st |}.
Definition setWorld (st : State) v :=
  {| incoming := incoming st; processing := processing st; outgoing := outgoing st;
     filesDir := filesDir st; resetFlag := resetFlag st;
     agentResetFlags := agentResetFlags st; chats := chats st; world := v;
     now := now st; invocations := invocations st; queuedFiles := queuedFiles st |}.
Definition setInvocations (st : State) v :=
  {| incoming := incoming st; processing := processing st; outgoing := outgoing st;
     filesDir := filesDir st; resetFlag := resetFlag st;
     agentResetFlags := agentResetFlags st; chats := chats st; world := world st;
     now := now st; invocations := v; queuedFiles := queuedFiles st |}.
Definition setQueuedFiles (st : State) v :=
  {| incoming := incoming st; processing := processing st; outgoing := outgoing st;
     filesDir := filesDir st; resetFlag := resetFlag st;
     agentResetFlags := agentResetFlags st; chats := chats st; world := world st;
     now := now st; invocations := invocations st; queuedFiles := v |}.

(** Effects are kept when an error is thrown, so a computation always returns
    the state it reached. *)
Definition M (A : Type) : Type := State -> State * Outcome A.

Definition ret {A} (a : A) : M A := fun st => (st, Ok a).
Definition throw {A} (msg : string) : M A := fun st => (st, Throw msg).
Definition diverge {A} : M A := fun st => (st, Diverge).
Definition bind {A B} (m : M A) (k : A -> M B) : M B :=
  fun st =>
    match m st with
    | (st', Ok a) => k a st'
    | (st', Throw e) => (st', Throw e)
    | (st', Diverge) => (st', Diverge)
    end.
(** [try { m } catch (error) { h error }] *)
Definition tryCatch {A} (m : M A) (h : string -> M A) : M A :=
  fun st =>
    match m st with
    | (st', Throw e) => h e st'
    | r => r
    end.
Definition get : M State := fun st => (st, Ok st).
Definition modify (f : State -> State) : M unit := fun st => (f st, Ok tt).

(** [fs.renameSync] between the two queue directories; the destination is
    overwritten, a missing source throws. *)
Definition renameToProcessing (f : string) : M unit :=
  fun st =>
    match incoming st !! f with
    | Some c => (setProcessing (setIncoming st (delete f (incoming st)))
                               (<[f := c]> (processing st)), Ok tt)
    | None => (st, Throw "ENOENT: no such file or directory, rename")
    end.

Definition renameToIncoming (f : string) : M unit :=
  fun st =>
    match processing st !! f with
    | Some c => (setIncoming (setProcessing st (delete f (processing st)))
                             (<[f := c]> (incoming st)), Ok tt)
    | None => (st, Throw "ENOENT: no such file or directory, rename")
    end.

(** [fs.unlinkSync(processingFile)] *)
Definition unlinkProcessing (f : string) : M unit :=
  fun st =>
    match processing st !! f with
    | Some _ => (setProcessing st (delete f (processing st)), Ok tt)
    | None => (st, Throw "ENOENT: no such file or directory, unlink")
    end.

(** [JSON.parse(fs.readFileSync(processingFile))] and the field reads that
    follow it. *)
Definition readMessage (f : string) : M MessageData :=
  fun st =>
    match processing st !! f with
    | Some (MessageJson m) => (st, Ok m)
    | Some (Malformed _) => (st, Throw "SyntaxError: Unexpected token in JSON")
    | None => (st, Throw "ENOENT: no such file or directory, open")
    end.

(** [fs.writeFileSync] of a response into the outgoing directory. *)
Definition writeOutgoing (name : string) (r : ResponseData) : M unit :=
  modify (fun st => setOutgoing st (<[name := r]> (outgoing st))).

End WithWorld.

Arguments State W : clear implicits.
Arguments M W A : clear implicits.

End Fs.
Export Fs.

Declare Scope dispatch_scope.
Delimit Scope dispatch_scope with dispatch.
Notation "'let!' x ':=' m 'in' k" := (bind m (fun x => k))
  (at level 10, x pattern, m at level 100, k at level 200) : dispatch_scope.
Notation "m ';;' k" := (bind m (fun _ => k))
  (at level 100, k at level 200, right associativity) : dispatch_scope.

(** ** External collaborators of the dispatcher

    The configuration loader, the routing helpers of [lib/routing] (their
    source is not part of the core), the agent invoker and the parts of the
    runtime the dispatcher reads. *)
Class Collaborators (W : Type) := {
  (** [getAgents(getSettings())] and [getTeams(getSettings())] *)
  agents : list (string * AgentConfig);
  teams : list (string * TeamConfig);
  (** [parseAgentRouting(rawMessage, agents, teams)] *)
  parseAgentRouting : string -> Routing;
  (** [findTeamForAgent(agentId, teams)] *)
  findTeamForAgent : string -> option (string * TeamConfig);
  (** [extractTeammateMentions(response, currentAgentId, teamId, teams, agents)] *)
  extractTeammateMentions : string -> string -> string -> list Mention;
  (** [invokeAgent(agent, agentId, message, workspacePath, shouldReset, ...)]:
      the text the worker answers, or the message of the error it rejects
      with; the worker may change the world. *)
  invokeAgent : W -> AgentConfig -> string -> string -> bool -> W * (string + string);
  (** [fs.existsSync(path)] for a path outside the queue *)
  existsSync : W -> string -> bool;
  (** [new Date(t).toISOString()] *)
  toISOString : N -> string;
  (** [FILES_DIR] of [lib/config] *)
  FILES_DIR : string
}.

(** ** [queue-processor.ts] *)
Module Dispatcher.

Section WithCollaborators.
Context {W : Type} `{C : Collaborators W}.
Local Open Scope dispatch_scope.

Abbreviation M := (Fs.M W).

(** [fs.readdirSync(dir)] *)
Definition readdir {T} (dir : gmap string T) : list string := (map_to_list dir).*1.

Definition isJson (f : string) : bool := Js.endsWith f ".json".

(** Lines 36-45: the loop over the listing, and the function. *)
Fixpoint recoverLoop (names : list string) : M unit :=
  match names with
  | [] => ret tt
  | f :: rest => tryCatch (renameToIncoming f) (fun _ => ret tt) ;; recoverLoop rest
  end.

Definition recoverOrphanedFiles : M unit :=
  let! st := get in
  recoverLoop (filter (fun f => isJson f = true) (readdir (processing st))).

(** [invokeAgent] as the dispatcher calls it, with the call recorded. *)
Definition callAgent (cfg : AgentConfig) (id msg : string) (reset : bool) : M string :=
  fun st =>
    let '(w, r) := invokeAgent (world st) cfg id msg reset in
    let st' := setInvocations (setWorld st w)
                 (invocations st ++ [{| i_agentId := id; i_message := msg; i_reset := reset |}]) in
    match r with
    | inl text => (st', Ok text)
    | inr err => (st', Throw err)
    end.

Definition hasAgentResetFlag (id : string) : M bool :=
  let! st := get in ret (bool_decide (id ∈ agentResetFlags st)).

Definition unlinkAgentResetFlag (id : string) : M unit :=
  modify (fun st => setAgentResetFlags st (agentResetFlags st ∖ {[id]})).

(** The loop of lines 205-212, 269-274 and 334-341, on the files that exist
    when it runs. *)
Definition collectStepFiles (text : string) (allFiles : list string) : M (list string) :=
  let! st := get in ret (Marker.collectFiles (existsSync (world st)) text allFiles).

Definition stepError : string := "Sorry, I encountered an error processing this request.".

Definition teammateMessage (from body : string) : string :=
  "[Message from teammate @" +:+ from +:+ "]:" +:+ Js.newline +:+ body.

(** One branch of the fan-out of lines 240-263. *)
Definition fanOutOne (currentAgentId : string) (mention : Mention) : M ChainStep :=
  match lookupTable agents (teammateId mention) with
  | None =>
      ret {| agentId := teammateId mention;
             response := "Error: agent " +:+ teammateId mention +:+ " not found" |}
  | Some mAgent =>
      let! mShouldReset := hasAgentResetFlag (teammateId mention) in
      (if mShouldReset then unlinkAgentResetFlag (teammateId mention) else ret tt) ;;
      let! mResponse :=
        tryCatch (callAgent mAgent (teammateId mention)
                    (teammateMessage currentAgentId (m_message mention)) mShouldReset)
                 (fun _ => ret stepError) in
      ret {| agentId := teammateId mention; response := mResponse |}
  end.

Fixpoint mapM {A B} (f : A -> M B) (l : list A) : M (list B) :=
  match l with
  | [] => ret []
  | x :: xs => let! y := f x in let! ys := mapM f xs in ret (y :: ys)
  end.

(** Lines 265-275: push each fan-out result and collect its files. *)
Fixpoint pushFanOut (results : list ChainStep) (chainSteps : list ChainStep)
    (allFiles : list string) : M (list ChainStep * list string) :=
  match results with
  | [] => ret (chainSteps, allFiles)
  | r :: rest =>
      let! allFiles' := collectStepFiles (response r) allFiles in
      pushFanOut rest (chainSteps ++ [r]) allFiles'
  end.

(** The chain loop of lines 172-281. The source loop has no bound; [fuel]
    bounds the number of sequential steps and running out of it is
    [Diverge]. *)
Fixpoint chainLoop (fuel : nat) (teamId : string) (shouldReset : bool)
    (chainSteps : list ChainStep) (currentAgentId currentMessage : string)
    (allFiles : list string) : M (list ChainStep * list string) :=
  match fuel with
  | O => diverge
  | S fuel' =>
      match lookupTable agents currentAgentId with
      | None => ret (chainSteps, allFiles)
      | Some currentAgent =>
          let! flag := hasAgentResetFlag currentAgentId in
          let currentShouldReset :=
            match chainSteps with [] => shouldReset | _ => flag end in
          (if currentShouldReset && flag
           then unlinkAgentResetFlag currentAgentId else ret tt) ;;
          let! stepResponse :=
            tryCatch (callAgent currentAgent currentAgentId currentMessage currentShouldReset)
                     (fun _ => ret stepError) in
          let chainSteps' :=
            chainSteps ++ [{| agentId := currentAgentId; response := stepResponse |}] in
          let! allFiles' := collectStepFiles stepResponse allFiles in
          match extractTeammateMentions stepResponse currentAgentId teamId with
          | [] => ret (chainSteps', allFiles')
          | [mention] =>
              chainLoop fuel' teamId shouldReset chainSteps' (teammateId mention)
                (teammateMessage currentAgentId (m_message mention)) allFiles'
          | mentions =>
              let! fanOutResults := mapM (fanOutOne currentAgentId) mentions in
              pushFanOut fanOutResults chainSteps' allFiles'
          end
      end
  end.

Definition chainSeparator : string := Js.newline +:+ Js.newline +:+ "---" +:+ Js.newline +:+ Js.newline.

(** Lines 283-290. *)
Definition aggregate (chainSteps : list ChainStep) : string :=
  if List.length chainSteps =? 1
  then match chainSteps with
       | s :: _ => response s
       | [] => EmptyString
       end
  else Js.join chainSeparator
         (map (fun step => "@" +:+ agentId step +:+ ": " +:+ response step) chainSteps).

Fixpoint replaceChars (from : ascii -> bool) (to : ascii) (s : string) : string :=
  match s with
  | EmptyString => EmptyString
  | String c t => String (if from c then to else c) (replaceChars from to t)
  end.

(** [s.replace(c, r)] with a one-character pattern: the first occurrence. *)
Fixpoint replaceFirst (c : ascii) (r : string) (s : string) : string :=
  match s with
  | EmptyString => EmptyString
  | String d t => if Ascii.eqb c d then r +:+ t else String d (replaceFirst c r t)
  end.

Fixpoint stepLines (i : nat) (chainSteps : list ChainStep) : list string :=
  match chainSteps with
  | [] => []
  | step :: rest =>
      let stepLabel :=
        match lookupTable agents (agentId step) with
        | Some stepAgent => a_name stepAgent +:+ " (@" +:+ agentId step +:+ ")"
        | None => "@" +:+ agentId step
        end in
      ["---"; ""; "## Step " +:+ Js.ofNat (i + 1) +:+ ": " +:+ stepLabel; "";
       response step; ""] ++ stepLines (S i) rest
  end.

(** Lines 292-328: the transcript of a chain, kept as path and content. *)
Definition saveChatHistory (teamId : string) (team : TeamConfig) (m : MessageData)
    (chainSteps : list ChainStep) : M unit :=
  modify (fun st =>
    let iso := toISOString (now st) in
    let chatLines :=
      ["# Team Chain: " +:+ t_name team +:+ " (@" +:+ teamId +:+ ")";
       "**Date:** " +:+ iso;
       "**Channel:** " +:+ channel m +:+ " | **Sender:** " +:+ sender m;
       "**Steps:** " +:+ Js.ofNat (List.length chainSteps);
       ""; "---"; ""; "## User Message"; ""; message m; ""]
      ++ stepLines 0 chainSteps in
    let dateTime :=
      replaceFirst "Z" "" (replaceFirst "T" "_"
        (replaceChars (fun c => Ascii.eqb c ":" || Ascii.eqb c ".") "-" iso)) in
    setChats st (chats st ++ [(teamId +:+ "/" +:+ dateTime +:+ ".md",
                               Js.join Js.newline chatLines)])).

(** Lines 75-85: the pre-routed agent of the channel client, or the parsed
    prefix. *)
Definition routeMessage (m : MessageData) : Routing :=
  match agent m with
  | Some a =>
      if Js.nonEmpty a && bool_decide (is_Some (lookupTable agents a))
      then {| rt_agentId := a; rt_message := message m; rt_isTeam := false |}
      else parseAgentRouting (message m)
  | None => parseAgentRouting (message m)
  end.

(** Lines 87-106. *)
Definition sendEasterEgg (f : string) (m : MessageData) (text : string) : M unit :=
  let! st := get in
  writeOutgoing f
    {| r_channel := channel m; r_sender := sender m; r_message := text;
       r_originalMessage := message m; r_timestamp := now st;
       r_messageId := messageId m; r_agent := None; r_files := None |} ;;
  unlinkProcessing f.

(** Lines 108-119: the fallbacks, and the read of [agent.name] that throws
    when no agent is configured. *)
Definition resolveAgent (r : Routing) (m : MessageData)
    : M (string * string * AgentConfig) :=
  let '(agentId1, message1) :=
    match lookupTable agents (rt_agentId r) with
    | Some _ => (rt_agentId r, rt_message r)
    | None => ("default", message m)
    end in
  let agentId2 :=
    match lookupTable agents agentId1 with
    | Some _ => Some agentId1
    | None => head (map fst agents)
    end in
  match agentId2 with
  | Some id =>
      match lookupTable agents id with
      | Some cfg => ret (id, message1, cfg)
      | None => throw "TypeError: Cannot read properties of undefined (reading 'name')"
      end
  | None => throw "TypeError: Cannot read properties of undefined (reading 'name')"
  end.

(** Lines 123-138. *)
Definition teamContextFor (isTeamRouted : bool) (agentId : string)
    : option (string * TeamConfig) :=
  let byLeader :=
    if isTeamRouted
    then List.find (fun '(tid, t) =>
                      String.eqb (t_leader_agent t) agentId
                      && bool_decide (agentId ∈ t_agents t)) teams
    else None in
  match byLeader with
  | Some ctx => Some ctx
  | None => findTeamForAgent agentId
  end.

(** Lines 140-148. *)
Definition consumeResetFlags (agentId : string) : M bool :=
  let! st := get in
  let shouldReset := resetFlag st || bool_decide (agentId ∈ agentResetFlags st) in
  (if shouldReset
   then modify (fun st => setAgentResetFlags (setResetFlag st false)
                            (agentResetFlags st ∖ {[agentId]}))
   else ret tt) ;;
  ret shouldReset.

Definition agentError : string :=
  "Sorry, I encountered an error processing your request. Please check the queue logs.".

(** Lines 150-329: the response text of the executor and the files its
    steps named. *)
Definition runExecutor (fuel : nat) (m : MessageData) (agentId msg : string)
    (cfg : AgentConfig) (teamContext : option (string * TeamConfig))
    (shouldReset : bool) : M (string * list string) :=
  match teamContext with
  | None =>
      let! finalResponse :=
        tryCatch (callAgent cfg agentId msg shouldReset) (fun _ => ret agentError) in
      ret (finalResponse, [])
  | Some (teamId, team) =>
      let! (chainSteps, allFiles) := chainLoop fuel teamId shouldReset [] agentId msg [] in
      saveChatHistory teamId team m chainSteps ;;
      ret (aggregate chainSteps, allFiles)
  end.

Definition responseFileName (m : MessageData) (t : N) : string :=
  if String.eqb (channel m) "heartbeat"
  then messageId m +:+ ".json"
  else channel m +:+ "_" +:+ messageId m +:+ "_" +:+ pretty t +:+ ".json".

(** Lines 331-377. *)
Definition deliver (f : string) (m : MessageData) (agentId : string)
    (finalResponse : string) (allFiles : list string) : M unit :=
  let! st := get in
  let '(text, outboundFiles) :=
    Marker.finishResponse (existsSync (world st)) allFiles finalResponse in
  writeOutgoing (responseFileName m (now st))
    {| r_channel := channel m; r_sender := sender m; r_message := text;
       r_originalMessage := message m; r_timestamp := now st;
       r_messageId := messageId m; r_agent := Some agentId;
       r_files := match outboundFiles with [] => None | _ => Some outboundFiles end |} ;;
  unlinkProcessing f.

(** The [try] block of [processMessage], lines 52-377. *)
Definition processBody (fuel : nat) (f : string) : M unit :=
  renameToProcessing f ;;
  let! m := readMessage f in
  let routing := routeMessage m in
  if String.eqb (rt_agentId routing) "error"
  then sendEasterEgg f m (rt_message routing)
  else
    let! (agentId, msg, cfg) := resolveAgent routing m in
    let teamContext := teamContextFor (rt_isTeam routing) agentId in
    let! shouldReset := consumeResetFlags agentId in
    let! (finalResponse, allFiles) :=
      runExecutor fuel m agentId msg cfg teamContext shouldReset in
    deliver f m agentId finalResponse allFiles.

(** The [catch] block, lines 379-390. *)
Definition moveBack (f : string) : M unit :=
  let! st := get in
  if bool_decide (is_Some (processing st !! f))
  then tryCatch (renameToIncoming f) (fun _ => ret tt)
  else ret tt.

(** [processMessage(messageFile)], for the file [QUEUE_INCOMING/f]. *)
Definition processMessage (fuel : nat) (f : string) : M unit :=
  tryCatch (processBody fuel f) (fun _ => moveBack f).

(** Lines 400-418. A file that is JSON but whose [message] is no string is
    [Malformed] here and gets the key [default]; the code reads its [agent]
    field and routes its message like that of any other file. *)
Definition peekAgentId (st : State W) (f : string) : string :=
  match incoming st !! f with
  | Some (MessageJson m) =>
      let id := rt_agentId (routeMessage m) in
      if Js.nonEmpty id then id else "default"
  | _ => "default"
  end.

(** How a promise settled. *)
Inductive Settled := Fulfilled | Rejected (reason : string).

(** A promise reaction run to completion: the state it leaves and how the
    derived promise settles; [None] when the reaction never finishes. *)
Definition Reaction : Type := State W -> State W * option Settled.

Definition settle (m : M unit) : Reaction :=
  fun st =>
    match m st with
    | (st', Ok _) => (st', Some Fulfilled)
    | (st', Throw e) => (st', Some (Rejected e))
    | (st', Diverge) => (st', None)
    end.

(** [p.then(() => m)] *)
Definition thenDo (p : Settled) (m : M unit) : Reaction :=
  match p with
  | Fulfilled => settle m
  | Rejected e => fun st => (st, Some (Rejected e))
  end.

(** [p.catch(error => m)] *)
Definition catchDo (p : Settled) (m : string -> M unit) : Reaction :=
  match p with
  | Fulfilled => fun st => (st, Some Fulfilled)
  | Rejected e => settle (m e)
  end.

(** [p.finally(() => m)]: the derived promise settles as [p] did unless the
    callback throws. *)
Definition finallyDo (p : Settled) (m : M unit) : Reaction :=
  fun st =>
    match settle m st with
    | (st', Some Fulfilled) => (st', Some p)
    | r => r
    end.

Definition andThen (r : Reaction) (k : Settled -> Reaction) : Reaction :=
  fun st =>
    match r st with
    | (st', Some p) => k p st'
    | (st', None) => (st', None)
    end.

(** The chain link of lines 449-456, run once [currentChain] has settled as
    [prev]. *)
Definition runTask (fuel : nat) (prev : Settled) (f : string) : Reaction :=
  andThen (thenDo prev (processMessage fuel f)) (fun p1 =>
  andThen (catchDo p1 (fun _ => ret tt)) (fun p2 =>
  finallyDo p2 (modify (fun st => setQueuedFiles st (queuedFiles st ∖ {[f]}))))).

(** The synchronous part of one [processQueue] tick, lines 424-467, given
    the directory listing sorted by modification time: the files it starts
    to track, each with the key of the chain it is appended to. *)
Fixpoint enqueueFiles (fileNames : list string) (st : State W)
    : State W * list (string * string) :=
  match fileNames with
  | [] => (st, [])
  | f :: rest =>
      if bool_decide (f ∈ queuedFiles st)
      then enqueueFiles rest st
      else
        let st1 := setQueuedFiles st ({[f]} ∪ queuedFiles st) in
        let key := peekAgentId st1 f in
        let '(st2, tasks) := enqueueFiles rest st1 in
        (st2, (key, f) :: tasks)
  end.

(** Lines 500-508: what runs before the interval timer is armed. *)
Definition startup : M unit := recoverOrphanedFiles.

(** The part of the state that the queue lives in. *)
Definition queueOf (st : State W) :=
  (incoming st, processing st, outgoing st, queuedFiles st).

(** A computation that leaves the queue as it is and throws no error. *)
Definition quiet {A} (m : M A) : Prop :=
  forall st st' o, m st = (st', o) -> queueOf st' = queueOf st /\ forall e, o <> Throw e.

End WithCollaborators.

Arguments quiet W {A} m.

End Dispatcher.

Create HintDb quiet.

(** ** [swarm/swarm-processor.ts]: sending the final response *)
Module Swarm.

Record SwarmJobContext := {
  c_channel : string;
  c_sender : string;
  c_senderId : option string;
  c_messageId : string;
  c_originalMessage : string
}.

Section WithCollaborators.
Context {W : Type} `{C : Collaborators W}.
Local Open Scope dispatch_scope.

Definition LONG_RESPONSE_THRESHOLD : nat := 4000.

Definition attachedNotice : string := Js.newline +:+ Js.newline
  +:+ "_(Full swarm report attached as file)_".

(** [path.join(dir, name)] for a directory and a base name. *)
Definition pathJoin (dir name : string) : string := dir +:+ "/" +:+ name.

(** [sendFinalResponse(context, response)] *)
Definition sendFinalResponse (context : SwarmJobContext) (response : string)
    : Fs.M W unit :=
  let! st := get in
  let long := LONG_RESPONSE_THRESHOLD <? String.length response in
  let filename := "swarm_result_" +:+ pretty (now st) +:+ ".md" in
  (if long
   then modify (fun st => setFilesDir st (<[filename := response]> (filesDir st)))
   else ret tt) ;;
  let msg := if long
             then Js.take LONG_RESPONSE_THRESHOLD response +:+ attachedNotice
             else response in
  let files := if long then Some [pathJoin FILES_DIR filename] else None in
  writeOutgoing ("swarm_result_" +:+ c_messageId context +:+ "_" +:+ pretty (now st) +:+ ".json")
    {| r_channel := c_channel context; r_sender := c_sender context;
       r_message := msg; r_originalMessage := c_originalMessage context;
       r_timestamp := now st; r_messageId := c_messageId context;
       r_agent := None; r_files := files |}.

End WithCollaborators.
End Swarm.

(** ** [swarm/shuffle.ts] *)
Module Shuffle.

(** A parsed map-output item, as the grouping loop sees it: the keys
    [extractKeys(item, keyField)] returns and [JSON.stringify(item)]. *)
Record Item := { keys : list string; serialized : string }.

Record ShuffleConfig := {
  key_field : string;
  multi_key : option string;
  max_partition_size : option nat;
  reduce_prompt : option string;
  merge_prompt : option string
}.

Record ShuffleResult := {
  partitions : gmap string (list string);
  unkeyed : list string;
  totalItems : nat;
  duplicatedItems : nat
}.

Definition default_max_partition_size : nat := 200.
Definition hierarchical_reduce_fanin : nat := 20.

(** [x || d] on an optional number: absent and zero both give the default. *)
Definition orDefault (x : option nat) (d : nat) : nat :=
  match x with
  | Some (S n) => S n
  | _ => d
  end.

(** [x || d] on an optional string. *)
Definition orElse (x : option string) (d : string) : string :=
  match x with
  | Some s => if Js.nonEmpty s then s else d
  | None => d
  end.

(** A [Map<string, string[]>] in insertion order: [map.set(key, ...)] with
    the array [map.get(key) || []] after [push(x)]. *)
Fixpoint pushTo (key x : string) (m : list (string * list string))
    : list (string * list string) :=
  match m with
  | [] => [(key, [x])]
  | (k, xs) :: rest =>
      if String.eqb k key then (k, xs ++ [x]) :: rest
      else (k, xs) :: pushTo key x rest
  end.

Record Grouping := {
  g_partitions : list (string * list string);
  g_unkeyed : list string;
  g_duplicated : nat
}.

(** Lines 158-180: the grouping loop. *)
Definition groupStep (multiKey : string) (g : Grouping) (item : Item) : Grouping :=
  match keys item with
  | [] =>
      {| g_partitions := g_partitions g;
         g_unkeyed := g_unkeyed g ++ [serialized item];
         g_duplicated := g_duplicated g |}
  | k0 :: _ =>
      let keysToUse := if String.eqb multiKey "first" then [k0] else keys item in
      {| g_partitions :=
           foldl (fun m key => pushTo key (serialized item) m) (g_partitions g) keysToUse;
         g_unkeyed := g_unkeyed g;
         g_duplicated :=
           if 1 <? List.length keysToUse then S (g_duplicated g) else g_duplicated g |}
  end.

Definition groupByKey (multiKey : string) (items : list Item) : Grouping :=
  foldl (groupStep multiKey)
        {| g_partitions := []; g_unkeyed := []; g_duplicated := 0 |} items.

(** [Math.ceil(n / d)] for [d > 0]. *)
Definition ceilDiv (n d : nat) : nat := (n + d - 1) / d.

Definition subKey (key : string) (i : nat) : string :=
  key +:+ "_part" +:+ Js.ofNat (i + 1).

(** Lines 182-196: the sub-split of one grouped partition into the final
    map. *)
Definition subSplitOne (maxPartitionSize : nat) (final : gmap string (list string))
    (entry : string * list string) : gmap string (list string) :=
  let '(key, partitionItems) := entry in
  if List.length partitionItems <=? maxPartitionSize
  then <[key := partitionItems]> final
  else
    let chunks := ceilDiv (List.length partitionItems) maxPartitionSize in
    foldl (fun final i =>
             <[subKey key i :=
                 Js.slice (i * maxPartitionSize) ((i + 1) * maxPartitionSize) partitionItems]>
               final)
          final (seq 0 chunks).

(** The keys and values that [subSplitOne] sets for one grouped partition,
    in the order it sets them. *)
Definition subEntries (maxPartitionSize : nat) (entry : string * list string)
    : list (string * list string) :=
  let '(key, partitionItems) := entry in
  if List.length partitionItems <=? maxPartitionSize
  then [(key, partitionItems)]
  else map (fun i => (subKey key i,
                      Js.slice (i * maxPartitionSize) ((i + 1) * maxPartitionSize)
                        partitionItems))
           (seq 0 (ceilDiv (List.length partitionItems) maxPartitionSize)).

(** The names under which the grouped partitions end up in the final map. *)
Definition finalKeys (maxPartitionSize : nat) (parts : list (string * list string))
    : list string :=
  concat (map (fun entry => map fst (subEntries maxPartitionSize entry)) parts).

Definition subSplit (maxPartitionSize : nat) (parts : list (string * list string))
    : gmap string (list string) :=
  foldl (subSplitOne maxPartitionSize) ∅ parts.

(** [shuffleByKey], from the parsed items on. *)
Definition shuffleItems (items : list Item) (cfg : ShuffleConfig) : ShuffleResult :=
  let multiKey := orElse (multi_key cfg) "duplicate" in
  let maxPartitionSize := orDefault (max_partition_size cfg) default_max_partition_size in
  let g := groupByKey multiKey items in
  {| partitions := subSplit maxPartitionSize (g_partitions g);
     unkeyed := g_unkeyed g;
     totalItems := List.length items;
     duplicatedItems := g_duplicated g |}.

(** [arr.sort()] on strings: ascending by code units. *)
Fixpoint insertSorted (x : string) (l : list string) : list string :=
  match l with
  | [] => [x]
  | y :: rest => if String.leb x y then x :: l else y :: insertSorted x rest
  end.

Definition sortStrings (l : list string) : list string := foldr insertSorted [] l.

Record PartitionResult := { p_key : string; p_result : string }.

(** The options of [shuffleReducePartitions] that its body reads. *)
Record ShuffleReduceOptions := {
  o_shuffle : ShuffleConfig;
  o_reduce_prompt : option string;
  o_reduce_agent : option string;
  o_agent : AgentConfig;
  o_agentId : string;
  o_userMessage : string;
  o_concurrency : nat
}.

Section Reduce.
Context {W : Type} `{C : Collaborators W}.
Local Open Scope dispatch_scope.

(** [a.key.localeCompare(b.key)], which depends on the host locale. *)
Variable localeCompare : string -> string -> comparison.

(** The four chained [customPrompt.replace(/\{\{...\}\}/g, ...)] calls of
    [buildPartitionReducePrompt]. *)
Variable fillTemplate : string -> string -> string -> nat -> string -> string.

Definition nl : string := Js.newline.

(** Lines 359-377. *)
Definition buildPartitionReducePrompt (customPrompt partitionKey itemsText : string)
    (itemCount : nat) (userMessage : string) : string :=
  let defaultPrompt :=
    "Analyze the following " +:+ Js.ofNat itemCount +:+ " items that share the key "
    +:+ Js.dquote +:+ partitionKey +:+ Js.dquote
    +:+ ". Identify any duplicates, near-duplicates, or closely related items." in
  let prompt :=
    if Js.nonEmpty customPrompt
    then fillTemplate customPrompt partitionKey itemsText itemCount userMessage
    else defaultPrompt in
  prompt +:+ nl +:+ nl +:+ "Original task: " +:+ userMessage +:+ nl +:+ nl
  +:+ "Partition " +:+ Js.dquote +:+ partitionKey +:+ Js.dquote +:+ " ("
  +:+ Js.ofNat itemCount +:+ " items):"
  +:+ nl +:+ itemsText.

(** Lines 379-398. *)
Definition buildMergePrompt (customPrompt combinedResults : string)
    (partitionCount totalItems duplicatedItems : nat) (userMessage : string) : string :=
  let crossPartitionNote :=
    if 0 <? duplicatedItems
    then nl +:+ nl +:+ "Note: " +:+ Js.ofNat duplicatedItems
         +:+ " items appeared in multiple partitions (shared multiple keys). Deduplicate any findings that appear across partitions."
    else "" in
  let defaultPrompt :=
    "Below are results from " +:+ Js.ofNat partitionCount +:+ " partitions analyzing "
    +:+ Js.ofNat totalItems +:+ " total items. "
    +:+ "Merge these results into a single consolidated report. Remove duplicate findings that appear across partitions."
    +:+ crossPartitionNote in
  let prompt := if Js.nonEmpty customPrompt then customPrompt else defaultPrompt in
  prompt +:+ nl +:+ nl +:+ "Original task: " +:+ userMessage +:+ nl +:+ nl
  +:+ "---" +:+ nl +:+ nl +:+ combinedResults.

Definition partitionReducePrompt (o : ShuffleReduceOptions) : string :=
  orElse (reduce_prompt (o_shuffle o)) (orElse (o_reduce_prompt o) "").

Definition mergePrompt (o : ShuffleReduceOptions) : string :=
  orElse (merge_prompt (o_shuffle o)) (orElse (o_reduce_prompt o) "").

Definition reduceAgentId (o : ShuffleReduceOptions) : string :=
  orElse (o_reduce_agent o) (o_agentId o).

Definition reduceAgent (o : ShuffleReduceOptions) : AgentConfig :=
  match lookupTable agents (reduceAgentId o) with
  | Some cfg => cfg
  | None => o_agent o
  end.

Definition failedPlaceholder (key err : string) : string :=
  "[Partition " +:+ Js.dquote +:+ key +:+ Js.dquote +:+ " failed: " +:+ err +:+ "]".

(** Lines 241-274: the task of one keyed partition; what it pushes onto
    [partitionResults]. *)
Definition reduceKeyed (sr : ShuffleResult) (o : ShuffleReduceOptions) (key : string)
    : Fs.M W (list PartitionResult) :=
  tryCatch
    (let items := default [] (partitions sr !! key) in
     let itemsText := Js.join nl items in
     let prompt := buildPartitionReducePrompt (partitionReducePrompt o) key itemsText
                     (List.length items) (o_userMessage o) in
     let! result := Dispatcher.callAgent (reduceAgent o) (reduceAgentId o) prompt true in
     ret [{| p_key := key; p_result := result |}])
    (fun err => ret [{| p_key := key; p_result := failedPlaceholder key err |}]).

(** Lines 276-306: the task of the unkeyed items. *)
Definition reduceUnkeyed (sr : ShuffleResult) (o : ShuffleReduceOptions)
    : Fs.M W (list PartitionResult) :=
  match unkeyed sr with
  | [] => ret []
  | _ =>
      tryCatch
        (let prompt := buildPartitionReducePrompt (partitionReducePrompt o) "_unkeyed"
                         (Js.join nl (unkeyed sr)) (List.length (unkeyed sr))
                         (o_userMessage o) in
         let! result := Dispatcher.callAgent (reduceAgent o) (reduceAgentId o) prompt true in
         ret [{| p_key := "_unkeyed"; p_result := result |}])
        (fun _ => ret [])
  end.

Definition partitionKeys (sr : ShuffleResult) : list string :=
  sortStrings (Dispatcher.readdir (partitions sr)).

(** The pushes onto [partitionResults] up to [await Promise.all(promises)],
    with the tasks run one after the other in the order they were created
    (the order the semaphore admits them with one slot). *)
Fixpoint reduceAll (sr : ShuffleResult) (o : ShuffleReduceOptions) (ks : list string)
    : Fs.M W (list PartitionResult) :=
  match ks with
  | [] => reduceUnkeyed sr o
  | key :: rest =>
      let! r := reduceKeyed sr o key in
      let! rs := reduceAll sr o rest in
      ret (r ++ rs)
  end.

Definition partitionResults (sr : ShuffleResult) (o : ShuffleReduceOptions)
    : Fs.M W (list PartitionResult) :=
  reduceAll sr o (partitionKeys sr).

(** [partitionResults.sort((a, b) => a.key.localeCompare(b.key))]: a stable
    sort. *)
Fixpoint insertByKey (x : PartitionResult) (l : list PartitionResult)
    : list PartitionResult :=
  match l with
  | [] => [x]
  | y :: rest =>
      match localeCompare (p_key y) (p_key x) with
      | Gt => x :: l
      | _ => y :: insertByKey x rest
      end
  end.

Definition sortByKey (l : list PartitionResult) : list PartitionResult :=
  foldl (fun acc x => insertByKey x acc) [] l.

Definition combine (prs : list PartitionResult) : string :=
  Js.join Dispatcher.chainSeparator
    (map (fun pr => "## Partition: " +:+ p_key pr +:+ nl +:+ nl +:+ p_result pr) prs).

(** [shuffleReducePartitions(shuffleResult, options)] *)
Definition shuffleReducePartitions (sr : ShuffleResult) (o : ShuffleReduceOptions)
    : Fs.M W string :=
  let! prs := partitionResults sr o in
  let sorted := sortByKey prs in
  let combinedPartitionResults := combine sorted in
  if List.length sorted <=? hierarchical_reduce_fanin
  then
    let finalPrompt := buildMergePrompt (mergePrompt o) combinedPartitionResults
                         (List.length sorted) (totalItems sr) (duplicatedItems sr)
                         (o_userMessage o) in
    tryCatch (Dispatcher.callAgent (reduceAgent o) (reduceAgentId o) finalPrompt true)
             (fun _ => ret combinedPartitionResults)
  else ret combinedPartitionResults.

End Reduce.

End Shuffle.

(** ** JSON values as [JSON.parse] returns them *)
Module Json.

(** Numbers are the integers; other numbers are outside the model. *)
#[warnings="-register-all"]
Inductive jsval :=
  | JUndefined
  | JNull
  | JBool (b : bool)
  | JNum (z : Z)
  | JStr (s : string)
  | JArr (items : list jsval)
  | JObj (fields : list (string * jsval)).

(** The property read [v.k] for a key that no prototype defines ([type],
    [context], [lesson], [action], [item], [text]): [None] is the
    [TypeError] of reading a property of [null] or [undefined]. *)
Definition prop (v : jsval) (k : string) : option jsval :=
  match v with
  | JUndefined | JNull => None
  | JObj fields => Some (default JUndefined (lookupTable fields k))
  | _ => Some JUndefined
  end.

(** The optional read [v?.k]. *)
Definition optProp (v : jsval) (k : string) : jsval :=
  default JUndefined (prop v k).

Section WithNumbers.

(** [String(z)] for a number: the decimal digits for a safe integer, and
    for a larger one the shortest digits that read back as the same double,
    in exponent form from [1e21] on. *)
Variable Number_toString : Z -> string.

(** [String(v)], as a template literal renders [v]; [None] is the
    [TypeError] "Cannot convert object to primitive value". An object from
    [JSON.parse] inherits [Object.prototype.toString] unless it has a key
    [toString] of its own; the value of that key is never callable, and
    neither [valueOf] (inherited, it returns the object; own, it is not
    callable) gives a primitive. An array joins its elements, [null] and
    [undefined] as the empty string, and throws when an element does. *)
Fixpoint toString (v : jsval) : option string :=
  match v with
  | JUndefined => Some "undefined"
  | JNull => Some "null"
  | JBool true => Some "true"
  | JBool false => Some "false"
  | JNum z => Some (Number_toString z)
  | JStr s => Some s
  | JArr items =>
      Js.join "," <$> mapM (fun x => match x with
                                     | JUndefined | JNull => Some EmptyString
                                     | _ => toString x
                                     end) items
  | JObj fields =>
      match lookupTable fields "toString" with
      | Some _ => None
      | None => Some "[object Object]"
      end
  end.

End WithNumbers.

Definition truthy (v : jsval) : bool :=
  match v with
  | JUndefined | JNull => false
  | JBool b => b
  | JNum z => negb (z =? 0)%Z
  | JStr s => Js.nonEmpty s
  | JArr _ | JObj _ => true
  end.

(** [v === s] for a string literal [s]. *)
Definition isString (v : jsval) (s : string) : bool :=
  match v with
  | JStr t => String.eqb t s
  | _ => false
  end.

End Json.
Export Json.

(** ** [lib/invoke.ts]: the memory composer and the Codex output parser *)
Module Invoke.

(** The files of an agent's [memory/] directory that the first two sections
    read; [None] is a missing file. *)
Record MemoryFiles := {
  knowledge_md : option string;
  reflections_jsonl : option string
}.

Section WithParser.

(** [JSON.parse(text)]: [None] when it throws. *)
Variable JSON_parse : string -> option jsval.

(** [String(z)] for a number [z]. *)
Variable Number_toString : Z -> string.

Definition nl : string := Js.newline.

(** The separator [" → "] of a reflection's action. The arrow is one code
    unit in the source and is written here by its UTF-8 bytes; nothing
    measures this text. *)
Definition actionArrow : string :=
  " " +:+ String (ascii_of_nat 226) (String (ascii_of_nat 134)
            (String (ascii_of_nat 146) EmptyString)) +:+ " ".

(** The callback of [recent.map] in lines 470-477: the rendered line, or
    [None] for the [null] of the [catch] branch, which is taken when
    [JSON.parse] throws, when [r] is [null], and when a field that the
    template literal renders cannot be converted to a string. *)
Definition renderReflection (line : string) : option string :=
  r ← JSON_parse line;
  type ← prop r "type" ≫= toString Number_toString;
  context ← prop r "context" ≫= toString Number_toString;
  lesson ← prop r "lesson" ≫= toString Number_toString;
  action ← prop r "action";
  shown ← (if truthy action
           then (fun text => actionArrow +:+ text) <$> toString Number_toString action
           else Some EmptyString);
  Some ("- [" +:+ type +:+ "] " +:+ context +:+ ": " +:+ lesson +:+ shown).

(** [content.split('\n').filter(l => l.trim())] *)
Definition nonBlankLines (content : string) : list string :=
  filter (fun l => Js.nonEmpty (Js.trim l) = true) (Js.splitLines content).

(** Lines 453-460: the section pushed for [knowledge.md]. *)
Definition knowledgeSection (file : option string) : option string :=
  match file with
  | None => None
  | Some raw =>
      let knowledge := Js.trim raw in
      if Js.nonEmpty knowledge && negb (Js.includes knowledge "_No entries yet")
      then Some ("## Knowledge" +:+ nl +:+ knowledge)
      else None
  end.

(** Lines 462-483: the section pushed for [reflections.jsonl]. *)
Definition reflectionsSection (file : option string) : option string :=
  match file with
  | None => None
  | Some raw =>
      let content := Js.trim raw in
      if Js.nonEmpty content
      then
        let lines := nonBlankLines content in
        let recent := Js.lastN 10 lines in
        if 0 <? List.length recent
        then
          let formatted :=
            Js.join nl (filter (fun x => Js.nonEmpty x = true)
                          (omap renderReflection recent)) in
          if Js.nonEmpty formatted
          then Some ("## Recent Reflections" +:+ nl +:+ formatted)
          else None
        else None
      else None
  end.

(** The section as the specification words it: the last 10 parseable
    lines of the file. *)
Definition spec_reflectionsSection (file : option string) : option string :=
  match file with
  | None => None
  | Some raw =>
      match Js.lastN 10 (omap renderReflection (nonBlankLines (Js.trim raw))) with
      | [] => None
      | rendered => Some ("## Recent Reflections" +:+ nl +:+ Js.join nl rendered)
      end
  end.

(** [loadMemoryContext(workingDir, userMessage)], with the sections of the
    episodes and of the skills, which depend on the user message, taken as
    given. [None] for [memory] is a missing directory. *)
Definition loadMemoryContext (memory : option MemoryFiles)
    (episodesSection skillsSection : option string) : string :=
  match memory with
  | None => EmptyString
  | Some files =>
      let sections :=
        omap id [knowledgeSection (knowledge_md files);
                 reflectionsSection (reflections_jsonl files);
                 episodesSection; skillsSection] in
      match sections with
      | [] => EmptyString
      | _ => "[MEMORY]" +:+ nl +:+ Js.join (nl +:+ nl) sections +:+ nl
             +:+ "[/MEMORY]" +:+ nl +:+ nl
      end
  end.

Definition codexFallback : string := "Sorry, I could not generate a response from Codex.".

(** The body of the loop of lines 660-669 for one line of output. *)
Definition codexLine (response : jsval) (line : string) : jsval :=
  match JSON_parse line with
  | None => response
  | Some json =>
      match prop json "type" with
      | None => response
      | Some type =>
          if isString type "item.completed"
             && isString (optProp (optProp json "item") "type") "agent_message"
          then default response (prop (optProp json "item") "text")
          else response
      end
  end.

(** Lines 657-671: the value the OpenAI branch returns for the output
    [codexOutput] of the subprocess. *)
Definition parseCodexOutput (codexOutput : string) : jsval :=
  let lines := Js.splitLines (Js.trim codexOutput) in
  let response := foldl codexLine (JStr EmptyString) lines in
  if truthy response then response else JStr codexFallback.

(** The [text] of an event whose [type] is [item.completed] and whose
    [item.type] is [agent_message]; [None] for any other value. *)
Definition agentMessageText (json : jsval) : option jsval :=
  match prop json "type" with
  | Some type =>
      if isString type "item.completed"
         && isString (optProp (optProp json "item") "type") "agent_message"
      then Some (optProp (optProp json "item") "text")
      else None
  | None => None
  end.

(** The texts of the agent-message events of an output, in line order. *)
Definition agentMessageTexts (codexOutput : string) : list jsval :=
  omap (fun line => JSON_parse line ≫= agentMessageText)
       (Js.splitLines (Js.trim codexOutput)).

(** Lines 646-653. *)
Definition codexArgs (shouldReset : bool) (modelId message : string) : list string :=
  ["exec"]
  ++ (if negb shouldReset then ["resume"; "--last"] else [])
  ++ (if Js.nonEmpty modelId then ["--model"; modelId] else [])
  ++ ["--skip-git-repo-check"; "--dangerously-bypass-approvals-and-sandbox"; "--json"; message].

(** Lines 683-690. *)
Definition claudeArgs (shouldReset : bool) (modelId message : string) : list string :=
  ["--dangerously-skip-permissions"]
  ++ (if Js.nonEmpty modelId then ["--model"; modelId] else [])
  ++ (if negb shouldReset then ["-c"] else [])
  ++ ["-p"; message].

(** [runCommand(command, args, cwd)]: the captured output, or the message
    of the error it rejects with. *)
Variable runCommand : string -> list string -> string -> string + string.

(** Lines 634-693 of [invokeAgent]: the provider branch, for the message
    with its memory context already prepended and the resolved model. *)
Definition invokeProvider (provider : option string) (modelId workingDir message : string)
    (shouldReset : bool) : jsval + string :=
  if String.eqb (Shuffle.orElse provider "anthropic") "openai"
  then match runCommand "codex" (codexArgs shouldReset modelId message) workingDir with
       | inl codexOutput => inl (parseCodexOutput codexOutput)
       | inr err => inr err
       end
  else match runCommand "claude" (claudeArgs shouldReset modelId message) workingDir with
       | inl out => inl (JStr out)
       | inr err => inr err
       end.

End WithParser.
End Invoke.

(** ** A concrete configuration

    The seed scenarios of the specification: agents [default] (echoes its
    prompt), [alice] (hands over to [bob]), [bob] (answers [done]) and
    [flaky] (whose worker always fails), and the team [eng] led by [alice].
    The world is the set of paths that exist. *)
Module Demo.

Definition agentOf (name : string) : AgentConfig :=
  {| a_name := name; a_provider := Some "anthropic"; a_model := "sonnet";
     a_working_directory := None |}.

Definition eng : TeamConfig :=
  {| t_name := "Engineering"; t_agents := ["alice"; "bob"]; t_leader_agent := "alice" |}.

Definition route (msg : string) : Routing :=
  match Js.stripPrefix "@alice @bob " msg with
  | Some _ =>
      {| rt_agentId := "error";
         rt_message := "One agent at a time, please.";
         rt_isTeam := false |}
  | None =>
      match Js.stripPrefix "@bob " msg with
      | Some rest => {| rt_agentId := "bob"; rt_message := rest; rt_isTeam := false |}
      | None =>
          match Js.stripPrefix "@eng " msg with
          | Some rest => {| rt_agentId := "alice"; rt_message := rest; rt_isTeam := true |}
          | None => {| rt_agentId := "default"; rt_message := msg; rt_isTeam := false |}
          end
      end
  end.

Definition mentions (response currentAgentId teamId : string) : list Mention :=
  if String.eqb currentAgentId "alice"
  then match Js.stripPrefix "@bob " response with
       | Some rest => [{| teammateId := "bob"; m_message := rest |}]
       | None => []
       end
  else [].

Definition worker (w : gset string) (cfg : AgentConfig) (id msg : string) (reset : bool)
    : gset string * (string + string) :=
  if String.eqb id "alice" then (w, inl "@bob please continue")
  else if String.eqb id "bob" then (w, inl "done")
  else if String.eqb id "flaky" then (w, inr "boom")
  else (w, inl msg).

#[global] Instance collaborators : Collaborators (gset string) := {|
  agents := [("default", agentOf "Default"); ("alice", agentOf "Alice");
             ("bob", agentOf "Bob"); ("flaky", agentOf "Flaky")];
  teams := [("eng", eng)];
  parseAgentRouting := route;
  findTeamForAgent := fun id =>
    if String.eqb id "alice" || String.eqb id "bob" then Some ("eng", eng) else None;
  extractTeammateMentions := mentions;
  invokeAgent := worker;
  existsSync := fun w p => bool_decide (p ∈ w);
  toISOString := fun _ => "2026-02-17T10:00:00.000Z";
  FILES_DIR := "/srv/tinyclaw/files"
|}.

Definition messageOf (text : string) : MessageData :=
  {| channel := "t"; sender := "u"; message := text; timestamp := 1%N;
     messageId := "m1"; agent := None; senderId := None; files := None |}.

(** A queue holding one incoming file, at time 7, with [paths] on disk. *)
Definition queueWith (f : string) (body : FileBody) (paths : gset string)
    : State (gset string) :=
  {| incoming := {[ f := body ]}; processing := ∅; outgoing := ∅; filesDir := ∅;
     resetFlag := false; agentResetFlags := ∅; chats := []; world := paths;
     now := 7%N; invocations := []; queuedFiles := {[ f ]} |}.

(** A crashed dispatcher: two message files and a note stranded in
    [processing]. *)
Definition stranded : State (gset string) :=
  {| incoming := {[ "c.json" := MessageJson (messageOf "new") ]};
     processing := {[ "a.json" := MessageJson (messageOf "hello");
                      "b.json" := Malformed "{oops";
                      "notes.txt" := Malformed "todo" ]};
     outgoing := ∅; filesDir := ∅;
     resetFlag := false; agentResetFlags := ∅; chats := []; world := ∅;
     now := 7%N; invocations := []; queuedFiles := ∅ |}.

(** A message addressed to two agents at once. *)
Definition multiMention : State (gset string) :=
  queueWith "m.json" (MessageJson (messageOf "@alice @bob hi")) ∅.

(** A file that is no JSON. *)
Definition badFile : State (gset string) :=
  queueWith "bad.json" (Malformed "{oops") ∅.

(** A message the default agent echoes, naming a file that does not
    exist. *)
Definition missingFile : State (gset string) :=
  queueWith "m.json" (MessageJson (messageOf "see [send_file: /nope]")) ∅.

(** A message file already moved to [processing], with [/a] on disk. *)
Definition inFlight : State (gset string) :=
  {| incoming := ∅; processing := {[ "m.json" := MessageJson (messageOf "hello") ]};
     outgoing := ∅; filesDir := ∅;
     resetFlag := false; agentResetFlags := ∅; chats := []; world := {[ "/a" ]};
     now := 7%N; invocations := []; queuedFiles := {[ "m.json" ]} |}.

Fixpoint repeatString (n : nat) (s : string) : string :=
  match n with
  | O => EmptyString
  | S k => s +:+ repeatString k s
  end.

(** ["key":"value"] *)
Definition field (key value : string) : string :=
  Js.dquote +:+ key +:+ Js.dquote +:+ ":" +:+ Js.dquote +:+ value +:+ Js.dquote.

(** The reflection record number [n], as a line of [reflections.jsonl]. *)
Definition reflectionLine (n : nat) : string :=
  "{" +:+ field "type" "insight" +:+ "," +:+ field "context" ("c" +:+ Js.ofNat n)
  +:+ "," +:+ field "lesson" ("l" +:+ Js.ofNat n) +:+ "}".

(** A Codex event with an empty agent message:
    [{"type":"item.completed","item":{"type":"agent_message","text":""}}]. *)
Definition emptyMessageEvent : string :=
  "{" +:+ field "type" "item.completed" +:+ "," +:+ Js.dquote +:+ "item" +:+ Js.dquote
  +:+ ":{" +:+ field "type" "agent_message" +:+ "," +:+ field "text" EmptyString +:+ "}}".

(** A Codex event with the agent message [hi]. *)
Definition hiMessageEvent : string :=
  "{" +:+ field "type" "item.completed" +:+ "," +:+ Js.dquote +:+ "item" +:+ Js.dquote
  +:+ ":{" +:+ field "type" "agent_message" +:+ "," +:+ field "text" "hi" +:+ "}}".

Definition messageEvent (text : string) : jsval :=
  JObj [("type", JStr "item.completed");
        ("item", JObj [("type", JStr "agent_message"); ("text", JStr text)])].

(** [String(z)] on the safe integers: the decimal digits. *)
Definition decimal (z : Z) : string := pretty z.

(** [JSON.parse] on the lines the scenarios use: the first twenty reflection
    records and the two events; it throws on any other text. *)
Definition parse (line : string) : option jsval :=
  match List.find (fun n => String.eqb line (reflectionLine n)) (seq 0 20) with
  | Some n =>
      Some (JObj [("type", JStr "insight"); ("context", JStr ("c" +:+ Js.ofNat n));
                  ("lesson", JStr ("l" +:+ Js.ofNat n))])
  | None =>
      if String.eqb line emptyMessageEvent then Some (messageEvent EmptyString)
      else if String.eqb line hiMessageEvent then Some (messageEvent "hi")
      else None
  end.

(** A record whose [type] is an object with a key [toString]:
    [{"type":{"toString":1},"context":"c","lesson":"l"}]. *)
Definition shadowedLine : string :=
  "{" +:+ Js.dquote +:+ "type" +:+ Js.dquote +:+ ":{" +:+ Js.dquote +:+ "toString"
  +:+ Js.dquote +:+ ":1}," +:+ field "context" "c" +:+ "," +:+ field "lesson" "l" +:+ "}".

(** [JSON.parse] on that record also. *)
Definition parseShadowed (line : string) : option jsval :=
  if String.eqb line shadowedLine
  then Some (JObj [("type", JObj [("toString", JNum 1)]); ("context", JStr "c");
                   ("lesson", JStr "l")])
  else parse line.

(** A [reflections.jsonl] of eleven lines: the records 1 to 10, then a line
    that is no JSON. *)
Definition elevenLines : string :=
  Js.join Js.newline (map reflectionLine (seq 1 10) ++ ["not json"]) +:+ Js.newline.

(** The [codex] subprocess answers one event with an empty message. *)
Definition codexSaysNothing (command : string) (args : list string) (cwd : string)
    : string + string :=
  inl (emptyMessageEvent +:+ Js.newline).

(** The [codex] subprocess answers [hi], then an empty message. *)
Definition codexSaysHi (command : string) (args : list string) (cwd : string)
    : string + string :=
  inl (hiMessageEvent +:+ Js.newline +:+ "progress..." +:+ Js.newline).

(** [JSON.stringify] of the map output item number [n] with tag [tag]. *)
Definition itemText (tag : string) (n : nat) : string :=
  "{" +:+ field "tags" tag +:+ "," +:+ Js.dquote +:+ "n" +:+ Js.dquote +:+ ":"
  +:+ Js.ofNat n +:+ "}".

Definition itemOf (tag : string) (n : nat) : Shuffle.Item :=
  {| Shuffle.keys := [tag]; Shuffle.serialized := itemText tag n |}.

(** Three items tagged [a] and one tagged [a_part1], for partitions of at
    most two items. *)
Definition collidingItems : list Shuffle.Item :=
  [itemOf "a" 1; itemOf "a" 2; itemOf "a" 3; itemOf "a_part1" 4].

Definition pairsOnly : Shuffle.ShuffleConfig :=
  {| Shuffle.key_field := "tags"; Shuffle.multi_key := None;
     Shuffle.max_partition_size := Some 2;
     Shuffle.reduce_prompt := None; Shuffle.merge_prompt := None |}.

(** A shuffle result with one keyed partition and one unkeyed item, reduced
    by the agent whose worker always fails. *)
Definition keyedAndUnkeyed : Shuffle.ShuffleResult :=
  {| Shuffle.partitions := {[ "a" := [itemText "a" 1; itemText "a" 2] ]};
     Shuffle.unkeyed := ["{}"];
     Shuffle.totalItems := 3; Shuffle.duplicatedItems := 0 |}.

Definition flakyReducer : Shuffle.ShuffleReduceOptions :=
  {| Shuffle.o_shuffle := pairsOnly; Shuffle.o_reduce_prompt := None;
     Shuffle.o_reduce_agent := Some "flaky"; Shuffle.o_agent := agentOf "Default";
     Shuffle.o_agentId := "default"; Shuffle.o_userMessage := "find duplicates";
     Shuffle.o_concurrency := 2 |}.

(** The same reduction by the echoing default agent. *)
Definition echoReducer : Shuffle.ShuffleReduceOptions :=
  {| Shuffle.o_shuffle := pairsOnly; Shuffle.o_reduce_prompt := None;
     Shuffle.o_reduce_agent := None; Shuffle.o_agent := agentOf "Default";
     Shuffle.o_agentId := "default"; Shuffle.o_userMessage := "find duplicates";
     Shuffle.o_concurrency := 2 |}.

Definition swarmContext : Swarm.SwarmJobContext :=
  {| Swarm.c_channel := "t"; Swarm.c_sender := "u"; Swarm.c_senderId := None;
     Swarm.c_messageId := "m1"; Swarm.c_originalMessage := "@swarm go" |}.

End Demo.

(** ** What a dispatcher computation calls, and the shape of a chain *)
Module Trace.
Import Dispatcher.

Section WithCollaborators.
Context {W : Type} `{C : Collaborators W}.

(** A computation whose agent calls, in whatever state it is run and
    however it ends, all satisfy [P]; it only appends to the call trace. *)
Definition callsOnly {A} (P : Invocation -> Prop) (m : Fs.M W A) : Prop :=
  forall st st' o, m st = (st', o) ->
    exists more, invocations st' = invocations st ++ more /\ Forall P more.

(** The property names of [Object.prototype]. The settings table is a plain
    object, so for these names the read [agents[id]] finds an inherited
    value, which is truthy, where [lookupTable] finds nothing: the two agree
    on every other id. *)
Definition prototypeKeys : list string :=
  ["constructor"; "__proto__"; "hasOwnProperty"; "isPrototypeOf"; "propertyIsEnumerable";
   "toLocaleString"; "toString"; "valueOf"; "__defineGetter__"; "__defineSetter__";
   "__lookupGetter__"; "__lookupSetter__"].

Definition isPrototypeKey (id : string) : bool := existsb (String.eqb id) prototypeKeys.

(** An agent id of the settings table. *)
Definition configured (id : string) : Prop := is_Some (lookupTable agents id).

Definition toConfigured (i : Invocation) : Prop := configured (i_agentId i).

(** One fan-out result against the mention it answers. *)
Definition answersMention (step : ChainStep) (mention : Mention) : Prop :=
  agentId step = teammateId mention
  /\ (lookupTable agents (teammateId mention) = None ->
      response step = "Error: agent " +:+ teammateId mention +:+ " not found").

(** The recorded steps of a chain follow the mentions of the responses: a
    step without mention is the last; after a step with one mention comes
    the step of the mentioned teammate, or nothing when that teammate is
    not configured; after a step with several mentions come the results of
    the fan-out, one for each mention in order, and nothing else. *)
Fixpoint chainShape (teamId : string) (steps : list ChainStep) : Prop :=
  match steps with
  | [] => True
  | step :: rest =>
      match extractTeammateMentions (response step) (agentId step) teamId with
      | [] => rest = []
      | [mention] =>
          match rest with
          | [] => lookupTable agents (teammateId mention) = None
          | next :: _ =>
              agentId next = teammateId mention
              /\ configured (teammateId mention)
              /\ chainShape teamId rest
          end
      | mentions => Forall2 answersMention rest mentions
      end
  end.

End WithCollaborators.

Arguments callsOnly W {A} P m.

End Trace.

Create HintDb calls.

(** ** [swarm/shuffle.ts]: the semaphore *)
Module Semaphore.

(** The fields of a [Semaphore], lines 400-425, for a limit that is an
    integer. A queued [resolve] callback is named by the task that waits
    for it. *)
Record t := { max : Z; current : Z; queue : list nat }.

(** [new Semaphore(max)] *)
Definition create (max : Z) : t := {| max := max; current := 0; queue := [] |}.

(** [acquire()] called by task [who]: the semaphore afterwards, and whether
    the promise returned is already resolved. *)
Definition acquire (who : nat) (s : t) : t * bool :=
  if (current s <? max s)%Z
  then ({| max := max s; current := current s + 1; queue := queue s |}, true)
  else ({| max := max s; current := current s; queue := queue s ++ [who] |}, false).

(** [release()]: the semaphore afterwards, and the task whose promise it
    resolves. *)
Definition release (s : t) : t * option nat :=
  let current1 := (current s - 1)%Z in
  match queue s with
  | next :: rest => ({| max := max s; current := current1 + 1; queue := rest |}, Some next)
  | [] => ({| max := max s; current := current1; queue := [] |}, None)
  end.

(** The tasks of [shuffleReducePartitions] use the semaphore in one way:
    [await semaphore.acquire()], then the work, then [semaphore.release()]
    in the [finally] block. *)
Inductive Event :=
  | Acquires (who : nat)
  | Releases (who : nat).

(** A semaphore and the tasks that are past their [await] and have not
    released yet. *)
Record Pool := { sem : t; running : list nat }.

Fixpoint removeOne (who : nat) (l : list nat) : option (list nat) :=
  match l with
  | [] => None
  | x :: rest =>
      if Nat.eqb x who then Some rest
      else match removeOne who rest with
           | Some rest' => Some (x :: rest')
           | None => None
           end
  end.

(** One event; [None] when a task that is not running releases. *)
Definition step (p : Pool) (e : Event) : option Pool :=
  match e with
  | Acquires who =>
      let '(s, resolved) := acquire who (sem p) in
      Some {| sem := s; running := if resolved then running p ++ [who] else running p |}
  | Releases who =>
      match removeOne who (running p) with
      | None => None
      | Some rest =>
          let '(s, next) := release (sem p) in
          Some {| sem := s;
                  running := rest ++ match next with Some n => [n] | None => [] end |}
      end
  end.

Fixpoint run (p : Pool) (events : list Event) : option Pool :=
  match events with
  | [] => Some p
  | e :: rest =>
      match step p e with
      | Some p' => run p' rest
      | None => None
      end
  end.

Definition start (max : Z) : Pool := {| sem := create max; running := [] |}.

(** What holds of a pool between two events: the counter is the number of
    running tasks, it does not pass the limit, and a task waits only while
    the counter has reached the limit. *)
Definition balanced (limit : Z) (p : Pool) : Prop :=
  max (sem p) = limit
  /\ current (sem p) = Z.of_nat (List.length (running p))
  /\ (current (sem p) <= Z.max 0 limit)%Z
  /\ (queue (sem p) <> [] -> (limit <= current (sem p))%Z).

End Semaphore.

(** ** [swarm/shuffle.ts]: from the map outputs to the shuffle *)
Module MapOutput.
Import Shuffle.

(** [c.toLowerCase()] on one code unit below 256: the letters [A]-[Z] and
    the capital letters of Latin-1 ([U+00C0]-[U+00DE] without the
    multiplication sign) move up by 32. *)
Definition lowerChar (c : ascii) : ascii :=
  let n := nat_of_ascii c in
  if ((65 <=? n) && (n <=? 90)) || ((192 <=? n) && (n <=? 222) && negb (n =? 215))
  then ascii_of_nat (n + 32)
  else c.

(** [s.toLowerCase()] *)
Fixpoint toLowerCase (s : string) : string :=
  match s with
  | EmptyString => EmptyString
  | String c t => String (lowerChar c) (toLowerCase t)
  end.

(** [typeof v === 'object'], which holds of [null]. *)
Definition isObjectType (v : jsval) : bool :=
  match v with
  | JNull | JArr _ | JObj _ => true
  | _ => false
  end.

(** The longest prefix of [s] that ends with a closing bracket. *)
Fixpoint upToLastClose (s : string) : option string :=
  match s with
  | EmptyString => None
  | String c t =>
      match upToLastClose t with
      | Some r => Some (String c r)
      | None => if Ascii.eqb c "]"%char then Some (String c EmptyString) else None
      end
  end.

(** [result.match(/\[[\s\S]*\]/)]: the text from the first opening bracket
    to the last closing bracket after it. *)
Fixpoint matchArray (s : string) : option string :=
  match s with
  | EmptyString => None
  | String c t =>
      if Ascii.eqb c "["%char
      then match upToLastClose t with
           | Some r => Some (String c r)
           | None => matchArray t
           end
      else matchArray t
  end.

Section WithJson.

(** [JSON.parse(text)]: [None] when it throws. *)
Variable JSON_parse : string -> option jsval.

(** [String(z)] for a number [z]. *)
Variable Number_toString : Z -> string.

(** [JSON.stringify(item)] *)
Variable JSON_stringify : jsval -> string.

(** [parsed.filter(item => item && typeof item === 'object')] *)
Definition objectsOf (items : list jsval) : list jsval :=
  filter (fun item => truthy item && isObjectType item = true) items.

(** Try 3 of [parseMapOutputs], lines 96-113: what the loop over the lines
    pushes. *)
Definition parseLines (result : string) : list jsval :=
  Js.splitLines result ≫= (fun line =>
    let trimmed := Js.trim line in
    if Js.startsWith trimmed "{"
    then match JSON_parse trimmed with
         | Some parsed => if isObjectType parsed then [parsed] else []
         | None => []
         end
    else []).

(** Try 2, lines 82-94, falling through to try 3. *)
Definition parseEmbedded (result : string) : list jsval :=
  match matchArray result with
  | Some text =>
      match JSON_parse text with
      | Some (JArr items) => objectsOf items
      | _ => parseLines result
      end
  | None => parseLines result
  end.

(** The body of the loop of [parseMapOutputs], lines 66-117: what one batch
    result adds to [allItems]. *)
Definition parseBatch (result : string) : list jsval :=
  match JSON_parse (Js.trim result) with
  | Some (JArr items) => objectsOf items
  | Some parsed => if isObjectType parsed then [parsed] else parseEmbedded result
  | None => parseEmbedded result
  end.

(** [parseMapOutputs(batchResults)] *)
Definition parseMapOutputs (batchResults : list string) : list jsval :=
  batchResults ≫= parseBatch.

(** [String(v).toLowerCase().trim()]; [None] when [String(v)] throws. *)
Definition normalize (v : jsval) : option string :=
  (fun text => Js.trim (toLowerCase text)) <$> toString Number_toString v.

(** A key that can name an element of an array: a run of digits. *)
Definition isArrayIndex (k : string) : bool :=
  Js.nonEmpty k
  && forallb (fun c => (48 <=? nat_of_ascii c) && (nat_of_ascii c <=? 57))
       (list_ascii_of_string k).

(** [extractKeys(item, keyField)], lines 126-138, for a key field that is
    no array index and that no prototype defines; [None] is a [TypeError]:
    of reading a property of [null], or of converting a key value that is
    an object with a key [toString]. (The value that a prototype defines
    for a key, a function or the prototype itself, converts without
    error.) *)
Definition extractKeys (item : jsval) (keyField : string) : option (list string) :=
  match prop item keyField with
  | None => None
  | Some JUndefined | Some JNull => Some []
  | Some (JArr values) =>
      filter (fun k => Js.nonEmpty k = true) <$> mapM normalize values
  | Some value =>
      (fun k => filter (fun k => Js.nonEmpty k = true) [k]) <$> normalize value
  end.

(** The first two statements of the grouping loop, lines 164-165. *)
Definition toItem (keyField : string) (item : jsval) : option Item :=
  match extractKeys item keyField with
  | Some ks => Some {| keys := ks; serialized := JSON_stringify item |}
  | None => None
  end.

(** [shuffleByKey(batchResults, config)]; [None] when it throws. *)
Definition shuffleByKey (batchResults : list string) (cfg : ShuffleConfig)
    : option ShuffleResult :=
  match mapM (toItem (key_field cfg)) (parseMapOutputs batchResults) with
  | Some items => Some (shuffleItems items cfg)
  | None => None
  end.

End WithJson.

End MapOutput.

(** ** More scenarios *)
Module Cases.

(** The message [hello] for the default agent, waiting in [incoming]. *)
Definition hello : State (gset string) :=
  Demo.queueWith "m.json" (MessageJson (Demo.messageOf "hello")) ∅.

(** The message [@eng start] for the team [eng], waiting in [incoming]. *)
Definition teamMessage : State (gset string) :=
  Demo.queueWith "m.json" (MessageJson (Demo.messageOf "@eng start")) ∅.

(** Three tasks ask for two slots; the first one finishes. *)
Definition threeTasks : list Semaphore.Event :=
  [Semaphore.Acquires 1; Semaphore.Acquires 2; Semaphore.Acquires 3; Semaphore.Releases 1].

(** A map output: the JSON text of one array with two tagged items. *)
Definition taggedBatch : string :=
  "[{" +:+ Demo.field "tags" " Auth" +:+ "},{" +:+ Demo.field "tags" "auth" +:+ "}]".

(** A map output whose one item has a tag that cannot be converted to a
    string: [[{"tags":{"toString":1}}]]. *)
Definition shadowedBatch : string :=
  "[{" +:+ Js.dquote +:+ "tags" +:+ Js.dquote +:+ ":{" +:+ Js.dquote +:+ "toString"
  +:+ Js.dquote +:+ ":1}}]".

(** [JSON.parse] on the texts the scenarios use. *)
Definition parse (text : string) : option jsval :=
  if String.eqb text taggedBatch
  then Some (JArr [JObj [("tags", JStr " Auth")]; JObj [("tags", JStr "auth")]])
  else if String.eqb text shadowedBatch
  then Some (JArr [JObj [("tags", JObj [("toString", JNum 1)])]])
  else if String.eqb text "null" then Some JNull
  else None.

(** [JSON.stringify] on the items of the two batches and on [null]. *)
Definition stringify (v : jsval) : string :=
  match optProp v "tags" with
  | JStr tag => "{" +:+ Demo.field "tags" tag +:+ "}"
  | JObj _ => "{" +:+ Js.dquote +:+ "tags" +:+ Js.dquote +:+ ":{" +:+ Js.dquote
              +:+ "toString" +:+ Js.dquote +:+ ":1}}"
  | _ => "null"
  end.

(** Three lines of an [episodes.jsonl], as texts and as the values they
    parse to. *)
Definition episodeLines : list (string * jsval) :=
  [("{e1}", JObj [("summary", JStr "deploy notes")]);
   ("{e2}", JObj [("summary", JStr "Lunch menu"); ("tags", JArr [JStr "food"])]);
   ("{e3}", JObj [("summary", JStr "deploy failed on friday"); ("outcome", JStr "success");
                  ("tags", JArr [JStr "ops"])])].

Definition episodesFile : string :=
  Js.join Js.newline (map fst episodeLines) +:+ Js.newline.

Definition parseEpisode (text : string) : option jsval := lookupTable episodeLines text.

(** Two teammates that always hand over to each other: whatever [ping]
    answers mentions [pong], and back. The world is trivial. *)
Definition pingPong : Collaborators unit := {|
  agents := [("ping", Demo.agentOf "Ping"); ("pong", Demo.agentOf "Pong")];
  teams := [("duo", {| t_name := "Duo"; t_agents := ["ping"; "pong"];
                       t_leader_agent := "ping" |})];
  parseAgentRouting := fun msg =>
    {| rt_agentId := "ping"; rt_message := msg; rt_isTeam := true |};
  findTeamForAgent := fun id =>
    Some ("duo", {| t_name := "Duo"; t_agents := ["ping"; "pong"];
                    t_leader_agent := "ping" |});
  extractTeammateMentions := fun response current teamId =>
    [{| teammateId := if String.eqb current "ping" then "pong" else "ping";
        m_message := response |}];
  invokeAgent := fun w cfg id msg reset => (w, inl "over to you");
  existsSync := fun w p => false;
  toISOString := fun _ => "2026-02-17T10:00:00.000Z";
  FILES_DIR := "/srv/tinyclaw/files"
|}.

(** A message for the team of the two, waiting in [incoming]. *)
Definition duoMessage : State unit :=
  {| incoming := {[ "m.json" := MessageJson (Demo.messageOf "@duo go") ]};
     processing := ∅; outgoing := ∅; filesDir := ∅;
     resetFlag := false; agentResetFlags := ∅; chats := []; world := tt;
     now := 7%N; invocations := []; queuedFiles := {[ "m.json" ]} |}.

(** The code-unit order of strings, for [localeCompare]. *)
Definition byCodeUnits (a b : string) : comparison := String.compare a b.

(** A custom prompt without placeholders is used as it is. *)
Definition noPlaceholders (customPrompt partitionKey itemsText : string) (itemCount : nat)
    (userMessage : string) : string := customPrompt.

(** A shuffle result with the partitions [b] and [a] and one unkeyed item. *)
Definition twoPartitions : Shuffle.ShuffleResult :=
  {| Shuffle.partitions := {[ "b" := [Demo.itemText "b" 3];
                              "a" := [Demo.itemText "a" 1; Demo.itemText "a" 2] ]};
     Shuffle.unkeyed := ["{}"];
     Shuffle.totalItems := 4; Shuffle.duplicatedItems := 0 |}.

(** The settings of the other scenarios, with a worker that fails on every
    message that names the partition [b] and answers any other message. *)
Definition picky : Collaborators (gset string) := {|
  agents := [("default", Demo.agentOf "Default"); ("bob", Demo.agentOf "Bob")];
  teams := [];
  parseAgentRouting := Demo.route;
  findTeamForAgent := fun id => None;
  extractTeammateMentions := fun response current teamId => [];
  invokeAgent := fun w cfg id msg reset =>
    if Js.includes msg ("Partition " +:+ Js.dquote +:+ "b" +:+ Js.dquote)
    then (w, inr "boom")
    else (w, inl ("seen by " +:+ id));
  existsSync := fun w p => bool_decide (p ∈ w);
  toISOString := fun _ => "2026-02-17T10:00:00.000Z";
  FILES_DIR := "/srv/tinyclaw/files"
|}.

(** The reduction by [bob], one task at a time. *)
Definition bobReduces : Shuffle.ShuffleReduceOptions :=
  {| Shuffle.o_shuffle := Demo.pairsOnly; Shuffle.o_reduce_prompt := None;
     Shuffle.o_reduce_agent := Some "bob"; Shuffle.o_agent := Demo.agentOf "Default";
     Shuffle.o_agentId := "default"; Shuffle.o_userMessage := "find duplicates";
     Shuffle.o_concurrency := 1 |}.

End Cases.

(** ** [lib/invoke.ts]: the episodes section of the memory context *)
Module Episodes.
Import MapOutput.

(** [s.split(/\s+/)]: the pieces between the runs of white space, the empty
    pieces at either end included. [inRun] tells that the previous code
    unit was white space. *)
Fixpoint splitSpaces (inRun : bool) (s : string) : list string :=
  match s with
  | EmptyString => [EmptyString]
  | String c t =>
      if Js.isWhiteSpace c
      then if inRun then splitSpaces true t else EmptyString :: splitSpaces true t
      else match splitSpaces false t with
           | piece :: rest => String c piece :: rest
           | [] => [String c EmptyString]
           end
  end.

(** [text.toLowerCase().split(/\s+/).filter(w => w.length > 3)] *)
Definition longWords (text : string) : list string :=
  filter (fun w => 3 < String.length w) (splitSpaces false (toLowerCase text)).

Section WithParser.

(** [JSON.parse(text)]: [None] when it throws. *)
Variable JSON_parse : string -> option jsval.

(** [String(z)] for a number [z]. *)
Variable Number_toString : Z -> string.

(** [items.join(sep)] on an array value: [null] and [undefined] elements
    give the empty string; [None] when an element cannot be converted to a
    string. *)
Definition joinValues (sep : string) (items : list jsval) : option string :=
  Js.join sep <$> mapM (fun x => match x with
                                 | JUndefined | JNull => Some EmptyString
                                 | _ => toString Number_toString x
                                 end) items.

(** [(tags || []).join(sep)]; [None] is the [TypeError] of calling [join]
    on a truthy value that is no array, or of an element that cannot be
    converted. *)
Definition joinTags (sep : string) (tags : jsval) : option string :=
  if truthy tags
  then match tags with
       | JArr items => joinValues sep items
       | _ => None
       end
  else Some EmptyString.

(** Line 497: the text an episode is matched on; [None] when the
    expression throws. *)
Definition episodeText (ep : jsval) : option string :=
  summary ← prop ep "summary";
  shown ← (if truthy summary then toString Number_toString summary else Some EmptyString);
  tags ← prop ep "tags";
  joined ← joinTags " " tags;
  Some (toLowerCase (shown +:+ " " +:+ joined)).

(** Lines 495-505: the body of the scoring loop for one line; [None] when
    nothing is pushed. *)
Definition scoreLine (msgWords : list string) (line : string) : option (string * nat) :=
  match JSON_parse line with
  | Some ep =>
      match episodeText ep with
      | Some text =>
          let score := List.length (filter (fun w => Js.includes text w = true) msgWords) in
          if 0 <? score then Some (line, score) else None
      | None => None
      end
  | None => None
  end.

(** [scored.sort((a, b) => b.score - a.score)]: a stable sort, highest
    score first. *)
Fixpoint insertByScore (x : string * nat) (l : list (string * nat))
    : list (string * nat) :=
  match l with
  | [] => [x]
  | y :: rest => if snd y <? snd x then x :: l else y :: insertByScore x rest
  end.

Definition sortByScore (l : list (string * nat)) : list (string * nat) :=
  foldl (fun acc x => insertByScore x acc) [] l.

(** Lines 511-518: the callback of [topEpisodes.map]; [None] for the
    [null] of the [catch] branch. *)
Definition renderEpisode (line : string) : option string :=
  ep ← JSON_parse line;
  outcome ← prop ep "outcome";
  status ← (if truthy outcome then toString Number_toString outcome else Some "unknown");
  summary ← prop ep "summary" ≫= toString Number_toString;
  tags ← prop ep "tags";
  tagText ← (if truthy tags
             then match tags with
                  | JArr items => (fun joined => " (" +:+ joined +:+ ")")
                                    <$> joinValues ", " items
                  | _ => None
                  end
             else Some EmptyString);
  Some ("- [" +:+ status +:+ "] " +:+ summary +:+ tagText).

(** The episodes the section shows, best first. *)
Definition topEpisodes (content userMessage : string) : list (string * nat) :=
  take 3 (sortByScore (omap (scoreLine (longWords userMessage))
                         (Invoke.nonBlankLines content))).

(** Lines 485-523: the section pushed for [episodes.jsonl]; [None] for
    [file] is a missing file. *)
Definition episodesSection (file : option string) (userMessage : string) : option string :=
  match file with
  | None => None
  | Some raw =>
      let content := Js.trim raw in
      if Js.nonEmpty content
      then
        let top := topEpisodes content userMessage in
        if 0 <? List.length top
        then
          let formatted :=
            Js.join Js.newline (filter (fun x => Js.nonEmpty x = true)
                                  (omap (fun entry => renderEpisode (fst entry)) top)) in
          if Js.nonEmpty formatted
          then Some ("## Relevant Past Conversations" +:+ Js.newline +:+ formatted)
          else None
        else None
      else None
  end.

End WithParser.

End Episodes.

(** * Theorems *)

(** ** Strings *)
Module JsFacts.

Lemma app_cons c (a b : string) : String c a +:+ b = String c (a +:+ b).
Proof. reflexivity. Qed.

Lemma app_nil_r (s : string) : s +:+ EmptyString = s.
Proof. induction s as [|c s IH]; [reflexivity|]. rewrite app_cons, IH. reflexivity. Qed.

Lemma length_app (a b : string) :
  String.length (a +:+ b) = String.length a + String.length b.
Proof.
  induction a as [|c a IH]; [reflexivity|]. rewrite app_cons. cbn. rewrite IH. reflexivity.
Qed.

Lemma length_take n (s : string) : String.length (Js.take n s) = Nat.min n (String.length s).
Proof.
  revert s. induction n as [|n IH]; intros [|c s]; cbn; try reflexivity.
  rewrite IH. reflexivity.
Qed.

Example trim_example : Js.trim "  a b  " = "a b".
Proof. reflexivity. Qed.

Example splitLines_example :
  Js.splitLines ("a" +:+ Js.newline +:+ "b" +:+ Js.newline) = ["a"; "b"; ""].
Proof. reflexivity. Qed.

Example ofNat_example : Js.ofNat 12 = "12".
Proof. reflexivity. Qed.

Example endsWith_example :
  Js.endsWith "x.json" ".json" = true /\ Js.endsWith "json" ".json" = false.
Proof. split; reflexivity. Qed.

End JsFacts.

(** ** Send-file markers *)
Module MarkerFacts.
Import Marker.

(** The search functions unfold as their defining equations read. *)
Lemma scanMarkers_unfold s :
  scanMarkers s =
    match matchMarker s with
    | Some (body, rest) => capture body :: scanMarkers rest
    | None => match s with
              | EmptyString => []
              | String _ t => scanMarkers t
              end
    end.
Proof.
  rewrite scanMarkers_equation_1.
  generalize (inspect (matchMarker s)).
  intros [[[body rest]|] e]; [cbn; rewrite e; reflexivity|].
  transitivity (match s with EmptyString => [] | String _ t => scanMarkers t end);
    [destruct s; reflexivity|rewrite e; reflexivity].
Qed.

Lemma replaceMarkers_unfold s :
  replaceMarkers s =
    match matchMarker s with
    | Some (body, rest) => replaceMarkers rest
    | None => match s with
              | EmptyString => EmptyString
              | String c t => String c (replaceMarkers t)
              end
    end.
Proof.
  rewrite replaceMarkers_equation_1.
  generalize (inspect (matchMarker s)).
  intros [[[body rest]|] e]; [cbn; rewrite e; reflexivity|].
  transitivity (match s with
                | EmptyString => EmptyString
                | String c t => String c (replaceMarkers t)
                end);
    [destruct s; reflexivity|rewrite e; reflexivity].
Qed.

Lemma bracketsOnlyInMarkers_unfold s :
  bracketsOnlyInMarkers s =
    match matchMarker s with
    | Some (body, rest) => bracketsOnlyInMarkers rest
    | None => match s with
              | EmptyString => true
              | String c t => negb (Ascii.eqb c "["%char) && bracketsOnlyInMarkers t
              end
    end.
Proof.
  rewrite bracketsOnlyInMarkers_equation_1.
  generalize (inspect (matchMarker s)).
  intros [[[body rest]|] e]; [cbn; rewrite e; reflexivity|].
  transitivity (match s with
                | EmptyString => true
                | String c t => negb (Ascii.eqb c "["%char) && bracketsOnlyInMarkers t
                end);
    [destruct s; reflexivity|rewrite e; reflexivity].
Qed.

Lemma matchMarker_shorter s body rest :
  matchMarker s = Some (body, rest) → String.length rest < String.length s.
Proof. intros H. marker_decreases. Qed.

(** A match starts with an opening bracket. *)
Lemma matchMarker_no_bracket c t :
  Ascii.eqb c "["%char = false → matchMarker (String c t) = None.
Proof.
  intros Hc. unfold matchMarker, markerPrefix. cbn [Js.stripPrefix].
  rewrite Ascii.eqb_sym, Hc. reflexivity.
Qed.

Lemma scanMarkers_skip a b :
  hasOpenBracket a = false → scanMarkers (a +:+ b) = scanMarkers b.
Proof.
  induction a as [|c a IH]; cbn; [reflexivity|].
  intros H. apply orb_false_elim in H. destruct H as [Hc Ha].
  rewrite JsFacts.app_cons, scanMarkers_unfold, (matchMarker_no_bracket _ _ Hc). auto.
Qed.

Lemma containsMarker_no_bracket s : hasOpenBracket s = false → containsMarker s = false.
Proof.
  intros H. unfold containsMarker.
  rewrite <- (JsFacts.app_nil_r s), (scanMarkers_skip _ _ H). reflexivity.
Qed.

Lemma replaceMarkers_no_bracket s :
  bracketsOnlyInMarkers s = true → hasOpenBracket (replaceMarkers s) = false.
Proof.
  remember (String.length s) as n eqn:Hn. revert s Hn.
  induction n as [n IH] using lt_wf_ind. intros s -> H.
  rewrite bracketsOnlyInMarkers_unfold in H. rewrite replaceMarkers_unfold.
  destruct (matchMarker s) as [[body rest]|] eqn:E.
  - eapply IH; [eapply matchMarker_shorter; exact E|reflexivity|exact H].
  - destruct s as [|c t]; [reflexivity|].
    apply andb_true_iff in H. destruct H as [Hc Ht]. cbn.
    apply negb_true_iff in Hc. rewrite Hc. cbn.
    eapply IH; [|reflexivity|exact Ht]. cbn. lia.
Qed.

Lemma hasOpenBracket_trimStart s :
  hasOpenBracket s = false → hasOpenBracket (Js.trimStart s) = false.
Proof.
  induction s as [|c t IH]; cbn; [reflexivity|]. intros H.
  destruct (Js.isWhiteSpace c); [|exact H].
  apply orb_false_elim in H. tauto.
Qed.

Lemma hasOpenBracket_trimEnd s :
  hasOpenBracket s = false → hasOpenBracket (Js.trimEnd s) = false.
Proof.
  induction s as [|c t IH]; cbn; [reflexivity|]. intros H.
  apply orb_false_elim in H. destruct H as [Hc Ht]. specialize (IH Ht).
  destruct (Js.trimEnd t).
  - destruct (Js.isWhiteSpace c); cbn; [reflexivity|]. rewrite Hc. reflexivity.
  - cbn in *. rewrite Hc. exact IH.
Qed.

Lemma hasOpenBracket_trim s : hasOpenBracket s = false → hasOpenBracket (Js.trim s) = false.
Proof. intros H. apply hasOpenBracket_trimEnd, hasOpenBracket_trimStart, H. Qed.

Lemma hasOpenBracket_take n s :
  hasOpenBracket s = false → hasOpenBracket (Js.take n s) = false.
Proof.
  revert s. induction n as [|n IH]; intros [|c t]; cbn; try reflexivity.
  intros H. apply orb_false_elim in H. destruct H as [-> Ht]. cbn. auto.
Qed.

(** Truncation adds no marker to a text without opening brackets. *)
Lemma containsMarker_truncate s :
  hasOpenBracket s = false → containsMarker (truncateResponse s) = false.
Proof.
  intros H. unfold truncateResponse. destruct (4000 <? String.length s).
  - unfold containsMarker. rewrite scanMarkers_skip by (apply hasOpenBracket_take, H).
    vm_compute. reflexivity.
  - apply containsMarker_no_bracket, H.
Qed.

Example finishResponse_attaches :
  finishResponse (fun p => String.eqb p "/tmp/a") [] "see [send_file:  /tmp/a ] ok "
  = ("see  ok", ["/tmp/a"]).
Proof. vm_compute. reflexivity. Qed.

Example finishResponse_keeps_marker :
  finishResponse (fun p => false) [] "see [send_file: /nope]"
  = ("see [send_file: /nope]", []).
Proof. vm_compute. reflexivity. Qed.

Example finishResponse_splices :
  finishResponse (fun p => true) [] "[send_[send_file: /a]file: /b]"
  = ("[send_file: /b]", ["/a"]).
Proof. vm_compute. reflexivity. Qed.

End MarkerFacts.

(** ** The file queue: recovery, rollback and tracking *)
Module QueueFacts.
Import Dispatcher.

Section WithCollaborators.
Context {W : Type} `{C : Collaborators W}.

Lemma elem_of_cons_ne (f a : string) (l : list string) :
  f ≠ a → f ∈ a :: l ↔ f ∈ l.
Proof.
  intros Hne. rewrite elem_of_cons. split; [intros [Heq|Hin]|intros Hin].
  - contradiction.
  - exact Hin.
  - right; exact Hin.
Qed.

Lemma recoverLoop_spec (names : list string) (st : State W) :
  ∃ st', recoverLoop names st = (st', Ok tt)
    ∧ (∀ f, processing st' !! f = if bool_decide (f ∈ names) then None else processing st !! f)
    ∧ (∀ f, incoming st' !! f =
            match (if bool_decide (f ∈ names) then processing st !! f else None) with
            | Some c => Some c
            | None => incoming st !! f
            end)
    ∧ outgoing st' = outgoing st
    ∧ queuedFiles st' = queuedFiles st.
Proof.
  revert st. induction names as [|a l IH]; intros st.
  - exists st. repeat split; intros; reflexivity.
  - cbn [recoverLoop]. unfold bind at 1, tryCatch, renameToIncoming.
    destruct (processing st !! a) as [c|] eqn:Ha.
    + destruct (IH (setIncoming (setProcessing st (delete a (processing st)))
                      (<[a := c]> (incoming st)))) as (st' & Hrun & Hp & Hi & Ho & Hq).
      exists st'. rewrite Hrun.
      split; [reflexivity|]. cbn in Hp, Hi, Ho, Hq.
      split; [|split; [|split; assumption]].
      * intros f. rewrite Hp. destruct (decide (f = a)) as [->|Hne].
        -- rewrite lookup_delete_eq. rewrite (bool_decide_eq_true_2 (a ∈ a :: l)) by (apply list_elem_of_here).
           destruct (bool_decide (a ∈ l)); reflexivity.
        -- rewrite lookup_delete_ne by congruence.
           rewrite (bool_decide_ext (f ∈ a :: l) (f ∈ l)) by (apply elem_of_cons_ne; exact Hne). reflexivity.
      * intros f. rewrite Hi. destruct (decide (f = a)) as [->|Hne].
        -- rewrite lookup_delete_eq, lookup_insert_eq, Ha.
           rewrite (bool_decide_eq_true_2 (a ∈ a :: l)) by (apply list_elem_of_here).
           destruct (bool_decide (a ∈ l)); reflexivity.
        -- rewrite lookup_delete_ne, lookup_insert_ne by congruence.
           rewrite (bool_decide_ext (f ∈ a :: l) (f ∈ l)) by (apply elem_of_cons_ne; exact Hne). reflexivity.
    + cbn. destruct (IH st) as (st' & Hrun & Hp & Hi & Ho & Hq).
      exists st'. rewrite Hrun.
      split; [reflexivity|]. split; [|split; [|split; assumption]].
      * intros f. rewrite Hp. destruct (decide (f = a)) as [->|Hne].
        -- rewrite (bool_decide_eq_true_2 (a ∈ a :: l)) by (apply list_elem_of_here).
           rewrite Ha. destruct (bool_decide (a ∈ l)); reflexivity.
        -- rewrite (bool_decide_ext (f ∈ a :: l) (f ∈ l)) by (apply elem_of_cons_ne; exact Hne). reflexivity.
      * intros f. rewrite Hi. destruct (decide (f = a)) as [->|Hne].
        -- rewrite (bool_decide_eq_true_2 (a ∈ a :: l)) by (apply list_elem_of_here).
           rewrite Ha. destruct (bool_decide (a ∈ l)); reflexivity.
        -- rewrite (bool_decide_ext (f ∈ a :: l) (f ∈ l)) by (apply elem_of_cons_ne; exact Hne). reflexivity.
Qed.

Lemma elem_of_readdir {T} (dir : gmap string T) (f : string) :
  f ∈ readdir dir ↔ is_Some (dir !! f).
Proof.
  unfold readdir. rewrite list_elem_of_fmap. split.
  - intros ([k v] & -> & Hin). apply elem_of_map_to_list in Hin. eauto.
  - intros [v Hv]. exists (f, v). split; [reflexivity|]. by apply elem_of_map_to_list.
Qed.

(** C2. Startup recovery: [startup], which runs before the polling timer is
    armed, always completes, and in the state it hands to the first tick no
    [*.json] file is left in the processing directory: each one that was
    stranded there is in the incoming directory with its content.  Files of
    the processing directory with another extension stay where they are. *)
Theorem C2_startup_recovers_stranded_json (st : State W) :
  ∃ st', startup st = (st', Ok tt)
    ∧ (∀ f, isJson f = true → processing st' !! f = None)
    ∧ (∀ f c, isJson f = true → processing st !! f = Some c → incoming st' !! f = Some c)
    ∧ (∀ f, isJson f = false → processing st' !! f = processing st !! f).
Proof.
  unfold startup, recoverOrphanedFiles, bind, get.
  set (names := filter (λ f, isJson f = true) (readdir (processing st))).
  destruct (recoverLoop_spec names st) as (st' & Hrun & Hp & Hi & _).
  exists st'. split; [exact Hrun|].
  assert (Hin : ∀ f, f ∈ names ↔ isJson f = true ∧ is_Some (processing st !! f)).
  { intros f. unfold names. rewrite list_elem_of_filter, elem_of_readdir. tauto. }
  split; [|split].
  - intros f Hj. rewrite Hp. case_bool_decide as Hf; [reflexivity|].
    destruct (processing st !! f) eqn:E; [|reflexivity].
    exfalso. apply Hf, Hin. eauto.
  - intros f c Hj Hc. rewrite Hi. rewrite bool_decide_eq_true_2.
    + rewrite Hc. reflexivity.
    + apply Hin. eauto.
  - intros f Hj. rewrite Hp. rewrite bool_decide_eq_false_2; [reflexivity|].
    intros Hf. apply Hin in Hf. destruct Hf as [Hf _]. congruence.
Qed.


(** *** Computations that leave the queue alone and never throw *)

Lemma quiet_ret {A} (a : A) : quiet W (ret a).
Proof. intros st st' o [= <- <-]. split; [reflexivity|discriminate]. Qed.

Lemma quiet_diverge {A} : quiet W (@diverge W A).
Proof. intros st st' o [= <- <-]. split; [reflexivity|discriminate]. Qed.

Lemma quiet_bind {A B} (m : Fs.M W A) (k : A → Fs.M W B) :
  quiet W m → (∀ a, quiet W (k a)) → quiet W (bind m k).
Proof.
  intros Hm Hk st st' o. unfold bind.
  destruct (m st) as [s1 [a|e|]] eqn:E; destruct (Hm _ _ _ E) as [Hq Hne].
  - intros Hr. destruct (Hk a _ _ _ Hr) as [Hq' Hne']. split; [congruence|assumption].
  - exfalso. exact (Hne e eq_refl).
  - intros [= <- <-]. split; [assumption|discriminate].
Qed.

Lemma quiet_get : quiet W get.
Proof. intros st st' o [= <- <-]. split; [reflexivity|discriminate]. Qed.

Lemma quiet_modify (g : State W → State W) :
  (∀ st, queueOf (g st) = queueOf st) → quiet W (modify g).
Proof. intros Hg st st' o [= <- <-]. split; [apply Hg|discriminate]. Qed.

Lemma quiet_callAgent_caught cfg id msg reset (fallback : string) :
  quiet W (tryCatch (callAgent cfg id msg reset) (fun _ => ret fallback)).
Proof.
  intros st st' o. unfold tryCatch, callAgent.
  destruct (invokeAgent (world st) cfg id msg reset) as [w [text|err]];
    intros [= <- <-]; (split; [reflexivity|discriminate]).
Qed.

Lemma quiet_hasAgentResetFlag id : quiet W (hasAgentResetFlag id).
Proof. apply quiet_bind; [apply quiet_get|intros; apply quiet_ret]. Qed.

Lemma quiet_unlinkAgentResetFlag id : quiet W (unlinkAgentResetFlag id).
Proof. apply quiet_modify. reflexivity. Qed.

Lemma quiet_collectStepFiles text acc : quiet W (collectStepFiles text acc).
Proof. apply quiet_bind; [apply quiet_get|intros; apply quiet_ret]. Qed.

Lemma quiet_if {A} (b : bool) (m1 m2 : Fs.M W A) :
  quiet W m1 → quiet W m2 → quiet W (if b then m1 else m2).
Proof. destruct b; auto. Qed.

#[local] Hint Resolve quiet_ret quiet_diverge quiet_get quiet_callAgent_caught
  quiet_hasAgentResetFlag quiet_unlinkAgentResetFlag quiet_collectStepFiles : quiet.

Ltac quiet_step :=
  first [ apply quiet_bind; [|intros]
        | apply quiet_if
        | solve [auto with quiet] ].

Lemma quiet_fanOutOne cur mention : quiet W (fanOutOne cur mention).
Proof.
  unfold fanOutOne. destruct (lookupTable agents (teammateId mention)); repeat quiet_step.
Qed.

Lemma quiet_mapM {A B} (g : A → Fs.M W B) (l : list A) :
  (∀ a, quiet W (g a)) → quiet W (mapM g l).
Proof. intros Hg. induction l; cbn [mapM]; repeat quiet_step. Qed.

Lemma quiet_pushFanOut results steps acc : quiet W (pushFanOut results steps acc).
Proof.
  revert steps acc. induction results as [|r rest IH]; intros; cbn [pushFanOut];
    repeat quiet_step.
Qed.

Lemma quiet_chainLoop fuel teamId shouldReset steps cur msg acc :
  quiet W (chainLoop fuel teamId shouldReset steps cur msg acc).
Proof.
  revert steps cur msg acc. induction fuel as [|fuel IH]; intros; cbn [chainLoop].
  - apply quiet_diverge.
  - destruct (lookupTable agents cur); [|apply quiet_ret].
    repeat quiet_step.
    destruct (extractTeammateMentions _ _ _) as [|m1 [|m2 ms]].
    + apply quiet_ret.
    + apply IH.
    + apply quiet_bind; [apply quiet_mapM; intros; apply quiet_fanOutOne|].
      intros. apply quiet_pushFanOut.
Qed.

Lemma quiet_saveChatHistory teamId team m steps : quiet W (saveChatHistory teamId team m steps).
Proof. apply quiet_modify. reflexivity. Qed.

Lemma quiet_consumeResetFlags id : quiet W (consumeResetFlags id).
Proof.
  unfold consumeResetFlags. apply quiet_bind; [apply quiet_get|intros st0].
  apply quiet_bind; [|intros; apply quiet_ret].
  apply quiet_if; [apply quiet_modify; reflexivity|apply quiet_ret].
Qed.

Lemma quiet_runExecutor fuel m id msg cfg ctx reset :
  quiet W (runExecutor fuel m id msg cfg ctx reset).
Proof.
  unfold runExecutor. destruct ctx as [[teamId team]|].
  - apply quiet_bind; [apply quiet_chainLoop|]. intros [steps acc].
    apply quiet_bind; [apply quiet_saveChatHistory|]. intros. apply quiet_ret.
  - repeat quiet_step.
Qed.

(** *** The [try] block of [processMessage] *)

Lemma resolveAgent_pure r m (st st' : State W) o :
  resolveAgent r m st = (st', o) → st' = st ∧ o ≠ Diverge.
Proof.
  unfold resolveAgent.
  destruct (lookupTable agents (rt_agentId r)); cbn;
    repeat match goal with
           | |- context [match ?x with _ => _ end] => destruct x; cbn
           end;
    intros [= <- <-]; (split; [reflexivity|discriminate]).
Qed.

(** What [deliver] does to a state whose processing directory holds [f]. *)
Lemma deliver_spec f m id finalResponse allFiles (st : State W) :
  is_Some (processing st !! f) →
  deliver f m id finalResponse allFiles st =
    (let fin := Marker.finishResponse (existsSync (world st)) allFiles finalResponse in
     setProcessing
       (setOutgoing st
          (<[responseFileName m (now st) :=
               {| r_channel := channel m; r_sender := sender m; r_message := fin.1;
                  r_originalMessage := message m; r_timestamp := now st;
                  r_messageId := messageId m; r_agent := Some id;
                  r_files := match fin.2 with [] => None | _ => Some fin.2 end |}]>
             (outgoing st)))
       (delete f (processing st)), Ok tt).
Proof.
  intros [c Hc]. unfold deliver, bind at 1, get.
  destruct (Marker.finishResponse _ _ _) as [text outboundFiles].
  unfold bind, writeOutgoing, modify, unlinkProcessing. cbn. rewrite Hc. reflexivity.
Qed.

Lemma sendEasterEgg_spec f m text (st : State W) :
  is_Some (processing st !! f) →
  sendEasterEgg f m text st =
    (setProcessing
       (setOutgoing st
          (<[f := {| r_channel := channel m; r_sender := sender m; r_message := text;
                     r_originalMessage := message m; r_timestamp := now st;
                     r_messageId := messageId m; r_agent := None; r_files := None |}]>
             (outgoing st)))
       (delete f (processing st)), Ok tt).
Proof.
  intros [c Hc]. unfold sendEasterEgg, bind, get, writeOutgoing, modify, unlinkProcessing.
  cbn. rewrite Hc. reflexivity.
Qed.

(** Past the easter egg, the rest of the [try] block throws only where
    [resolveAgent] does, before anything is written. *)
Lemma agentPath_throws fuel f m routing (st st1 : State W) e :
  is_Some (processing st !! f) →
  bind (resolveAgent routing m) (fun '(agentId, msg, cfg) =>
    bind (consumeResetFlags agentId) (fun shouldReset =>
    bind (runExecutor fuel m agentId msg cfg
            (teamContextFor (rt_isTeam routing) agentId) shouldReset)
         (fun '(finalResponse, allFiles) =>
            deliver f m agentId finalResponse allFiles))) st = (st1, Throw e) →
  st1 = st.
Proof.
  intros Hf. unfold bind at 1.
  destruct (resolveAgent routing m st) as [s2 [[[id msg] cfg]|e'|]] eqn:ER;
    destruct (resolveAgent_pure _ _ _ _ _ ER) as [-> Hnd].
  - unfold bind at 1.
    destruct (consumeResetFlags id st) as [s3 [reset|e3|]] eqn:E3;
      destruct (quiet_consumeResetFlags id _ _ _ E3) as [Hq3 Hn3];
      [|exfalso; exact (Hn3 _ eq_refl)|discriminate].
    unfold bind at 1.
    destruct (runExecutor fuel m id msg cfg _ reset s3) as [s4 [[resp acc]|e4|]] eqn:E4;
      destruct (quiet_runExecutor _ _ _ _ _ _ _ _ _ _ E4) as [Hq4 Hn4];
      [|exfalso; exact (Hn4 _ eq_refl)|discriminate].
    rewrite deliver_spec; [discriminate|].
    assert (processing s4 = processing st) as -> by (unfold queueOf in *; congruence).
    exact Hf.
  - intros [= <- _]. reflexivity.
  - congruence.
Qed.

Lemma processBody_throws fuel f c (st st1 : State W) e :
  incoming st !! f = Some c →
  processBody fuel f st = (st1, Throw e) →
  st1 = setProcessing (setIncoming st (delete f (incoming st))) (<[f := c]> (processing st)).
Proof.
  intros Hin. unfold processBody, bind at 1, renameToProcessing. rewrite Hin.
  set (s1 := setProcessing _ _).
  assert (Hs1 : processing s1 !! f = Some c) by (subst s1; cbn; apply lookup_insert_eq).
  unfold bind at 1, readMessage. rewrite Hs1. destruct c as [raw|m].
  - intros [= <- _]. reflexivity.
  - destruct (String.eqb (rt_agentId (routeMessage m)) "error").
    + rewrite sendEasterEgg_spec by eauto. discriminate.
    + intros Hr. eapply agentPath_throws in Hr; [exact Hr|eauto].
Qed.

Lemma lookupTable_head {T} (k : string) (v : T) rest :
  lookupTable ((k, v) :: rest) k = Some v.
Proof. cbn. rewrite String.eqb_refl. reflexivity. Qed.

(** [resolveAgent] throws exactly when no agent is configured. *)
Lemma resolveAgent_throws_iff r m (st : State W) :
  (∃ e, (resolveAgent r m st).2 = Throw e) ↔ agents = [].
Proof.
  unfold resolveAgent. split.
  - intros [e He]. destruct agents as [|[k v] rest] eqn:Ha; [reflexivity|]. exfalso.
    destruct (lookupTable ((k, v) :: rest) (rt_agentId r)) as [c1|] eqn:E1;
      [|destruct (lookupTable ((k, v) :: rest) "default") as [c2|] eqn:E2];
      repeat first [ rewrite E1 in He | rewrite E2 in He
                   | rewrite lookupTable_head in He
                   | progress cbn iota beta zeta in He
                   | progress cbn [map head fst] in He ];
      discriminate.
  - intros ->. cbn. eauto.
Qed.

(** The [try] block throws on a file of the incoming directory exactly when
    the file is no JSON, or its message is not routed to the easter egg and
    no agent is configured. *)
Lemma processBody_throws_iff fuel f c (st : State W) :
  incoming st !! f = Some c →
  (∃ st1 e, processBody fuel f st = (st1, Throw e))
  ↔ (∃ raw, c = Malformed raw)
    ∨ (∃ m, c = MessageJson m ∧ rt_agentId (routeMessage m) ≠ "error" ∧ agents = []).
Proof.
  intros Hin. unfold processBody, bind at 1, renameToProcessing. rewrite Hin.
  set (s1 := setProcessing _ _).
  assert (Hs1 : processing s1 !! f = Some c) by (subst s1; cbn; apply lookup_insert_eq).
  unfold bind at 1, readMessage. rewrite Hs1. destruct c as [raw|m].
  - split; [eauto|]. intros _. eauto.
  - destruct (String.eqb (rt_agentId (routeMessage m)) "error") eqn:Herr.
    + rewrite sendEasterEgg_spec by eauto. apply String.eqb_eq in Herr. split.
      * intros (st1 & e & H). discriminate.
      * intros [[raw H]|(m' & [= <-] & Hne & _)]; [discriminate|contradiction].
    + apply String.eqb_neq in Herr. split.
      * intros (st1 & e & H). right. exists m. split; [reflexivity|]. split; [exact Herr|].
        apply (resolveAgent_throws_iff (routeMessage m) m s1).
        pose proof (agentPath_throws _ _ _ _ _ _ _ ltac:(eauto) H) as ->.
        revert H. unfold bind at 1.
        destruct (resolveAgent (routeMessage m) m s1) as [s2 [[[id msg] cfg]|e'|]] eqn:ER;
          destruct (resolveAgent_pure _ _ _ _ _ ER) as [-> Hnd]; cbn.
        -- intros H. exfalso. revert H. unfold bind at 1.
           destruct (consumeResetFlags id s1) as [s3 [reset|e3|]] eqn:E3;
             destruct (quiet_consumeResetFlags id _ _ _ E3) as [Hq3 Hn3];
             [|exfalso; exact (Hn3 _ eq_refl)|discriminate].
           unfold bind at 1.
           destruct (runExecutor fuel m id msg cfg _ reset s3) as [s4 [[resp acc]|e4|]] eqn:E4;
             destruct (quiet_runExecutor _ _ _ _ _ _ _ _ _ _ E4) as [Hq4 Hn4];
             [|exfalso; exact (Hn4 _ eq_refl)|discriminate].
           rewrite deliver_spec; [discriminate|].
           assert (processing s4 = processing s1) as -> by (unfold queueOf in *; congruence).
           eauto.
        -- eauto.
        -- congruence.
      * intros [[raw H]|(m' & [= <-] & _ & Hnil)]; [discriminate|].
        apply (resolveAgent_throws_iff (routeMessage m) m s1) in Hnil.
        destruct Hnil as [e He]. unfold bind at 1.
        destruct (resolveAgent (routeMessage m) m s1) as [s2 o]. cbn in He. subst o. eauto.
Qed.
Lemma moveBack_spec f c (st : State W) :
  processing st !! f = Some c →
  moveBack f st =
    (setIncoming (setProcessing st (delete f (processing st))) (<[f := c]> (incoming st)), Ok tt).
Proof.
  intros Hc. unfold moveBack, bind, get. rewrite bool_decide_eq_true_2 by eauto.
  unfold tryCatch, renameToIncoming. rewrite Hc. reflexivity.
Qed.

Lemma moveBack_never_throws f (st st' : State W) o :
  moveBack f st = (st', o) → o = Ok tt ∧ queuedFiles st' = queuedFiles st.
Proof.
  unfold moveBack, bind, get. case_bool_decide as Hd.
  - destruct Hd as [c Hc]. unfold tryCatch, renameToIncoming. rewrite Hc.
    intros [= <- <-]. split; reflexivity.
  - intros [= <- <-]. split; reflexivity.
Qed.

Lemma processMessage_never_throws fuel f (st st' : State W) o :
  processMessage fuel f st = (st', o) → ∀ e, o ≠ Throw e.
Proof.
  unfold processMessage, tryCatch.
  destruct (processBody fuel f st) as [s1 [[]|e1|]] eqn:E.
  - intros [= <- <-]. discriminate.
  - intros Hm. apply moveBack_never_throws in Hm. destruct Hm as [-> _]. discriminate.
  - intros [= <- <-]. discriminate.
Qed.

(** The tracking entry of [f] is gone whenever the chain link settles. *)
Lemma runTask_untracks fuel prev f (st st' : State W) p :
  runTask fuel prev f st = (st', Some p) → (f ∉ queuedFiles st') ∧ p = Fulfilled.
Proof.
  unfold runTask, andThen.
  destruct (thenDo prev (processMessage fuel f) st) as [s1 [p1|]] eqn:E1; [|discriminate].
  assert (Hcatch : ∃ s2, catchDo p1 (fun _ => ret tt) s1 = (s2, Some Fulfilled)).
  { destruct p1; cbn; eauto. }
  destruct Hcatch as [s2 ->].
  unfold finallyDo, settle, modify. intros [= <- <-].
  split; [|reflexivity]. cbn. rewrite elem_of_difference, elem_of_singleton. tauto.
Qed.

(** C3. Rollback and tracking. For a file [f] of the incoming directory:
    when the [try] block of [processMessage] throws, [processMessage] still
    returns, the file is back in the incoming directory with its content
    (the directory is as before the attempt), it is not in the processing
    directory, and the outgoing directory is unchanged; and however the
    chain link of [f] settles, after a fulfilled or a rejected predecessor,
    [f] is no longer tracked. In the error case the link does settle. *)
Theorem C3_rollback_and_untrack fuel f c (st : State W) :
  incoming st !! f = Some c →
  (∀ st1 e, processBody fuel f st = (st1, Throw e) →
     ∃ st', processMessage fuel f st = (st', Ok tt)
       ∧ incoming st' = incoming st
       ∧ processing st' !! f = None
       ∧ outgoing st' = outgoing st
       ∧ ∃ st'', runTask fuel Fulfilled f st = (st'', Some Fulfilled))
  ∧ (∀ prev st' p, runTask fuel prev f st = (st', Some p) → f ∉ queuedFiles st').
Proof.
  intros Hin. split.
  - intros st1 e Hthrow.
    pose proof (processBody_throws _ _ _ _ _ _ Hin Hthrow) as ->.
    unfold processMessage, tryCatch. rewrite Hthrow.
    rewrite (moveBack_spec f c) by (cbn; apply lookup_insert_eq).
    eexists. split; [reflexivity|]. cbn.
    split; [|split; [|split]].
    + rewrite insert_delete_eq. apply insert_id. exact Hin.
    + apply lookup_delete_eq.
    + reflexivity.
    + unfold runTask, andThen, thenDo, settle, processMessage, tryCatch. rewrite Hthrow.
      rewrite (moveBack_spec f c) by (cbn; apply lookup_insert_eq).
      cbn. eexists. reflexivity.
  - intros prev st' p Hrun. apply runTask_untracks in Hrun. tauto.
Qed.

(** C10. The easter egg. For a message file whose routing resolves to the
    sentinel [error], [processMessage] completes for any fuel; it writes
    exactly one file to the outgoing directory, under the base name [f] of
    the incoming file, holding the routed text, the raw message, the
    message's own [messageId] and neither [agent] nor [files]; it removes
    [f] from the incoming and the processing directory; and it calls no
    agent (the call trace and the world are as before). *)
Theorem C10_easter_egg_response fuel f m (st : State W) :
  incoming st !! f = Some (MessageJson m) →
  rt_agentId (routeMessage m) = "error" →
  ∃ st', processMessage fuel f st = (st', Ok tt)
    ∧ outgoing st' =
        <[f := {| r_channel := channel m; r_sender := sender m;
                  r_message := rt_message (routeMessage m);
                  r_originalMessage := message m; r_timestamp := now st;
                  r_messageId := messageId m; r_agent := None; r_files := None |}]>
          (outgoing st)
    ∧ incoming st' !! f = None
    ∧ processing st' !! f = None
    ∧ invocations st' = invocations st
    ∧ world st' = world st.
Proof.
  intros Hin Herr.
  unfold processMessage, tryCatch, processBody.
  unfold bind at 1, renameToProcessing. rewrite Hin.
  set (s1 := setProcessing _ _).
  assert (Hs1 : processing s1 !! f = Some (MessageJson m))
    by (subst s1; cbn; apply lookup_insert_eq).
  unfold bind at 1, readMessage. rewrite Hs1, Herr, String.eqb_refl.
  rewrite sendEasterEgg_spec by eauto.
  eexists. split; [reflexivity|]. subst s1. cbn.
  repeat split; try reflexivity; apply lookup_delete_eq.
Qed.

(** *** The response file of the agent path *)

Lemma setAdd_self x l : x ∈ Marker.setAdd x l.
Proof.
  unfold Marker.setAdd. case_bool_decide as H; [exact H|].
  apply elem_of_app. right. apply list_elem_of_here.
Qed.

Lemma setAdd_keeps x y l : y ∈ l → y ∈ Marker.setAdd x l.
Proof.
  intros Hy. unfold Marker.setAdd. case_bool_decide; [exact Hy|].
  apply elem_of_app. left. exact Hy.
Qed.

Lemma collectLoop_keeps (ex : string → bool) gs acc p :
  p ∈ acc →
  p ∈ foldl (fun acc g => if ex (Js.trim g) then Marker.setAdd (Js.trim g) acc else acc)
        acc gs.
Proof.
  revert acc. induction gs as [|g gs IH]; intros acc Hp; cbn; [exact Hp|].
  apply IH. destruct (ex (Js.trim g)); [apply setAdd_keeps|]; exact Hp.
Qed.

Lemma collectFiles_keeps ex text acc p : p ∈ acc → p ∈ Marker.collectFiles ex text acc.
Proof. apply collectLoop_keeps. Qed.

Lemma collectFiles_existing ex text acc g :
  g ∈ Marker.scanMarkers text → ex (Js.trim g) = true →
  Js.trim g ∈ Marker.collectFiles ex text acc.
Proof.
  unfold Marker.collectFiles. generalize (Marker.scanMarkers text) as gs.
  intros gs. revert acc. induction gs as [|h gs IH]; intros acc Hin Hex.
  - inversion Hin.
  - cbn. apply elem_of_cons in Hin. destruct Hin as [->|Hin].
    + rewrite Hex. apply collectLoop_keeps, setAdd_self.
    + apply IH; assumption.
Qed.

(** Markers in the response of the agent path. [deliver] completes and
    writes one response file. Every marker that the search finds in the
    trimmed response and whose trimmed path exists is in the response's
    [files], as are the files collected from the chain steps. With at least
    one file attached, the message is the trimmed response with the markers
    found by one left-to-right search deleted, trimmed and truncated; if
    moreover the text outside those markers holds no opening bracket, the
    message contains no marker. With no file attached, the deletion of line
    346 is not reached: the message is the trimmed response, truncated,
    markers included. *)
Lemma deliver_collects_and_strips f m id finalResponse allFiles (st : State W) :
  is_Some (processing st !! f) →
  ∃ st' r, deliver f m id finalResponse allFiles st = (st', Ok tt)
    ∧ outgoing st' = <[responseFileName m (now st) := r]> (outgoing st)
    ∧ (∀ g, g ∈ Marker.scanMarkers (Js.trim finalResponse) →
            existsSync (world st) (Js.trim g) = true →
            Js.trim g ∈ default [] (r_files r))
    ∧ (∀ p, p ∈ allFiles → p ∈ default [] (r_files r))
    ∧ (r_files r ≠ None →
         r_message r =
           Marker.truncateResponse (Js.trim (Marker.replaceMarkers (Js.trim finalResponse))))
    ∧ (r_files r ≠ None →
         Marker.bracketsOnlyInMarkers (Js.trim finalResponse) = true →
         Marker.containsMarker (r_message r) = false)
    ∧ (r_files r = None →
         r_message r = Marker.truncateResponse (Js.trim finalResponse)).
Proof.
  intros Hf. rewrite (deliver_spec _ _ _ _ _ _ Hf). cbn zeta.
  eexists _, _. split; [reflexivity|]. cbn [outgoing setProcessing setOutgoing].
  split; [reflexivity|]. cbn [r_files r_message].
  unfold Marker.finishResponse, Marker.strippedText. cbn [fst snd].
  set (ex := existsSync (world st)).
  set (trimmed := Js.trim finalResponse).
  pose proof (collectFiles_existing ex trimmed allFiles) as Hex.
  pose proof (collectFiles_keeps ex trimmed allFiles) as Hkeep.
  destruct (Marker.collectFiles ex trimmed allFiles) as [|p0 ps] eqn:Hfiles; cbn.
  - split; [intros g Hg He; exact (Hex g Hg He)|].
    split; [intros p Hp; exact (Hkeep p Hp)|].
    split; [congruence|]. split; [congruence|]. reflexivity.
  - split; [intros g Hg He; exact (Hex g Hg He)|].
    split; [intros p Hp; exact (Hkeep p Hp)|].
    split; [reflexivity|]. split; [|congruence].
    intros _ Hb. apply MarkerFacts.containsMarker_truncate, MarkerFacts.hasOpenBracket_trim,
      MarkerFacts.replaceMarkers_no_bracket, Hb.
Qed.

(** C4. Long responses. On the agent path the message written is the text
    left after stripping and trimming when that text has at most 4000
    characters, and otherwise its first 3900 characters followed by the
    truncation notice: two line feeds and [[Response truncated...]].
    [sendFinalResponse] writes a swarm response of at most 4000 characters
    as it is; a longer one it stores in full in the files directory, names
    that file in [files], and writes the first 4000 characters followed by
    the attachment notice: two line feeds and
    [_(Full swarm report attached as file)_]. *)
Theorem C4_long_responses f m id finalResponse allFiles context response (st : State W) :
  is_Some (processing st !! f) →
  (∃ st' r, deliver f m id finalResponse allFiles st = (st', Ok tt)
     ∧ outgoing st' = <[responseFileName m (now st) := r]> (outgoing st)
     ∧ let text := (Marker.strippedText (existsSync (world st)) allFiles finalResponse).1 in
       (4000 < String.length text →
          r_message r =
            Js.take 3900 text
            +:+ String "010"%char (String "010"%char "[Response truncated...]"))
       ∧ (String.length text ≤ 4000 → r_message r = text))
  ∧ (∃ st' r, Swarm.sendFinalResponse context response st = (st', Ok tt)
       ∧ outgoing st' =
           <["swarm_result_" +:+ Swarm.c_messageId context +:+ "_" +:+ pretty (now st) +:+ ".json"
               := r]> (outgoing st)
       ∧ (String.length response ≤ 4000 →
            r_message r = response ∧ r_files r = None ∧ filesDir st' = filesDir st)
       ∧ (4000 < String.length response →
            let name := "swarm_result_" +:+ pretty (now st) +:+ ".md" in
            filesDir st' = <[name := response]> (filesDir st)
            ∧ r_files r = Some [Swarm.pathJoin FILES_DIR name]
            ∧ r_message r =
                Js.take 4000 response
                +:+ String "010"%char
                      (String "010"%char "_(Full swarm report attached as file)_"))).
Proof.
  intros Hf. split.
  - rewrite (deliver_spec _ _ _ _ _ _ Hf). cbn zeta.
    eexists _, _. split; [reflexivity|]. cbn [outgoing setProcessing setOutgoing].
    split; [reflexivity|]. cbn [r_message].
    unfold Marker.finishResponse.
    destruct (Marker.strippedText _ _ _) as [text files]. cbn [fst].
    unfold Marker.truncateResponse. split; intros Hlen.
    + apply Nat.ltb_lt in Hlen. rewrite Hlen. reflexivity.
    + apply Nat.ltb_ge in Hlen. rewrite Hlen. reflexivity.
  - unfold Swarm.sendFinalResponse, Swarm.LONG_RESPONSE_THRESHOLD, bind, get, writeOutgoing, modify.
    destruct (4000 <? String.length response) eqn:Hlong; cbn;
      (eexists _, _; split; [reflexivity|]; cbn; split; [reflexivity|]).
    + apply Nat.ltb_lt in Hlong. split; [lia|]. intros _. repeat split.
    + apply Nat.ltb_ge in Hlong. split; [|lia]. intros _. repeat split.
Qed.

(** *** Team chains *)

Lemma pushFanOut_steps results steps acc (st st' : State W) steps' acc' :
  pushFanOut results steps acc st = (st', Ok (steps', acc')) → steps' = steps ++ results.
Proof.
  revert steps acc st. induction results as [|r rest IH]; intros steps acc st; cbn [pushFanOut].
  - intros [= _ <- _]. rewrite app_nil_r. reflexivity.
  - unfold bind at 1, collectStepFiles, bind, get, ret.
    intros H. apply IH in H. rewrite H, <- app_assoc. reflexivity.
Qed.

(** The chain appends to the steps recorded so far, and records a step for
    the current agent when that agent is configured. *)
Lemma chainLoop_steps fuel teamId shouldReset steps cur msg acc (st st' : State W) steps' acc' :
  chainLoop fuel teamId shouldReset steps cur msg acc st = (st', Ok (steps', acc')) →
  ∃ more, steps' = steps ++ more
    ∧ (is_Some (lookupTable agents cur) → ∃ s rest, more = s :: rest ∧ agentId s = cur).
Proof.
  revert steps cur msg acc st. induction fuel as [|fuel IH]; intros steps cur msg acc st;
    cbn [chainLoop]; [discriminate|].
  destruct (lookupTable agents cur) as [cfg|] eqn:Hcur.
  - unfold bind at 1. destruct (hasAgentResetFlag cur st) as [s1 [flag|e|]]; try discriminate.
    unfold bind at 1.
    match goal with |- context [(if ?b then _ else _) s1] =>
      destruct ((if b then unlinkAgentResetFlag cur else ret tt) s1) as [s2 [[]|e|]]
    end; try discriminate.
    unfold bind at 1.
    match goal with |- context [tryCatch ?a ?b s2] =>
      destruct (tryCatch a b s2) as [s3 [stepResponse|e|]]
    end; try discriminate.
    unfold bind at 1.
    destruct (collectStepFiles stepResponse acc s3) as [s4 [acc1|e|]]; try discriminate.
    set (s := {| agentId := cur; response := stepResponse |}).
    destruct (extractTeammateMentions stepResponse cur teamId) as [|m1 [|m2 ms]].
    + intros [= _ <- _]. exists [s]. split; [reflexivity|]. intros _. exists s, []. auto.
    + intros H. apply IH in H. destruct H as (more & -> & _).
      exists (s :: more). split; [rewrite <- app_assoc; reflexivity|].
      intros _. exists s, more. auto.
    + unfold bind at 1.
      destruct (mapM _ _ s4) as [s5 [results|e|]]; try discriminate.
      intros H. apply pushFanOut_steps in H. subst steps'.
      exists (s :: results). split; [rewrite <- app_assoc; reflexivity|].
      intros _. exists s, results. auto.
  - intros [= _ <- _]. exists []. split; [rewrite app_nil_r; reflexivity|].
    intros [? ?]. discriminate.
Qed.

(** C8. The final response of a team chain. When the executor returns for a
    message in a team context, the chain loop has terminated with a list of
    recorded steps, the first of them by the addressed agent; the final
    response is the response of the only step when there is exactly one,
    and with two or more steps it is the steps in recorded order, each as
    [@<agentId>: <response>], joined by the [---] separator line. *)
Theorem C8_chain_final_response fuel m id msg cfg teamId team shouldReset
    (st st' : State W) final files :
  lookupTable agents id = Some cfg →
  runExecutor fuel m id msg cfg (Some (teamId, team)) shouldReset st
    = (st', Ok (final, files)) →
  ∃ st0 first rest,
    chainLoop fuel teamId shouldReset [] id msg [] st = (st0, Ok (first :: rest, files))
    ∧ agentId first = id
    ∧ (rest = [] → final = response first)
    ∧ (rest ≠ [] →
         final = Js.join (Js.newline +:+ Js.newline +:+ "---" +:+ Js.newline +:+ Js.newline)
                   (map (fun step => "@" +:+ agentId step +:+ ": " +:+ response step)
                        (first :: rest))).
Proof.
  intros Hcfg. unfold runExecutor, bind at 1.
  destruct (chainLoop fuel teamId shouldReset [] id msg [] st)
    as [s1 [[steps acc]|e|]] eqn:Hloop; try discriminate.
  unfold bind, saveChatHistory, modify, ret. intros [= _ <- <-].
  destruct (chainLoop_steps _ _ _ _ _ _ _ _ _ _ _ Hloop) as (more & Hsteps & Hfirst).
  destruct Hfirst as (first & rest & -> & Hid); [eauto|]. cbn in Hsteps. subst steps.
  exists s1, first, rest. split; [reflexivity|]. split; [exact Hid|].
  unfold aggregate. split.
  - intros ->. reflexivity.
  - intros Hrest. destruct rest as [|s2 rest]; [congruence|]. reflexivity.
Qed.

End WithCollaborators.

(** *** The seed scenarios *)

Example startup_recovers_stranded :
  ∃ st', startup Demo.stranded = (st', Ok tt)
    ∧ dom (processing st') = {[ "notes.txt" ]}
    ∧ dom (incoming st') = {[ "a.json"; "b.json"; "c.json" ]}.
Proof. eexists. split; [vm_compute; reflexivity|]. split; vm_compute; reflexivity. Qed.

(** C3 at a file that is no JSON: the attempt throws, the file is back in
    [incoming], nothing is written, and the name is untracked. *)
Lemma C3_rollback_witness :
  incoming Demo.badFile !! "bad.json" = Some (Malformed "{oops")
  ∧ (processBody 2 "bad.json" Demo.badFile).2 = Throw "SyntaxError: Unexpected token in JSON"
  ∧ (∃ st', processMessage 2 "bad.json" Demo.badFile = (st', Ok tt)
       ∧ incoming st' = incoming Demo.badFile
       ∧ processing st' !! "bad.json" = None
       ∧ outgoing st' = outgoing Demo.badFile
       ∧ ∃ st'', runTask 2 Fulfilled "bad.json" Demo.badFile = (st'', Some Fulfilled))
  ∧ (∀ prev st' p, runTask 2 prev "bad.json" Demo.badFile = (st', Some p) →
       "bad.json" ∉ queuedFiles st').
Proof.
  assert (Hin : incoming Demo.badFile !! "bad.json" = Some (Malformed "{oops"))
    by (vm_compute; reflexivity).
  assert (Hthrow : (processBody 2 "bad.json" Demo.badFile).2
                   = Throw "SyntaxError: Unexpected token in JSON")
    by (vm_compute; reflexivity).
  destruct (C3_rollback_and_untrack 2 "bad.json" (Malformed "{oops") Demo.badFile Hin)
    as [Hroll Htrack].
  split; [exact Hin|]. split; [exact Hthrow|]. split; [|exact Htrack].
  apply (Hroll (processBody 2 "bad.json" Demo.badFile).1
               "SyntaxError: Unexpected token in JSON").
  rewrite <- Hthrow. apply surjective_pairing.
Defined.

(** C10 at the message [@alice @bob hi]. *)
Lemma C10_easter_egg_witness :
  incoming Demo.multiMention !! "m.json"
    = Some (MessageJson (Demo.messageOf "@alice @bob hi"))
  ∧ rt_agentId (routeMessage (Demo.messageOf "@alice @bob hi")) = "error"
  ∧ ∃ st', processMessage 2 "m.json" Demo.multiMention = (st', Ok tt)
      ∧ outgoing st' =
          <["m.json" := {| r_channel := "t"; r_sender := "u";
                           r_message := "One agent at a time, please.";
                           r_originalMessage := "@alice @bob hi"; r_timestamp := 7%N;
                           r_messageId := "m1"; r_agent := None; r_files := None |}]>
            (outgoing Demo.multiMention)
      ∧ incoming st' !! "m.json" = None
      ∧ processing st' !! "m.json" = None
      ∧ invocations st' = invocations Demo.multiMention
      ∧ world st' = world Demo.multiMention.
Proof.
  assert (Hin : incoming Demo.multiMention !! "m.json"
                = Some (MessageJson (Demo.messageOf "@alice @bob hi")))
    by (vm_compute; reflexivity).
  assert (Herr : rt_agentId (routeMessage (Demo.messageOf "@alice @bob hi")) = "error")
    by (vm_compute; reflexivity).
  split; [exact Hin|]. split; [exact Herr|].
  exact (C10_easter_egg_response 2 "m.json" _ Demo.multiMention Hin Herr).
Defined.

(** C1 fails on the code. The comment of line 344 announces that the
    markers are removed from the response text, and the removal of line 346
    deletes every marker, those of missing files included; but it runs under
    the guard [outboundFiles.length > 0] of line 345. The default agent
    echoes a message that names a file which does not exist: nothing is
    attached, and the response written to the outgoing directory still
    contains the marker. The same marker is deleted from a response that
    also names the existing file [/a]. *)
Theorem C1_marker_of_missing_file_is_written :
  (∃ st' r, processMessage 2 "m.json" Demo.missingFile = (st', Ok tt)
     ∧ outgoing st' !! "t_m1_7.json" = Some r
     ∧ r_message r = "see [send_file: /nope]"
     ∧ r_files r = None
     ∧ Marker.containsMarker (r_message r) = true)
  ∧ (∃ st' r,
       deliver "m.json" (Demo.messageOf "hello") "default"
         "see [send_file: /a] and [send_file: /nope]" [] Demo.inFlight = (st', Ok tt)
       ∧ outgoing st' !! "t_m1_7.json" = Some r
       ∧ r_message r = "see  and"
       ∧ r_files r = Some ["/a"]
       ∧ Marker.containsMarker (r_message r) = false).
Proof.
  split.
  - eexists (processMessage 2 "m.json" Demo.missingFile).1, _.
    split; [vm_compute; reflexivity|].
    split; [vm_compute; reflexivity|].
    repeat split; vm_compute; reflexivity.
  - eexists (deliver "m.json" (Demo.messageOf "hello") "default"
               "see [send_file: /a] and [send_file: /nope]" [] Demo.inFlight).1, _.
    split; [vm_compute; reflexivity|].
    split; [vm_compute; reflexivity|].
    repeat split; vm_compute; reflexivity.
Qed.

(** C4 at an agent response and a swarm response of 4001 characters. *)
Lemma C4_long_responses_witness :
  is_Some (processing Demo.inFlight !! "m.json")
  ∧ (∃ st' r,
       deliver "m.json" (Demo.messageOf "hello") "default"
         (Demo.repeatString 4001 "x") [] Demo.inFlight = (st', Ok tt)
       ∧ outgoing st' = <["t_m1_7.json" := r]> (outgoing Demo.inFlight)
       ∧ r_message r =
           Demo.repeatString 3900 "x"
           +:+ String "010"%char (String "010"%char "[Response truncated...]"))
  ∧ (∃ st' r,
       Swarm.sendFinalResponse Demo.swarmContext (Demo.repeatString 4001 "y") Demo.inFlight
         = (st', Ok tt)
       ∧ filesDir st' !! "swarm_result_7.md" = Some (Demo.repeatString 4001 "y")
       ∧ r_files r = Some ["/srv/tinyclaw/files/swarm_result_7.md"]
       ∧ r_message r =
           Demo.repeatString 4000 "y"
           +:+ String "010"%char
                 (String "010"%char "_(Full swarm report attached as file)_")
       ∧ outgoing st' !! "swarm_result_m1_7.json" = Some r).
Proof.
  assert (Hf : is_Some (processing Demo.inFlight !! "m.json"))
    by (eexists; vm_compute; reflexivity).
  split; [exact Hf|].
  pose proof (C4_long_responses "m.json" (Demo.messageOf "hello") "default"
                (Demo.repeatString 4001 "x") [] Demo.swarmContext
                (Demo.repeatString 4001 "y") Demo.inFlight Hf) as H.
  destruct H as [H1 H2].
  destruct H1 as (st1 & r1 & Hrun1 & Hout1 & Hlong1 & _).
  destruct H2 as (st2 & r2 & Hrun2 & Hout2 & _ & Hlong2).
  split.
  - exists st1, r1. split; [exact Hrun1|]. split; [exact Hout1|].
    rewrite Hlong1; [vm_compute; reflexivity|]. vm_compute. lia.
  - exists st2, r2. split; [exact Hrun2|].
    destruct Hlong2 as (Hfiles & Hattached & Hmsg); [vm_compute; lia|].
    split; [rewrite Hfiles; vm_compute; reflexivity|].
    split; [rewrite Hattached; vm_compute; reflexivity|].
    split; [rewrite Hmsg; vm_compute; reflexivity|].
    rewrite Hout2. vm_compute. reflexivity.
Defined.

(** C8 at the chain of the team [eng]: [alice] hands over to [bob]. *)
Lemma C8_chain_witness :
  lookupTable agents "alice" = Some (Demo.agentOf "Alice")
  ∧ (runExecutor 3 (Demo.messageOf "@eng start") "alice" "start" (Demo.agentOf "Alice")
       (Some ("eng", Demo.eng)) false Demo.inFlight).2
    = Ok ("@alice: @bob please continue" +:+ chainSeparator +:+ "@bob: done", [])
  ∧ ∃ st0 first rest,
      chainLoop 3 "eng" false [] "alice" "start" [] Demo.inFlight
        = (st0, Ok (first :: rest, []))
      ∧ agentId first = "alice"
      ∧ rest ≠ []
      ∧ "@alice: @bob please continue" +:+ chainSeparator +:+ "@bob: done"
        = Js.join (Js.newline +:+ Js.newline +:+ "---" +:+ Js.newline +:+ Js.newline)
            (map (fun step => "@" +:+ agentId step +:+ ": " +:+ response step)
                 (first :: rest)).
Proof.
  assert (Hcfg : lookupTable agents "alice" = Some (Demo.agentOf "Alice"))
    by (vm_compute; reflexivity).
  assert (Hrun : (runExecutor 3 (Demo.messageOf "@eng start") "alice" "start"
                    (Demo.agentOf "Alice") (Some ("eng", Demo.eng)) false Demo.inFlight).2
                 = Ok ("@alice: @bob please continue" +:+ chainSeparator +:+ "@bob: done", []))
    by (vm_compute; reflexivity).
  split; [exact Hcfg|]. split; [exact Hrun|].
  destruct (C8_chain_final_response 3 (Demo.messageOf "@eng start") "alice" "start"
              (Demo.agentOf "Alice") "eng" Demo.eng false Demo.inFlight
              (runExecutor 3 (Demo.messageOf "@eng start") "alice" "start"
                 (Demo.agentOf "Alice") (Some ("eng", Demo.eng)) false Demo.inFlight).1
              ("@alice: @bob please continue" +:+ chainSeparator +:+ "@bob: done") [] Hcfg)
    as (st0 & first & rest & Hloop & Hid & Hone & Hmany).
  { rewrite <- Hrun. apply surjective_pairing. }
  exists st0, first, rest. split; [exact Hloop|]. split; [exact Hid|].
  assert (Hrest : rest ≠ []).
  { intros ->. vm_compute in Hloop. discriminate Hloop. }
  split; [exact Hrest|]. exact (Hmany Hrest).
Defined.

End QueueFacts.

(** ** The shuffle: sub-split and partition reduce *)
Module ShuffleFacts.
Import Shuffle.

(** *** Sub-split *)

Lemma subSplitOne_entries max final entry :
  subSplitOne max final entry =
    foldl (fun m kv => <[kv.1 := kv.2]> m) final (subEntries max entry).
Proof.
  destruct entry as [key items]. unfold subSplitOne, subEntries.
  destruct (List.length items <=? max); [reflexivity|].
  generalize (seq 0 (ceilDiv (List.length items) max)) as l. intros l. revert final.
  induction l as [|i l IH]; intros final; [reflexivity|]. cbn. apply IH.
Qed.

Lemma subSplit_entries max parts :
  subSplit max parts =
    foldl (fun m kv => <[kv.1 := kv.2]> m) ∅ (concat (map (subEntries max) parts)).
Proof.
  unfold subSplit. generalize (∅ : gmap string (list string)) as final.
  induction parts as [|entry parts IH]; intros final; [reflexivity|].
  cbn [foldl map concat]. rewrite foldl_app, IH, subSplitOne_entries. reflexivity.
Qed.

Lemma foldl_insert_notin (kvs : list (string * list string))
    (m : gmap string (list string)) k :
  k ∉ map fst kvs → foldl (fun m kv => <[kv.1 := kv.2]> m) m kvs !! k = m !! k.
Proof.
  revert m. induction kvs as [|[k' v'] kvs IH]; intros m Hk; [reflexivity|].
  cbn in *. rewrite not_elem_of_cons in Hk. destruct Hk as [Hne Hk].
  rewrite IH by exact Hk. apply lookup_insert_ne. congruence.
Qed.

(** With distinct keys, each inserted entry is read back. *)
Lemma foldl_insert_lookup (kvs : list (string * list string))
    (m : gmap string (list string)) k v :
  NoDup (map fst kvs) → (k, v) ∈ kvs →
  foldl (fun m kv => <[kv.1 := kv.2]> m) m kvs !! k = Some v.
Proof.
  revert m. induction kvs as [|[k' v'] kvs IH]; intros m Hnd Hin; [inversion Hin|].
  cbn in *. apply NoDup_cons in Hnd. destruct Hnd as [Hk' Hnd].
  apply elem_of_cons in Hin. destruct Hin as [[= -> ->]|Hin].
  - rewrite foldl_insert_notin by exact Hk'. apply lookup_insert_eq.
  - apply IH; assumption.
Qed.

Lemma elem_of_concat {A} (x : A) (l : list A) (ls : list (list A)) :
  x ∈ l → l ∈ ls → x ∈ concat ls.
Proof.
  intros Hx Hl. induction ls as [|l' ls IH]; [inversion Hl|].
  cbn. apply elem_of_app. apply elem_of_cons in Hl. destruct Hl as [<-|Hl]; auto.
Qed.

Lemma finalKeys_entries max parts :
  finalKeys max parts = map fst (concat (map (subEntries max) parts)).
Proof.
  unfold finalKeys. induction parts as [|e parts IH]; [reflexivity|].
  cbn. rewrite map_app, IH. reflexivity.
Qed.

Lemma ceilDiv_covers n d : 0 < d → n ≤ ceilDiv n d * d.
Proof.
  intros Hd. unfold ceilDiv.
  pose proof (Nat.div_mod (n + d - 1) d ltac:(lia)) as Hdm.
  pose proof (Nat.mod_upper_bound (n + d - 1) d ltac:(lia)) as Hub.
  nia.
Qed.

(** Consecutive slices of width [d] that reach the end of a list make up
    the list. *)
Lemma concat_slices {A} (d n : nat) (l : list A) :
  0 < d → List.length l ≤ n * d →
  concat (map (fun i => Js.slice (i * d) ((i + 1) * d) l) (seq 0 n)) = l.
Proof.
  intros Hd. revert l. induction n as [|n IH]; intros l Hlen.
  - cbn in *. destruct l; [reflexivity|cbn in Hlen; lia].
  - rewrite <- cons_seq, <- fmap_S_seq. cbn [map concat].
    transitivity (take d l ++ drop d l); [|apply take_drop]. f_equal.
    + unfold Js.slice. cbn. rewrite Nat.add_0_r, Nat.sub_0_r. reflexivity.
    + rewrite <- (IH (drop d l)) by (rewrite length_drop; lia).
      f_equal. rewrite <- list_fmap_compose. apply list_fmap_ext. intros _ i _. cbn.
      unfold Js.slice. rewrite drop_drop. f_equal; try lia; f_equal; lia.
Qed.

Lemma slice_length {A} (i d : nat) (l : list A) :
  List.length (Js.slice (i * d) ((i + 1) * d) l) ≤ d.
Proof. unfold Js.slice. rewrite length_take. lia. Qed.

(** Sub-split preservation holds when the names under which the partitions
    end up are pairwise distinct: a partition within the limit is kept under
    its key, and the sub-partitions of a larger one are found under
    [<key>_part1], [<key>_part2], ..., hold at most [maxPartitionSize] items
    each, and make up the partition when concatenated in part order. *)
Lemma subSplit_preserves_without_collision max parts key items :
  0 < max →
  NoDup (finalKeys max parts) →
  (key, items) ∈ parts →
  (List.length items ≤ max → subSplit max parts !! key = Some items)
  ∧ (max < List.length items →
       let chunks := ceilDiv (List.length items) max in
       let sub i := Js.slice (i * max) ((i + 1) * max) items in
       (∀ i, i < chunks → subSplit max parts !! subKey key i = Some (sub i))
       ∧ concat (map sub (seq 0 chunks)) = items
       ∧ ∀ i, List.length (sub i) ≤ max).
Proof.
  intros Hmax Hnd Hin. rewrite finalKeys_entries in Hnd. rewrite subSplit_entries.
  assert (Hsub : ∀ kv, kv ∈ subEntries max (key, items) →
                       kv ∈ concat (map (subEntries max) parts)).
  { intros kv Hkv. apply (elem_of_concat _ (subEntries max (key, items))); [exact Hkv|].
    apply list_elem_of_fmap. exists (key, items). auto. }
  split.
  - intros Hlen. apply foldl_insert_lookup; [exact Hnd|]. apply Hsub.
    unfold subEntries. apply Nat.leb_le in Hlen. rewrite Hlen. apply list_elem_of_here.
  - intros Hlen. cbn zeta. split; [|split].
    + intros i Hi. apply foldl_insert_lookup; [exact Hnd|]. apply Hsub.
      unfold subEntries. rewrite (proj2 (Nat.leb_gt _ _)) by exact Hlen.
      apply list_elem_of_fmap. exists i. split; [reflexivity|].
      apply elem_of_seq. lia.
    + apply concat_slices; [exact Hmax|]. apply ceilDiv_covers, Hmax.
    + intros i. apply slice_length.
Qed.

(** C6 fails on the code. Three items tagged [a] and one tagged [a_part1],
    with [max_partition_size] 2: the grouped partition of [a] is split into
    [a_part1] and [a_part2], and the partition of the key [a_part1], set
    later, replaces the first sub-partition. The sub-partitions of [a] no
    longer make up its partition, and two of its items are in no
    partition. *)
Theorem C6_subsplit_key_collision :
  g_partitions (groupByKey "duplicate" Demo.collidingItems)
    = [("a", [Demo.itemText "a" 1; Demo.itemText "a" 2; Demo.itemText "a" 3]);
       ("a_part1", [Demo.itemText "a_part1" 4])]
  ∧ partitions (shuffleItems Demo.collidingItems Demo.pairsOnly) !! "a_part1"
    = Some [Demo.itemText "a_part1" 4]
  ∧ partitions (shuffleItems Demo.collidingItems Demo.pairsOnly) !! "a_part2"
    = Some [Demo.itemText "a" 3]
  ∧ dom (partitions (shuffleItems Demo.collidingItems Demo.pairsOnly))
    = {[ "a_part1"; "a_part2" ]}
  ∧ [Demo.itemText "a_part1" 4] ++ [Demo.itemText "a" 3]
    ≠ [Demo.itemText "a" 1; Demo.itemText "a" 2; Demo.itemText "a" 3].
Proof.
  split; [vm_compute; reflexivity|].
  split; [vm_compute; reflexivity|].
  split; [vm_compute; reflexivity|].
  split; [vm_compute; reflexivity|].
  discriminate.
Qed.

Example subSplit_without_collision :
  partitions (shuffleItems (firstn 3 Demo.collidingItems) Demo.pairsOnly)
  = {[ "a_part1" := [Demo.itemText "a" 1; Demo.itemText "a" 2];
       "a_part2" := [Demo.itemText "a" 3] ]}.
Proof. vm_compute. reflexivity. Qed.

(** The same collision the other way round: the partition of [a_part1] is
    within the limit and set first, and the first sub-partition of [a]
    replaces it. *)
Example subSplit_replaces_small_partition :
  partitions (shuffleItems (Demo.itemOf "a_part1" 4 :: firstn 3 Demo.collidingItems)
                Demo.pairsOnly) !! "a_part1"
  = Some [Demo.itemText "a" 1; Demo.itemText "a" 2].
Proof. vm_compute. reflexivity. Qed.

(** *** Partition reduce *)

Section Reduce.
Context {W : Type} `{C : Collaborators W}.
Variable fillTemplate : string → string → string → nat → string → string.

(** The task of a keyed partition records exactly one result under its key:
    the reducer's text, or the placeholder when the call fails. *)
Lemma reduceKeyed_records_one sr o key (st : State W) :
  ∃ st' result,
    reduceKeyed fillTemplate sr o key st = (st', Ok [{| p_key := key; p_result := result |}])
    ∧ ∀ prompt,
        prompt = buildPartitionReducePrompt fillTemplate (partitionReducePrompt o) key
                   (Js.join Js.newline (default [] (partitions sr !! key)))
                   (List.length (default [] (partitions sr !! key))) (o_userMessage o) →
        match (invokeAgent (world st) (reduceAgent o) (reduceAgentId o) prompt true).2 with
        | inl text => result = text
        | inr err => result = failedPlaceholder key err
        end.
Proof.
  unfold reduceKeyed, tryCatch, bind, Dispatcher.callAgent, nl.
  destruct (invokeAgent (world st) (reduceAgent o) (reduceAgentId o) _ true)
    as [w [text|err]] eqn:E; cbn.
  - eexists _, _. split; [reflexivity|]. intros prompt ->. rewrite E. reflexivity.
  - eexists _, _. split; [reflexivity|]. intros prompt ->. rewrite E. reflexivity.
Qed.

(** The task of the unkeyed items records nothing when the call fails. *)
Lemma reduceUnkeyed_failure_records_nothing sr o (st : State W) err :
  unkeyed sr ≠ [] →
  (invokeAgent (world st) (reduceAgent o) (reduceAgentId o)
     (buildPartitionReducePrompt fillTemplate (partitionReducePrompt o) "_unkeyed"
        (Js.join Js.newline (unkeyed sr)) (List.length (unkeyed sr)) (o_userMessage o))
     true).2 = inr err →
  ∃ st', reduceUnkeyed fillTemplate sr o st = (st', Ok []).
Proof.
  intros Hne Hfail. unfold reduceUnkeyed.
  destruct (unkeyed sr) as [|u us] eqn:Hu; [congruence|].
  unfold tryCatch, bind, Dispatcher.callAgent, nl.
  destruct (invokeAgent _ _ _ _ _) as [w [text|err']]; cbn in *; [discriminate|].
  eexists. reflexivity.
Qed.

End Reduce.

(** C5 fails on the code for the unkeyed partition. One keyed partition [a]
    and one unkeyed item, reduced by an agent whose worker fails with
    [boom]: the reducer is called for [a] and for [_unkeyed], both calls
    fail, and the results record the placeholder of [a] and nothing for
    [_unkeyed]. *)
Theorem C5_unkeyed_failure_leaves_no_placeholder
    (fillTemplate : string → string → string → nat → string → string) :
  ∃ st',
    partitionResults fillTemplate Demo.keyedAndUnkeyed Demo.flakyReducer Demo.inFlight
    = (st', Ok [{| p_key := "a";
                   p_result := "[Partition " +:+ Js.dquote +:+ "a" +:+ Js.dquote
                               +:+ " failed: boom]" |}])
    ∧ map i_agentId (invocations st') = ["flaky"; "flaky"]
    ∧ Demo.keyedAndUnkeyed.(unkeyed) ≠ [].
Proof.
  eexists (partitionResults fillTemplate Demo.keyedAndUnkeyed Demo.flakyReducer
             Demo.inFlight).1.
  split; [vm_compute; reflexivity|]. split; [vm_compute; reflexivity|]. discriminate.
Qed.

(** With a reducer that answers, both partitions are recorded. *)
Example partitionResults_all_recorded
    (fillTemplate : string → string → string → nat → string → string) :
  map p_key
    (match (partitionResults fillTemplate Demo.keyedAndUnkeyed Demo.echoReducer
              Demo.inFlight).2 with
     | Ok prs => prs
     | _ => []
     end)
  = ["a"; "_unkeyed"].
Proof. vm_compute. reflexivity. Qed.

End ShuffleFacts.

(** ** Conversion to a string *)
Module JsonFacts.

Lemma mapM_None {A B} (f : A → option B) (l : list A) :
  mapM f l = None ↔ ∃ x, x ∈ l ∧ f x = None.
Proof.
  induction l as [|x l IH]; cbn [mapM].
  - split; [discriminate|]. intros (x & Hx & _). inversion Hx.
  - destruct (f x) as [y|] eqn:Hfx; cbn.
    + destruct (mapM f l) as [k|]; cbn.
      * split; [discriminate|]. intros (x' & Hx' & Hf).
        apply elem_of_cons in Hx'. destruct Hx' as [->|Hx']; [congruence|].
        destruct IH as [_ IH]. discriminate IH. eauto.
      * split; [|reflexivity]. intros _. destruct IH as [IH _].
        destruct (IH eq_refl) as (x' & Hx' & Hf). exists x'.
        split; [apply list_elem_of_further, Hx'|exact Hf].
    + split; [|reflexivity]. intros _. exists x. split; [apply list_elem_of_here|exact Hfx].
Qed.

Section WithNumbers.
Variable Number_toString : Z → string.

(** An object with a key [toString] cannot be converted. *)
Lemma toString_shadowed fields :
  is_Some (lookupTable fields "toString") → toString Number_toString (JObj fields) = None.
Proof. intros [v H]. cbn. rewrite H. reflexivity. Qed.

(** An array cannot be converted exactly when one of its elements
    cannot. *)
Lemma toString_array_None (values : list jsval) :
  toString Number_toString (JArr values) = None
  ↔ ∃ v, v ∈ values ∧ toString Number_toString v = None.
Proof.
  cbn [toString]. rewrite fmap_None, mapM_None. split.
  - intros (v & Hv & Hnone). exists v. split; [exact Hv|].
    destruct v; try discriminate; exact Hnone.
  - intros (v & Hv & Hnone). exists v. split; [exact Hv|].
    destruct v; try discriminate; exact Hnone.
Qed.

(** A value that is such an object, or an array that holds one. *)
Lemma toString_holds_shadowed value inner :
  value = JObj inner ∨ (∃ values, value = JArr values ∧ JObj inner ∈ values) →
  is_Some (lookupTable inner "toString") →
  toString Number_toString value = None.
Proof.
  intros [->|(values & -> & Hin)] Hshadow; [apply toString_shadowed, Hshadow|].
  apply toString_array_None. exists (JObj inner).
  split; [exact Hin|apply toString_shadowed, Hshadow].
Qed.

End WithNumbers.

End JsonFacts.

(** ** The memory composer and the Codex output parser *)
Module InvokeFacts.
Import Invoke.

Section WithParser.
Variable JSON_parse : string → option jsval.
Variable Number_toString : Z → string.

(** *** Recent reflections *)

Lemma renderReflection_nonEmpty line text :
  renderReflection JSON_parse Number_toString line = Some text → Js.nonEmpty text = true.
Proof.
  unfold renderReflection. intros H.
  destruct (JSON_parse line) as [r|]; [|discriminate]. cbn in H.
  destruct (prop r "type" ≫= toString Number_toString) as [type|]; [|discriminate].
  cbn in H.
  destruct (prop r "context" ≫= toString Number_toString) as [context|]; [|discriminate].
  cbn in H.
  destruct (prop r "lesson" ≫= toString Number_toString) as [lesson|]; [|discriminate].
  cbn in H.
  destruct (prop r "action") as [action|]; [|discriminate]. cbn in H.
  destruct (if truthy action then _ else _) as [shown|]; [|discriminate]. cbn in H.
  injection H as <-. reflexivity.
Qed.

Lemma filter_nonEmpty_rendered (lines : list string) :
  filter (fun x => Js.nonEmpty x = true) (omap (renderReflection JSON_parse Number_toString) lines)
  = omap (renderReflection JSON_parse Number_toString) lines.
Proof.
  induction lines as [|l lines IH]; [reflexivity|]. cbn.
  destruct (renderReflection JSON_parse Number_toString l) as [text|] eqn:E; [|exact IH].
  rewrite filter_cons_True by (eapply renderReflection_nonEmpty; exact E).
  rewrite IH. reflexivity.
Qed.

Lemma nonEmpty_join sep x xs :
  Js.nonEmpty x = true → Js.nonEmpty (Js.join sep (x :: xs)) = true.
Proof. destruct x; [discriminate|]. intros _. destruct xs; reflexivity. Qed.

(** The section is built from the lines that parse among the last 10
    non-blank lines. *)
Lemma reflectionsSection_recent raw :
  Js.nonEmpty (Js.trim raw) = true →
  reflectionsSection JSON_parse Number_toString (Some raw) =
    match omap (renderReflection JSON_parse Number_toString) (Js.lastN 10 (nonBlankLines (Js.trim raw))) with
    | [] => None
    | rendered => Some ("## Recent Reflections" +:+ Js.newline +:+ Js.join Js.newline rendered)
    end.
Proof.
  intros Hne. unfold reflectionsSection. rewrite Hne, filter_nonEmpty_rendered.
  set (recent := Js.lastN 10 (nonBlankLines (Js.trim raw))).
  destruct (0 <? List.length recent) eqn:Hlen.
  - destruct (omap (renderReflection JSON_parse Number_toString) recent) as [|x xs] eqn:Hr;
      [reflexivity|].
    rewrite nonEmpty_join; [reflexivity|].
    assert (Hx : x ∈ omap (renderReflection JSON_parse Number_toString) recent)
      by (rewrite Hr; apply list_elem_of_here).
    apply list_elem_of_omap in Hx. destruct Hx as (l & _ & Hl).
    eapply renderReflection_nonEmpty. exact Hl.
  - apply Nat.ltb_ge in Hlen. destruct recent; [reflexivity|cbn in Hlen; lia].
Qed.

(** A line whose value is an object, by what its fields convert to. *)
Lemma renderReflection_object line fields :
  JSON_parse line = Some (JObj fields) →
  renderReflection JSON_parse Number_toString line =
    (type ← toString Number_toString (optProp (JObj fields) "type");
     context ← toString Number_toString (optProp (JObj fields) "context");
     lesson ← toString Number_toString (optProp (JObj fields) "lesson");
     shown ← (if truthy (optProp (JObj fields) "action")
              then (fun text => actionArrow +:+ text)
                     <$> toString Number_toString (optProp (JObj fields) "action")
              else Some EmptyString);
     Some ("- [" +:+ type +:+ "] " +:+ context +:+ ": " +:+ lesson +:+ shown)).
Proof. intros H. unfold renderReflection. rewrite H. reflexivity. Qed.

(** C7 (amended). Recent reflections. For a [reflections.jsonl] that is not
    blank, the section holds the lines that can be rendered among the last
    10 non-blank lines of the file, in file order, and there is no section
    when none of them can. A line on which [JSON.parse] throws or yields
    [null] is skipped. A line that parses to an object is rendered as
    [- [<type>] <context>: <lesson>], with the arrow and the action
    appended exactly when the record's [action] is truthy, provided the
    fields shown convert to strings, and it is skipped when one of them
    does not. In particular a record whose fields are strings is rendered
    with those strings, and a record is skipped when its type, context or
    lesson is an object with a key [toString], or an array that holds
    one. *)
Theorem C7_recent_reflections raw :
  Js.nonEmpty (Js.trim raw) = true →
  reflectionsSection JSON_parse Number_toString (Some raw) =
    match omap (renderReflection JSON_parse Number_toString)
            (Js.lastN 10 (nonBlankLines (Js.trim raw))) with
    | [] => None
    | rendered => Some ("## Recent Reflections" +:+ Js.newline +:+ Js.join Js.newline rendered)
    end
  ∧ (∀ line, JSON_parse line = None →
       renderReflection JSON_parse Number_toString line = None)
  ∧ (∀ line, JSON_parse line = Some JNull →
       renderReflection JSON_parse Number_toString line = None)
  ∧ (∀ line fields, JSON_parse line = Some (JObj fields) →
       let text k := toString Number_toString (optProp (JObj fields) k) in
       let action := optProp (JObj fields) "action" in
       (∀ type context lesson,
          text "type" = Some type → text "context" = Some context →
          text "lesson" = Some lesson →
          (truthy action = false →
             renderReflection JSON_parse Number_toString line =
               Some ("- [" +:+ type +:+ "] " +:+ context +:+ ": " +:+ lesson))
          ∧ (∀ shown, truthy action = true → text "action" = Some shown →
               renderReflection JSON_parse Number_toString line =
                 Some ("- [" +:+ type +:+ "] " +:+ context +:+ ": " +:+ lesson
                       +:+ " → " +:+ shown))
          ∧ (truthy action = true → text "action" = None →
               renderReflection JSON_parse Number_toString line = None))
       ∧ (text "type" = None ∨ text "context" = None ∨ text "lesson" = None →
            renderReflection JSON_parse Number_toString line = None))
  ∧ (∀ line fields type context lesson,
       JSON_parse line = Some (JObj fields) →
       lookupTable fields "type" = Some (JStr type) →
       lookupTable fields "context" = Some (JStr context) →
       lookupTable fields "lesson" = Some (JStr lesson) →
       (lookupTable fields "action" = None →
          renderReflection JSON_parse Number_toString line =
            Some ("- [" +:+ type +:+ "] " +:+ context +:+ ": " +:+ lesson))
       ∧ (∀ action, lookupTable fields "action" = Some (JStr action) →
            renderReflection JSON_parse Number_toString line =
              Some ("- [" +:+ type +:+ "] " +:+ context +:+ ": " +:+ lesson
                    +:+ (if Js.nonEmpty action then " → " +:+ action else EmptyString))))
  ∧ (∀ line fields k value inner,
       JSON_parse line = Some (JObj fields) →
       k ∈ ["type"; "context"; "lesson"] →
       lookupTable fields k = Some value →
       (value = JObj inner ∨ ∃ values, value = JArr values ∧ JObj inner ∈ values) →
       is_Some (lookupTable inner "toString") →
       renderReflection JSON_parse Number_toString line = None).
Proof.
  intros Hne. split; [|split; [|split; [|split; [|split]]]].
  - apply reflectionsSection_recent, Hne.
  - intros line H. unfold renderReflection. rewrite H. reflexivity.
  - intros line H. unfold renderReflection. rewrite H. reflexivity.
  - intros line fields H text action. rewrite (renderReflection_object line fields H).
    fold action. fold (text "type") (text "context") (text "lesson") (text "action").
    split.
    + intros type context lesson -> -> ->. cbn. split; [|split].
      * intros ->. cbn. rewrite JsFacts.app_nil_r. reflexivity.
      * intros shown -> ->. reflexivity.
      * intros -> ->. reflexivity.
    + intros [->| [->| ->]]; [reflexivity| |].
      * destruct (text "type"); reflexivity.
      * destruct (text "type"); [|reflexivity]. destruct (text "context"); reflexivity.
  - intros line fields type context lesson H Ht Hc Hl.
    rewrite (renderReflection_object line fields H).
    unfold optProp, prop. rewrite Ht, Hc, Hl. cbn. split.
    + intros ->. cbn. rewrite JsFacts.app_nil_r. reflexivity.
    + intros action ->. cbn. destruct (Js.nonEmpty action); cbn; reflexivity.
  - intros line fields k value inner H Hk Hin Hshape Hshadow.
    rewrite (renderReflection_object line fields H).
    assert (Hnone : toString Number_toString (optProp (JObj fields) k) = None).
    { unfold optProp, prop. rewrite Hin. cbn [default].
      eapply JsonFacts.toString_holds_shadowed; eassumption. }
    repeat (apply elem_of_cons in Hk; destruct Hk as [->|Hk]); [| | |inversion Hk].
    + rewrite Hnone. reflexivity.
    + rewrite Hnone.
      destruct (toString Number_toString (optProp (JObj fields) "type")); reflexivity.
    + rewrite Hnone.
      destruct (toString Number_toString (optProp (JObj fields) "type")); [|reflexivity].
      destruct (toString Number_toString (optProp (JObj fields) "context")); reflexivity.
Qed.

(** When every non-blank line parses, the section is the specification's:
    the last 10 parseable lines. *)
Lemma reflectionsSection_all_parse raw :
  Js.nonEmpty (Js.trim raw) = true →
  (∀ line, line ∈ nonBlankLines (Js.trim raw) →
           is_Some (renderReflection JSON_parse Number_toString line)) →
  reflectionsSection JSON_parse Number_toString (Some raw) = spec_reflectionsSection JSON_parse Number_toString (Some raw).
Proof.
  intros Hne Hall. rewrite (reflectionsSection_recent raw Hne).
  unfold spec_reflectionsSection.
  replace (omap (renderReflection JSON_parse Number_toString) (Js.lastN 10 (nonBlankLines (Js.trim raw))))
    with (Js.lastN 10 (omap (renderReflection JSON_parse Number_toString) (nonBlankLines (Js.trim raw))));
    [reflexivity|].
  revert Hall. generalize (nonBlankLines (Js.trim raw)) as lines. intros lines Hall.
  assert (Hlen : List.length (omap (renderReflection JSON_parse Number_toString) lines) = List.length lines).
  { induction lines as [|l lines IH]; [reflexivity|]. cbn.
    destruct (Hall l) as [t ->]; [apply list_elem_of_here|]. cbn. f_equal.
    apply IH. intros l' Hl'. apply Hall. apply list_elem_of_further, Hl'. }
  unfold Js.lastN. rewrite Hlen. generalize (List.length lines - 10) as k.
  induction lines as [|l lines IH]; intros k.
  - destruct k; reflexivity.
  - destruct k as [|k].
    + reflexivity.
    + cbn. destruct (Hall l) as [t Ht]; [apply list_elem_of_here|]. rewrite Ht. cbn.
      apply IH.
      * intros l' Hl'. apply Hall. apply list_elem_of_further, Hl'.
      * cbn in Hlen. rewrite Ht in Hlen. cbn in Hlen. congruence.
Qed.

(** *** The Codex output *)

Lemma codexLine_text response line :
  codexLine JSON_parse response line
  = default response (JSON_parse line ≫= agentMessageText).
Proof.
  unfold codexLine, agentMessageText.
  destruct (JSON_parse line) as [json|]; [|reflexivity]. cbn.
  destruct (prop json "type") as [type|]; [|reflexivity].
  destruct (isString type "item.completed"); [|reflexivity]. cbn.
  destruct (isString (optProp (optProp json "item") "type") "agent_message") eqn:Hty;
    [|reflexivity].
  destruct (optProp json "item") as [| |b|z|s|items|fields]; try discriminate Hty;
    reflexivity.
Qed.

Lemma last_cons_default {A} (x : A) (l : list A) : last (x :: l) = Some (default x (last l)).
Proof.
  revert x. induction l as [|y l IH]; intros x; [reflexivity|].
  change (last (x :: y :: l)) with (last (y :: l)). rewrite IH. reflexivity.
Qed.

Lemma foldl_codexLine response (lines : list string) :
  foldl (codexLine JSON_parse) response lines
  = default response
      (last (omap (fun line => JSON_parse line ≫= agentMessageText) lines)).
Proof.
  revert response. induction lines as [|l lines IH]; intros response; [reflexivity|].
  cbn [foldl]. rewrite IH, codexLine_text. cbn [omap list_omap].
  destruct (JSON_parse l ≫= agentMessageText) as [t|]; [|reflexivity].
  cbn [default]. rewrite last_cons_default. reflexivity.
Qed.

(** C9 (amended). The OpenAI branch. When the [codex] subprocess succeeds,
    the invoker returns the [text] of the last line of its output that
    parses to an event with [type] [item.completed] and [item.type]
    [agent_message], provided that text is truthy (a non-empty string); it
    returns the fallback string when there is no such event and when the
    text of the last one is empty or missing. *)
Theorem C9_codex_response runCommand provider modelId workingDir message shouldReset
    codexOutput :
  provider = Some "openai" →
  runCommand "codex" (codexArgs shouldReset modelId message) workingDir = inl codexOutput →
  invokeProvider JSON_parse runCommand provider modelId workingDir message shouldReset
  = inl (match last (agentMessageTexts JSON_parse codexOutput) with
         | Some text => if truthy text then text else JStr codexFallback
         | None => JStr codexFallback
         end).
Proof.
  intros -> Hrun. unfold invokeProvider.
  change (String.eqb (Shuffle.orElse (Some "openai") "anthropic") "openai") with true.
  cbv iota. rewrite Hrun. f_equal.
  unfold parseCodexOutput, agentMessageTexts. rewrite foldl_codexLine.
  destruct (last _) as [text|]; reflexivity.
Qed.

End WithParser.

(** C7, as stated, fails. A file of eleven lines, the records 1 to 10 and
    then a line that is no JSON: the last 10 parseable lines are the records
    1 to 10, and the section holds the nine records 2 to 10. *)
Lemma C7_counterexample_last_line_malformed :
  omap (renderReflection Demo.parse Demo.decimal) (nonBlankLines (Js.trim Demo.elevenLines))
    = map (fun n => "- [insight] c" +:+ Js.ofNat n +:+ ": l" +:+ Js.ofNat n) (seq 1 10)
  ∧ reflectionsSection Demo.parse Demo.decimal (Some Demo.elevenLines)
    = Some ("## Recent Reflections" +:+ Js.newline
            +:+ Js.join Js.newline
                  (map (fun n => "- [insight] c" +:+ Js.ofNat n +:+ ": l" +:+ Js.ofNat n)
                       (seq 2 9)))
  ∧ reflectionsSection Demo.parse Demo.decimal (Some Demo.elevenLines)
    ≠ spec_reflectionsSection Demo.parse Demo.decimal (Some Demo.elevenLines).
Proof.
  split; [vm_compute; reflexivity|]. split; [vm_compute; reflexivity|].
  vm_compute. discriminate.
Qed.

(** C7 (amended) at the file of eleven lines, at its tenth record and at
    its last line. *)
Lemma C7_recent_reflections_witness :
  Js.nonEmpty (Js.trim Demo.elevenLines) = true
  ∧ reflectionsSection Demo.parse Demo.decimal (Some Demo.elevenLines)
    = Some ("## Recent Reflections" +:+ Js.newline
            +:+ Js.join Js.newline
                  (map (fun n => "- [insight] c" +:+ Js.ofNat n +:+ ": l" +:+ Js.ofNat n)
                       (seq 2 9)))
  ∧ renderReflection Demo.parse Demo.decimal (Demo.reflectionLine 10)
    = Some "- [insight] c10: l10"
  ∧ renderReflection Demo.parse Demo.decimal "not json" = None.
Proof.
  assert (H : Js.nonEmpty (Js.trim Demo.elevenLines) = true) by (vm_compute; reflexivity).
  destruct (C7_recent_reflections Demo.parse Demo.decimal Demo.elevenLines H)
    as (Hsection & Hthrows & _ & _ & Hstrings & _).
  split; [exact H|]. split; [rewrite Hsection; vm_compute; reflexivity|]. split.
  - apply (Hstrings (Demo.reflectionLine 10)
             [("type", JStr "insight"); ("context", JStr "c10"); ("lesson", JStr "l10")]
             "insight" "c10" "l10"); vm_compute; reflexivity.
  - apply Hthrows. vm_compute. reflexivity.
Defined.

(** A record whose [type] cannot be converted to a string is skipped, and
    the record before it is shown. *)
Example shadowed_record_is_skipped :
  renderReflection Demo.parseShadowed Demo.decimal Demo.shadowedLine = None
  ∧ reflectionsSection Demo.parseShadowed Demo.decimal
      (Some (Demo.reflectionLine 1 +:+ Js.newline +:+ Demo.shadowedLine))
    = Some ("## Recent Reflections" +:+ Js.newline +:+ "- [insight] c1: l1").
Proof. split; vm_compute; reflexivity. Qed.

(** C9, as stated, fails. The output holds one agent-message event whose
    text is empty: the invoker returns the fallback string, not that
    text. *)
Lemma C9_counterexample_empty_text :
  agentMessageTexts Demo.parse (Demo.emptyMessageEvent +:+ Js.newline) = [JStr EmptyString]
  ∧ invokeProvider Demo.parse Demo.codexSaysNothing (Some "openai") "gpt" "/w" "hello" false
    = inl (JStr codexFallback)
  ∧ JStr codexFallback ≠ JStr EmptyString.
Proof.
  split; [vm_compute; reflexivity|]. split; [vm_compute; reflexivity|]. discriminate.
Qed.

(** C9 (amended) at an output whose only agent message is [hi]. *)
Lemma C9_codex_response_witness :
  Some "openai" = Some "openai"
  ∧ Demo.codexSaysHi "codex" (codexArgs false "gpt" "hello") "/w"
    = inl (Demo.hiMessageEvent +:+ Js.newline +:+ "progress..." +:+ Js.newline)
  ∧ invokeProvider Demo.parse Demo.codexSaysHi (Some "openai") "gpt" "/w" "hello" false
    = inl (JStr "hi").
Proof.
  split; [reflexivity|]. split; [reflexivity|].
  rewrite (C9_codex_response Demo.parse Demo.codexSaysHi (Some "openai") "gpt" "/w" "hello"
             false _ eq_refl eq_refl).
  vm_compute. reflexivity.
Defined.

End InvokeFacts.

(** ** More on strings *)
Module JsMore.

Lemma trimEnd_idem s : Js.trimEnd (Js.trimEnd s) = Js.trimEnd s.
Proof.
  induction s as [|c t IH]; [reflexivity|]. cbn [Js.trimEnd].
  destruct (Js.trimEnd t) as [|d t'] eqn:E.
  - destruct (Js.isWhiteSpace c) eqn:Hc; [reflexivity|]. cbn. rewrite Hc. reflexivity.
  - cbn [Js.trimEnd] in *. rewrite IH. reflexivity.
Qed.

Lemma trimStart_fixed c t :
  Js.isWhiteSpace c = false → Js.trimStart (String c t) = String c t.
Proof. intros H. cbn. rewrite H. reflexivity. Qed.

Lemma trimEnd_head c t :
  Js.isWhiteSpace c = false → ∃ t', Js.trimEnd (String c t) = String c t'.
Proof.
  intros H. cbn. destruct (Js.trimEnd t); [rewrite H|]; eauto.
Qed.

Lemma trimStart_head s :
  Js.trimStart s = EmptyString
  ∨ ∃ c t, Js.trimStart s = String c t ∧ Js.isWhiteSpace c = false.
Proof.
  induction s as [|c t IH]; [left; reflexivity|]. cbn.
  destruct (Js.isWhiteSpace c) eqn:Hc; [exact IH|]. right. eauto.
Qed.

(** [trim] is idempotent. *)
Lemma trim_idem s : Js.trim (Js.trim s) = Js.trim s.
Proof.
  unfold Js.trim. destruct (trimStart_head s) as [->|(c & t & -> & Hc)]; [reflexivity|].
  destruct (trimEnd_head c t Hc) as [t' Ht']. rewrite Ht'.
  rewrite (trimStart_fixed _ _ Hc), <- Ht'. apply trimEnd_idem.
Qed.

End JsMore.

Module DispatchFacts.
Import Dispatcher Trace.

Section WithCollaborators.
Context {W : Type} `{C : Collaborators W}.

Lemma startup_run (st : State W) :
  startup st = ((startup st).1, Ok tt)
  ∧ (∀ f, processing (startup st).1 !! f =
          if isJson f then None else processing st !! f)
  ∧ (∀ f, incoming (startup st).1 !! f =
          match processing st !! f with
          | Some c => if isJson f then Some c else incoming st !! f
          | None => incoming st !! f
          end)
  ∧ outgoing (startup st).1 = outgoing st
  ∧ queuedFiles (startup st).1 = queuedFiles st.
Proof.
  unfold startup, recoverOrphanedFiles, bind, get.
  set (names := filter (λ f, isJson f = true) (readdir (processing st))).
  destruct (QueueFacts.recoverLoop_spec names st) as (st' & Hrun & Hp & Hi & Ho & Hq).
  rewrite Hrun. cbn [fst].
  assert (Hin : ∀ f, f ∈ names ↔ isJson f = true ∧ is_Some (processing st !! f)).
  { intros f. unfold names. rewrite list_elem_of_filter, QueueFacts.elem_of_readdir. tauto. }
  split; [reflexivity|]. split; [|split; [|split; assumption]].
  - intros f. rewrite Hp. case_bool_decide as Hf.
    + apply Hin in Hf. destruct Hf as [-> _]. reflexivity.
    + destruct (isJson f) eqn:Hj; [|reflexivity].
      destruct (processing st !! f) eqn:E; [|reflexivity].
      exfalso. apply Hf, Hin. eauto.
  - intros f. rewrite Hi. case_bool_decide as Hf.
    + apply Hin in Hf. destruct Hf as [-> [c ->]]. reflexivity.
    + destruct (processing st !! f) eqn:E; [|reflexivity].
      destruct (isJson f) eqn:Hj; [|reflexivity].
      exfalso. apply Hf, Hin. eauto.
Qed.

(** X1. Startup recovery, completely: it always completes; the incoming
    directory it leaves is the old one with every [*.json] file of the
    processing directory put in, a stranded file replacing an incoming file
    of the same name; no [*.json] file is left in the processing directory
    and the other files stay; the outgoing directory and the tracking set
    are untouched; and running it again changes nothing. *)
Theorem startup_recovery_is_complete_and_idempotent (st : State W) :
  startup st = ((startup st).1, Ok tt)
  ∧ (∀ f, incoming (startup st).1 !! f =
          match processing st !! f with
          | Some c => if isJson f then Some c else incoming st !! f
          | None => incoming st !! f
          end)
  ∧ (∀ f, processing (startup st).1 !! f =
          if isJson f then None else processing st !! f)
  ∧ outgoing (startup st).1 = outgoing st
  ∧ queuedFiles (startup st).1 = queuedFiles st
  ∧ startup (startup st).1 = ((startup st).1, Ok tt).
Proof.
  destruct (startup_run st) as (Hrun & Hp & Hi & Ho & Hq).
  split; [exact Hrun|]. split; [exact Hi|]. split; [exact Hp|].
  split; [exact Ho|]. split; [exact Hq|].
  set (st1 := (startup st).1) in *.
  unfold startup, recoverOrphanedFiles, bind, get.
  assert (Hnil : filter (λ f, isJson f = true) (readdir (processing st1)) = []).
  { apply elem_of_nil_inv. intros f Hf.
    apply list_elem_of_filter in Hf. destruct Hf as [Hj Hf].
    apply QueueFacts.elem_of_readdir in Hf. rewrite Hp, Hj in Hf.
    destruct Hf as [? ?]. discriminate. }
  rewrite Hnil. reflexivity.
Qed.

(** *** One attempt *)

Lemma processBody_ok fuel f c (st st' : State W) :
  incoming st !! f = Some c →
  processBody fuel f st = (st', Ok tt) →
  ∃ m name r,
    c = MessageJson m
    ∧ outgoing st' = <[name := r]> (outgoing st)
    ∧ incoming st' = delete f (incoming st)
    ∧ processing st' = delete f (processing st)
    ∧ queuedFiles st' = queuedFiles st
    ∧ (name = f ∨ ∃ t, name = responseFileName m t)
    ∧ r_channel r = channel m ∧ r_sender r = sender m
    ∧ r_messageId r = messageId m ∧ r_originalMessage r = message m.
Proof.
  intros Hin. unfold processBody, bind at 1, renameToProcessing. rewrite Hin.
  set (s1 := setProcessing _ _).
  assert (Hs1 : processing s1 !! f = Some c) by (subst s1; cbn; apply lookup_insert_eq).
  unfold bind at 1, readMessage. rewrite Hs1. destruct c as [raw|m]; [discriminate|].
  destruct (String.eqb (rt_agentId (routeMessage m)) "error").
  - rewrite QueueFacts.sendEasterEgg_spec by eauto. intros [= <-].
    eexists m, f, _. split; [reflexivity|]. cbn.
    split; [reflexivity|]. split; [reflexivity|].
    split; [apply delete_insert_eq|]. split; [reflexivity|]. split; [left; reflexivity|].
    repeat split.
  - unfold bind at 1.
    destruct (resolveAgent (routeMessage m) m s1) as [s2 [[[id msg] cfg]|e'|]] eqn:ER;
      destruct (QueueFacts.resolveAgent_pure _ _ _ _ _ ER) as [-> Hnd]; [|discriminate..].
    unfold bind at 1.
    destruct (consumeResetFlags id s1) as [s3 [reset|e3|]] eqn:E3;
      destruct (QueueFacts.quiet_consumeResetFlags id _ _ _ E3) as [Hq3 Hn3]; [|discriminate..].
    unfold bind at 1.
    destruct (runExecutor fuel m id msg cfg _ reset s3) as [s4 [[resp acc]|e4|]] eqn:E4;
      destruct (QueueFacts.quiet_runExecutor _ _ _ _ _ _ _ _ _ _ E4) as [Hq4 Hn4];
      [|discriminate..].
    assert (Hq : queueOf s4 = queueOf s1) by congruence.
    unfold queueOf in Hq. injection Hq as Hi4 Hp4 Ho4 Hk4.
    rewrite QueueFacts.deliver_spec by (rewrite Hp4; eauto). cbn zeta. intros [= <-].
    cbn [outgoing incoming processing queuedFiles setProcessing setOutgoing].
    rewrite Hi4, Hp4, Ho4, Hk4. subst s1. cbn.
    eexists m, _, _. split; [reflexivity|].
    split; [reflexivity|]. split; [reflexivity|].
    split; [apply delete_insert_eq|]. split; [reflexivity|].
    split; [right; eexists; reflexivity|]. repeat split.
Qed.

(** X2. One attempt at a file of the incoming directory never rejects, and
    when it completes it has done one of two things. Either it has consumed
    the file: the file was a message, it is gone from the incoming and the
    processing directory, and exactly one response file was written, under
    the name of the incoming file (easter egg) or the response name of the
    message, carrying the channel, sender, message id and raw text of that
    message. Or it has written nothing and the incoming directory is as it
    was before the attempt, the file included. The tracking set is left to
    the caller in both cases. *)
Theorem processMessage_consumes_or_restores fuel f c (st st' : State W) o :
  incoming st !! f = Some c →
  processMessage fuel f st = (st', o) →
  (∀ e, o ≠ Throw e)
  ∧ (o = Ok tt →
     processing st' = delete f (processing st)
     ∧ queuedFiles st' = queuedFiles st
     ∧ ((∃ m name r,
           c = MessageJson m
           ∧ outgoing st' = <[name := r]> (outgoing st)
           ∧ incoming st' = delete f (incoming st)
           ∧ (name = f ∨ ∃ t, name = responseFileName m t)
           ∧ r_channel r = channel m ∧ r_sender r = sender m
           ∧ r_messageId r = messageId m ∧ r_originalMessage r = message m)
        ∨ (outgoing st' = outgoing st ∧ incoming st' = incoming st))).
Proof.
  intros Hin Hrun. split; [exact (QueueFacts.processMessage_never_throws _ _ _ _ _ Hrun)|].
  intros ->. revert Hrun. unfold processMessage, tryCatch.
  destruct (processBody fuel f st) as [s1 [[]|e1|]] eqn:E.
  - intros [= <-].
    destruct (processBody_ok _ _ _ _ _ Hin E)
      as (m & name & r & Hc & Ho & Hi & Hp & Hq & Hname & Hfields).
    split; [exact Hp|]. split; [exact Hq|]. left. exists m, name, r. tauto.
  - pose proof (QueueFacts.processBody_throws _ _ _ _ _ _ Hin E) as ->.
    rewrite (QueueFacts.moveBack_spec f c) by (cbn; apply lookup_insert_eq).
    intros [= <-]. cbn.
    split; [apply delete_insert_eq|]. split; [reflexivity|]. right.
    split; [reflexivity|]. rewrite insert_delete_eq. apply insert_id. exact Hin.
  - discriminate.
Qed.

(** *** The single-agent path *)

Lemma resolveAgent_configured r m cfg (st : State W) :
  lookupTable agents (rt_agentId r) = Some cfg →
  resolveAgent r m st = (st, Ok (rt_agentId r, rt_message r, cfg)).
Proof.
  intros H. unfold resolveAgent. rewrite H. cbn iota beta zeta. rewrite H.
  cbn iota beta zeta. rewrite H. reflexivity.
Qed.

Lemma consumeResetFlags_spec id (st : State W) :
  consumeResetFlags id st =
    (let reset := resetFlag st || bool_decide (id ∈ agentResetFlags st) in
     ((if reset
       then setAgentResetFlags (setResetFlag st false) (agentResetFlags st ∖ {[id]})
       else st), Ok reset)).
Proof.
  unfold consumeResetFlags, bind, get. cbn zeta.
  destruct (resetFlag st || bool_decide (id ∈ agentResetFlags st)); reflexivity.
Qed.

(** X3. A message for a configured agent outside any team. The attempt
    completes whatever the fuel. The agent is invoked exactly once, on the
    routed message, with a fresh conversation exactly when the global reset
    flag or the agent's own reset flag was set; afterwards the global flag
    is cleared and the agent's flag is gone. The response file is written
    under the response name of the message; it names the agent, and its
    text is the worker's answer, or the apology when the worker fails, put
    through the marker and length treatment with no file carried over. The
    file leaves both queue directories and no transcript is written. *)
Theorem single_agent_attempt fuel f m cfg (st : State W) :
  incoming st !! f = Some (MessageJson m) →
  rt_agentId (routeMessage m) ≠ "error" →
  lookupTable agents (rt_agentId (routeMessage m)) = Some cfg →
  teamContextFor (rt_isTeam (routeMessage m)) (rt_agentId (routeMessage m)) = None →
  let id := rt_agentId (routeMessage m) in
  let reset := resetFlag st || bool_decide (id ∈ agentResetFlags st) in
  let answer := invokeAgent (world st) cfg id (rt_message (routeMessage m)) reset in
  let final := match answer.2 with inl text => text | inr _ => agentError end in
  let finished := Marker.finishResponse (existsSync answer.1) [] final in
  ∃ st' name r,
    processMessage fuel f st = (st', Ok tt)
    ∧ invocations st' =
        invocations st ++ [{| i_agentId := id; i_message := rt_message (routeMessage m);
                              i_reset := reset |}]
    ∧ world st' = answer.1
    ∧ resetFlag st' = false
    ∧ (id ∉ agentResetFlags st')
    ∧ outgoing st' = <[name := r]> (outgoing st)
    ∧ (∃ t, name = responseFileName m t)
    ∧ r_agent r = Some id
    ∧ r_message r = finished.1
    ∧ r_files r = match finished.2 with [] => None | files => Some files end
    ∧ r_messageId r = messageId m
    ∧ incoming st' = delete f (incoming st)
    ∧ processing st' = delete f (processing st)
    ∧ chats st' = chats st.
Proof.
  intros Hin Herr Hcfg Hteam. cbn zeta.
  unfold processMessage, tryCatch, processBody.
  unfold bind at 1, renameToProcessing. rewrite Hin.
  set (s1 := setProcessing _ _).
  assert (Hs1 : processing s1 !! f = Some (MessageJson m))
    by (subst s1; cbn; apply lookup_insert_eq).
  unfold bind at 1, readMessage. rewrite Hs1.
  apply String.eqb_neq in Herr. rewrite Herr.
  unfold bind at 1. rewrite (resolveAgent_configured _ _ _ _ Hcfg). rewrite Hteam.
  unfold bind at 1. rewrite consumeResetFlags_spec. cbn zeta.
  set (id := rt_agentId (routeMessage m)).
  change (resetFlag s1) with (resetFlag st).
  change (agentResetFlags s1) with (agentResetFlags st).
  set (reset := resetFlag st || bool_decide (id ∈ agentResetFlags st)).
  set (s2 := if reset then _ else s1).
  assert (Hw2 : world s2 = world st) by (subst s2; destruct reset; reflexivity).
  assert (Hp2 : processing s2 = processing s1) by (subst s2; destruct reset; reflexivity).
  assert (Hi2 : incoming s2 = incoming s1) by (subst s2; destruct reset; reflexivity).
  assert (Ho2 : outgoing s2 = outgoing s1) by (subst s2; destruct reset; reflexivity).
  assert (Hc2 : chats s2 = chats s1) by (subst s2; destruct reset; reflexivity).
  assert (Hv2 : invocations s2 = invocations s1) by (subst s2; destruct reset; reflexivity).
  assert (Hr2 : resetFlag s2 = false).
  { subst s2. destruct reset eqn:Hr; [reflexivity|]. cbn.
    apply orb_false_iff in Hr. tauto. }
  assert (Hf2 : id ∉ agentResetFlags s2).
  { subst s2. destruct reset eqn:Hr; cbn.
    - rewrite elem_of_difference, elem_of_singleton. tauto.
    - apply orb_false_iff in Hr. destruct Hr as [_ Hr].
      apply bool_decide_eq_false in Hr. exact Hr. }
  clearbody s2.
  unfold runExecutor, bind at 1, bind at 1, tryCatch, callAgent. rewrite Hw2.
  destruct (invokeAgent (world st) cfg id (rt_message (routeMessage m)) reset)
    as [w [text|err]]; cbn [fst snd]; unfold ret; cbn iota beta;
    (rewrite QueueFacts.deliver_spec by (cbn; rewrite Hp2; eauto));
    cbn zeta; eexists _, _, _; (split; [reflexivity|]);
    cbn [invocations world resetFlag agentResetFlags outgoing incoming processing chats
         setProcessing setOutgoing setInvocations setWorld];
    rewrite ?Hv2, ?Ho2, ?Hi2, ?Hp2, ?Hc2; subst s1;
    cbn [invocations world resetFlag agentResetFlags outgoing incoming processing chats
         setProcessing setOutgoing setInvocations setWorld setIncoming];
    repeat match goal with |- _ ∧ _ => split end;
    first [ reflexivity | exact Hr2 | exact Hf2 | (eexists; reflexivity)
          | apply delete_insert_eq
          | (cbn [r_files]; destruct (Marker.finishResponse _ _ _).2; reflexivity) ].
Qed.

(** *** Which agents an attempt calls *)

Lemma callsOnly_silent {A} P (m : Fs.M W A) :
  (∀ st st' o, m st = (st', o) → invocations st' = invocations st) → callsOnly W P m.
Proof.
  intros H st st' o E. exists []. rewrite app_nil_r. split; [eauto|constructor].
Qed.

Lemma callsOnly_bind_post {A B} P (Q : A → Prop) (m : Fs.M W A) (k : A → Fs.M W B) :
  (∀ st st' a, m st = (st', Ok a) → Q a) →
  callsOnly W P m → (∀ a, Q a → callsOnly W P (k a)) → callsOnly W P (bind m k).
Proof.
  intros HQ Hm Hk st st' o. unfold bind.
  destruct (m st) as [s1 [a|e|]] eqn:E; destruct (Hm _ _ _ E) as (l1 & H1 & F1).
  - intros Hr. destruct (Hk a (HQ _ _ _ E) _ _ _ Hr) as (l2 & H2 & F2).
    exists (l1 ++ l2). rewrite H2, H1, app_assoc. split; [reflexivity|].
    apply Forall_app. tauto.
  - intros [= <- <-]. eauto.
  - intros [= <- <-]. eauto.
Qed.

Lemma callsOnly_bind {A B} P (m : Fs.M W A) (k : A → Fs.M W B) :
  callsOnly W P m → (∀ a, callsOnly W P (k a)) → callsOnly W P (bind m k).
Proof.
  intros Hm Hk. apply (callsOnly_bind_post P (λ _, True)); auto.
Qed.

Lemma callsOnly_tryCatch {A} P (m : Fs.M W A) (h : string → Fs.M W A) :
  callsOnly W P m → (∀ e, callsOnly W P (h e)) → callsOnly W P (tryCatch m h).
Proof.
  intros Hm Hh st st' o. unfold tryCatch.
  destruct (m st) as [s1 [a|e|]] eqn:E; destruct (Hm _ _ _ E) as (l1 & H1 & F1).
  - intros [= <- <-]. eauto.
  - intros Hr. destruct (Hh e _ _ _ Hr) as (l2 & H2 & F2).
    exists (l1 ++ l2). rewrite H2, H1, app_assoc. split; [reflexivity|].
    apply Forall_app. tauto.
  - intros [= <- <-]. eauto.
Qed.

Lemma callsOnly_if {A} P (b : bool) (m1 m2 : Fs.M W A) :
  callsOnly W P m1 → callsOnly W P m2 → callsOnly W P (if b then m1 else m2).
Proof. destruct b; auto. Qed.

Lemma callsOnly_callAgent (P : Invocation → Prop) cfg id msg reset :
  P {| i_agentId := id; i_message := msg; i_reset := reset |} →
  callsOnly W P (callAgent cfg id msg reset).
Proof.
  intros HP st st' o. unfold callAgent.
  destruct (invokeAgent (world st) cfg id msg reset) as [w [text|err]];
    intros [= <- <-]; (eexists; split; [reflexivity|]); repeat constructor; exact HP.
Qed.

Ltac silent :=
  apply callsOnly_silent; intros ? ? ?;
  unfold hasAgentResetFlag, unlinkAgentResetFlag, collectStepFiles, saveChatHistory,
    sendEasterEgg, deliver, moveBack, writeOutgoing, renameToProcessing,
    renameToIncoming, unlinkProcessing, readMessage, bind, tryCatch, get, modify,
    ret, throw, diverge;
  cbn; intros; repeat (case_match; simplify_eq/=); simplify_eq/=; reflexivity.

Lemma callsOnly_ret {A} P (a : A) : callsOnly W P (ret a).
Proof. silent. Qed.

Lemma callsOnly_hasAgentResetFlag P id : callsOnly W P (hasAgentResetFlag id).
Proof. silent. Qed.

Lemma callsOnly_unlinkAgentResetFlag P id : callsOnly W P (unlinkAgentResetFlag id).
Proof. silent. Qed.

Lemma callsOnly_collectStepFiles P text acc : callsOnly W P (collectStepFiles text acc).
Proof. silent. Qed.

Lemma callsOnly_saveChatHistory P teamId team m steps :
  callsOnly W P (saveChatHistory teamId team m steps).
Proof. silent. Qed.

Lemma callsOnly_consumeResetFlags P id : callsOnly W P (consumeResetFlags id).
Proof.
  apply callsOnly_silent. intros st st' o. rewrite consumeResetFlags_spec. cbn zeta.
  intros [= <- <-]. destruct (_ || _); reflexivity.
Qed.

Lemma callsOnly_renameToProcessing P f : callsOnly W P (renameToProcessing f).
Proof. silent. Qed.

Lemma callsOnly_readMessage P f : callsOnly W P (readMessage f).
Proof. silent. Qed.

Lemma callsOnly_sendEasterEgg P f m text : callsOnly W P (sendEasterEgg f m text).
Proof. silent. Qed.

Lemma callsOnly_deliver P f m id final files : callsOnly W P (deliver f m id final files).
Proof. silent. Qed.

Lemma callsOnly_moveBack P f : callsOnly W P (moveBack f).
Proof. silent. Qed.

Lemma callsOnly_resolveAgent P r m : callsOnly W P (resolveAgent r m).
Proof.
  apply callsOnly_silent. intros st st' o E.
  apply QueueFacts.resolveAgent_pure in E. destruct E as [-> _]. reflexivity.
Qed.

Lemma resolveAgent_result r m (st st' : State W) id msg cfg :
  resolveAgent r m st = (st', Ok (id, msg, cfg)) → lookupTable agents id = Some cfg.
Proof.
  unfold resolveAgent.
  destruct (lookupTable agents (rt_agentId r)) as [c1|] eqn:E1; cbn iota beta zeta.
  - rewrite E1. cbn iota beta. rewrite E1. intros [= _ <- _ <-]. exact E1.
  - destruct (lookupTable agents "default") as [c2|] eqn:E2; cbn iota beta.
    + rewrite E2. intros [= _ <- _ <-]. exact E2.
    + destruct (head (map fst agents)) as [k|]; [|discriminate].
      destruct (lookupTable agents k) as [c3|] eqn:E3; [|discriminate].
      intros [= _ <- _ <-]. exact E3.
Qed.

#[local] Hint Resolve callsOnly_ret callsOnly_hasAgentResetFlag
  callsOnly_unlinkAgentResetFlag callsOnly_collectStepFiles callsOnly_saveChatHistory
  callsOnly_consumeResetFlags callsOnly_renameToProcessing callsOnly_readMessage
  callsOnly_sendEasterEgg callsOnly_deliver callsOnly_moveBack callsOnly_resolveAgent
  : calls.

Ltac calls_step :=
  first [ solve [auto with calls]
        | apply callsOnly_bind; [|intros]
        | apply callsOnly_if ].

Lemma callsOnly_fanOutOne cur mention :
  callsOnly W toConfigured (fanOutOne cur mention).
Proof.
  unfold fanOutOne. destruct (lookupTable agents (teammateId mention)) eqn:E;
    repeat calls_step.
  apply callsOnly_tryCatch; [|intros; auto with calls].
  apply callsOnly_callAgent. unfold toConfigured, configured. cbn. rewrite E. eauto.
Qed.

Lemma callsOnly_mapM {A B} P (g : A → Fs.M W B) (l : list A) :
  (∀ a, callsOnly W P (g a)) → callsOnly W P (mapM g l).
Proof. intros Hg. induction l; cbn [mapM]; repeat calls_step; auto. Qed.

Lemma callsOnly_pushFanOut P results steps acc :
  callsOnly W P (pushFanOut results steps acc).
Proof.
  revert steps acc. induction results as [|r rest IH]; intros; cbn [pushFanOut];
    repeat calls_step.
Qed.

Lemma callsOnly_chainLoop fuel teamId shouldReset steps cur msg acc :
  callsOnly W toConfigured (chainLoop fuel teamId shouldReset steps cur msg acc).
Proof.
  revert steps cur msg acc. induction fuel as [|fuel IH]; intros; cbn [chainLoop].
  - silent.
  - destruct (lookupTable agents cur) eqn:E; [|auto with calls].
    apply callsOnly_bind; [auto with calls|intros flag].
    apply callsOnly_bind; [apply callsOnly_if; auto with calls|intros _].
    apply callsOnly_bind.
    { apply callsOnly_tryCatch; [|intros; auto with calls].
      apply callsOnly_callAgent. unfold toConfigured, configured. cbn. rewrite E. eauto. }
    intros stepResponse. apply callsOnly_bind; [auto with calls|intros acc1].
    destruct (extractTeammateMentions _ _ _) as [|m1 [|m2 ms]].
    + auto with calls.
    + apply IH.
    + apply callsOnly_bind; [apply callsOnly_mapM; intros; apply callsOnly_fanOutOne|].
      intros. apply callsOnly_pushFanOut.
Qed.

Lemma callsOnly_processMessage fuel f :
  callsOnly W toConfigured (processMessage fuel f).
Proof.
  unfold processMessage. apply callsOnly_tryCatch; [|intros; auto with calls].
  unfold processBody. apply callsOnly_bind; [auto with calls|intros _].
  apply callsOnly_bind; [auto with calls|intros m].
  apply callsOnly_if; [auto with calls|].
  apply (callsOnly_bind_post _ (λ '(id, msg, cfg), lookupTable agents id = Some cfg)).
  { intros st st' [[id msg] cfg]. apply resolveAgent_result. }
  { auto with calls. }
  intros [[id msg] cfg] Hcfg.
  apply callsOnly_bind; [auto with calls|intros reset].
  apply callsOnly_bind; [|intros [final files]; auto with calls].
  unfold runExecutor. destruct (teamContextFor _ _) as [[teamId team]|].
  - apply callsOnly_bind; [apply callsOnly_chainLoop|]. intros [steps acc].
    repeat calls_step.
  - apply callsOnly_bind; [|intros; auto with calls].
    apply callsOnly_tryCatch; [|intros; auto with calls].
    apply callsOnly_callAgent. unfold toConfigured, configured. cbn. rewrite Hcfg. eauto.
Qed.

(** X4. Calls go to configured agents only. Take a message and settings in
    which no agent id that the dispatcher looks up in the settings table is
    a property name of [Object.prototype], so that [lookupTable] is the
    read [agents[id]] of the code: not the pre-routed [agent] of the
    message, not the id that [parseAgentRouting] returns for it, not a
    teammate returned by [extractTeammateMentions]. Then, whatever the fuel
    and the way the attempt ends, the attempt only extends the record of
    agent calls, and every call it makes is to an agent id of the settings
    table: the fallbacks of the single-agent path, the chain loop and the
    fan-out never invoke an id that is not configured. *)
Theorem attempt_calls_only_configured_agents fuel f (st : State W) :
  (∀ m a, incoming st !! f = Some (MessageJson m) → agent m = Some a →
          isPrototypeKey a = false) →
  (∀ m, incoming st !! f = Some (MessageJson m) →
        isPrototypeKey (rt_agentId (parseAgentRouting (message m))) = false) →
  (∀ response cur teamId mention,
     mention ∈ extractTeammateMentions response cur teamId →
     isPrototypeKey (teammateId mention) = false) →
  ∃ more,
    invocations (processMessage fuel f st).1 = invocations st ++ more
    ∧ Forall (λ i, is_Some (lookupTable agents (i_agentId i))) more.
Proof.
  intros _ _ _.
  destruct (processMessage fuel f st) as [st' o] eqn:E.
  exact (callsOnly_processMessage fuel f _ _ _ E).
Qed.

(** *** The shape of a chain *)

Lemma fanOut_answers cur (mentions : list Mention) (st st' : State W) results :
  mapM (fanOutOne cur) mentions st = (st', Ok results) →
  Forall2 answersMention results mentions.
Proof.
  revert st st' results.
  induction mentions as [|mention rest IH]; intros st st' results; cbn [mapM].
  - intros [= _ <-]. constructor.
  - unfold bind at 1.
    destruct (fanOutOne cur mention st) as [s1 [step|e|]] eqn:E1; try discriminate.
    unfold bind at 1.
    destruct (mapM (fanOutOne cur) rest s1) as [s2 [steps|e|]] eqn:E2; try discriminate.
    intros [= _ <-]. constructor; [|eapply IH; exact E2].
    revert E1. unfold fanOutOne, answersMention.
    destruct (lookupTable agents (teammateId mention)) as [cfg|].
    + unfold bind at 1. destruct (hasAgentResetFlag _ st) as [t1 [flag|e|]]; try discriminate.
      unfold bind at 1.
      match goal with |- context [(if ?b then _ else _) t1] =>
        destruct ((if b then unlinkAgentResetFlag (teammateId mention) else ret tt) t1)
          as [t2 [[]|e|]]
      end; try discriminate.
      unfold bind at 1.
      match goal with |- context [tryCatch ?a ?b t2] =>
        destruct (tryCatch a b t2) as [t3 [resp|e|]]
      end; try discriminate.
      intros [= _ <-]. cbn. split; [reflexivity|discriminate].
    + intros [= _ <-]. cbn. split; reflexivity.
Qed.

Lemma chainLoop_shape fuel teamId shouldReset steps cur msg acc (st st' : State W)
    steps' acc' :
  chainLoop fuel teamId shouldReset steps cur msg acc st = (st', Ok (steps', acc')) →
  ∃ more, steps' = steps ++ more
    ∧ chainShape teamId more
    ∧ match more with
      | [] => lookupTable agents cur = None
      | first :: _ => agentId first = cur ∧ configured cur
      end.
Proof.
  revert steps cur msg acc st. induction fuel as [|fuel IH]; intros steps cur msg acc st;
    cbn [chainLoop]; [discriminate|].
  destruct (lookupTable agents cur) as [cfg|] eqn:Hcur.
  - unfold bind at 1. destruct (hasAgentResetFlag cur st) as [s1 [flag|e|]]; try discriminate.
    unfold bind at 1.
    match goal with |- context [(if ?b then _ else _) s1] =>
      destruct ((if b then unlinkAgentResetFlag cur else ret tt) s1) as [s2 [[]|e|]]
    end; try discriminate.
    unfold bind at 1.
    match goal with |- context [tryCatch ?a ?b s2] =>
      destruct (tryCatch a b s2) as [s3 [stepResponse|e|]]
    end; try discriminate.
    unfold bind at 1.
    destruct (collectStepFiles stepResponse acc s3) as [s4 [acc1|e|]]; try discriminate.
    set (s := {| agentId := cur; response := stepResponse |}).
    assert (Hconf : configured cur) by (unfold configured; rewrite Hcur; eauto).
    destruct (extractTeammateMentions stepResponse cur teamId) as [|m1 [|m2 ms]] eqn:Hm.
    + intros [= _ <- _]. exists [s]. split; [reflexivity|].
      split; [|split; [reflexivity|exact Hconf]].
      cbn. rewrite Hm. reflexivity.
    + intros H. apply IH in H. destruct H as (more & -> & Hshape & Hhead).
      exists (s :: more). split; [rewrite <- app_assoc; reflexivity|].
      split; [|split; [reflexivity|exact Hconf]].
      cbn [chainShape]. cbn [response agentId s]. rewrite Hm.
      destruct more as [|next more]; [exact Hhead|].
      destruct Hhead as [Hnext Hc]. split; [exact Hnext|]. split; [exact Hc|exact Hshape].
    + unfold bind at 1.
      destruct (mapM _ _ s4) as [s5 [results|e|]] eqn:Hfan; try discriminate.
      intros H. apply QueueFacts.pushFanOut_steps in H. subst steps'.
      exists (s :: results). split; [rewrite <- app_assoc; reflexivity|].
      split; [|split; [reflexivity|exact Hconf]].
      cbn [chainShape]. cbn [response agentId s]. rewrite Hm.
      eapply fanOut_answers. exact Hfan.
  - intros [= _ <- _]. exists []. split; [rewrite app_nil_r; reflexivity|].
    split; [exact I|reflexivity].
Qed.

(** A chain has no bound of its own. *)
Lemma chainLoop_never_ends teamId :
  (∀ response cur, ∃ mention,
     extractTeammateMentions response cur teamId = [mention]
     ∧ configured (teammateId mention)) →
  ∀ fuel shouldReset steps cur msg acc (st : State W),
    configured cur →
    (chainLoop fuel teamId shouldReset steps cur msg acc st).2 = Diverge.
Proof.
  intros Hmention fuel. induction fuel as [|fuel IH]; intros shouldReset steps cur msg acc st
    [cfg Hcfg]; cbn [chainLoop]; [reflexivity|].
  rewrite Hcfg.
  unfold bind at 1. destruct (hasAgentResetFlag cur st) as [s1 [flag|e|]] eqn:E1;
    destruct (QueueFacts.quiet_hasAgentResetFlag cur _ _ _ E1) as [_ Hn1];
    [|exfalso; exact (Hn1 _ eq_refl)|reflexivity].
  unfold bind at 1.
  match goal with |- context [(if ?b then _ else _) s1] =>
    destruct ((if b then unlinkAgentResetFlag cur else ret tt) s1) as [s2 [[]|e|]] eqn:E2;
    [|exfalso; destruct b; cbn in E2; discriminate E2|reflexivity]
  end.
  unfold bind at 1.
  match goal with |- context [tryCatch ?a ?b s2] =>
    destruct (tryCatch a b s2) as [s3 [stepResponse|e|]] eqn:E3
  end; [|exfalso; exact (proj2 (QueueFacts.quiet_callAgent_caught _ _ _ _ _ _ _ _ E3) _ eq_refl)
        |reflexivity].
  unfold bind at 1.
  destruct (collectStepFiles stepResponse acc s3) as [s4 [acc1|e|]] eqn:E4;
    destruct (QueueFacts.quiet_collectStepFiles _ _ _ _ _ E4) as [_ Hn4];
    [|exfalso; exact (Hn4 _ eq_refl)|reflexivity].
  destruct (Hmention stepResponse cur) as (mention & -> & Hconf).
  apply IH, Hconf.
Qed.

(** X5. The steps a chain records follow the mentions. When the chain loop
    returns, started with no step for agent [cur], the recorded steps begin
    with the step of [cur] (there is none exactly when [cur] is not
    configured), and from there on: a response that mentions no teammate
    ends the chain; a response that mentions one teammate is followed by
    that teammate's step, or ends the chain when the teammate is not
    configured; a response that mentions several is followed by one result
    per mention, in the order of the mentions, a mention of an agent that is
    not configured giving the [Error: agent ... not found] text, and the
    chain ends there. *)
Theorem chain_follows_mentions fuel teamId shouldReset cur msg (st st' : State W)
    steps files :
  chainLoop fuel teamId shouldReset [] cur msg [] st = (st', Ok (steps, files)) →
  chainShape teamId steps
  ∧ (steps = [] ↔ lookupTable agents cur = None)
  ∧ (∀ first rest, steps = first :: rest → agentId first = cur).
Proof.
  intros H. apply chainLoop_shape in H. destruct H as (more & Hsteps & Hshape & Hhead).
  cbn in Hsteps. subst more. split; [exact Hshape|].
  destruct steps as [|first rest].
  - split; [tauto|]. intros first rest [=].
  - destruct Hhead as [Hfirst [cfg Hcfg]]. split.
    + split; [discriminate|]. rewrite Hcfg. discriminate.
    + intros ? ? [= <- <-]. exact Hfirst.
Qed.

(** X22. A chain has no step limit. In a team where every response
    mentions exactly one configured teammate, the chain loop started at a
    configured agent never returns, whatever bound is put on the number of
    steps, and so the attempt at a message for such a team never
    completes: no response is written. *)
Theorem mutual_mentions_never_finish fuel f m cfg teamId team (st : State W) :
  (∀ response cur, ∃ mention,
     extractTeammateMentions response cur teamId = [mention]
     ∧ configured (teammateId mention)) →
  incoming st !! f = Some (MessageJson m) →
  rt_agentId (routeMessage m) ≠ "error" →
  lookupTable agents (rt_agentId (routeMessage m)) = Some cfg →
  teamContextFor (rt_isTeam (routeMessage m)) (rt_agentId (routeMessage m))
    = Some (teamId, team) →
  (processMessage fuel f st).2 = Diverge
  ∧ outgoing (processMessage fuel f st).1 = outgoing st.
Proof.
  intros Hmention Hin Herr Hcfg Hteam.
  cut (∃ st', processMessage fuel f st = (st', Diverge) ∧ outgoing st' = outgoing st).
  { intros (st' & -> & Ho). split; [reflexivity|exact Ho]. }
  unfold processMessage, tryCatch, processBody.
  unfold bind at 1, renameToProcessing. rewrite Hin.
  set (s1 := setProcessing _ _).
  assert (Hs1 : processing s1 !! f = Some (MessageJson m))
    by (subst s1; cbn; apply lookup_insert_eq).
  unfold bind at 1, readMessage. rewrite Hs1.
  apply String.eqb_neq in Herr. rewrite Herr.
  unfold bind at 1. rewrite (resolveAgent_configured _ _ _ _ Hcfg). rewrite Hteam.
  unfold bind at 1. rewrite consumeResetFlags_spec. cbn zeta.
  set (reset := resetFlag s1 || _). set (s2 := if reset then _ else s1).
  assert (Ho2 : outgoing s2 = outgoing st) by (subst s2; destruct reset; reflexivity).
  clearbody s2.
  unfold runExecutor, bind at 1, bind at 1.
  pose proof (chainLoop_never_ends teamId Hmention fuel reset []
                (rt_agentId (routeMessage m)) (rt_message (routeMessage m)) [] s2
                ltac:(unfold configured; rewrite Hcfg; eauto)) as Hdiv.
  destruct (chainLoop fuel teamId reset [] _ _ [] s2) as [s3 o] eqn:Hloop.
  cbn in Hdiv. subst o.
  destruct (QueueFacts.quiet_chainLoop _ _ _ _ _ _ _ _ _ _ Hloop) as [Hq _].
  cbn. exists s3. split; [reflexivity|].
  transitivity (outgoing s2); [|exact Ho2]. unfold queueOf in Hq. congruence.
Qed.

(** *** One tick of the polling loop *)

Lemma peekAgentId_incoming (st1 st2 : State W) f :
  incoming st1 = incoming st2 → peekAgentId st1 f = peekAgentId st2 f.
Proof. unfold peekAgentId. intros ->. reflexivity. Qed.

Lemma enqueueFiles_tracked (l : list string) (st : State W) :
  (∀ f, f ∈ l → f ∈ queuedFiles st) → enqueueFiles l st = (st, []).
Proof.
  induction l as [|f l IH]; intros H; cbn [enqueueFiles]; [reflexivity|].
  rewrite bool_decide_eq_true_2 by (apply H, list_elem_of_here).
  apply IH. intros g Hg. apply H, list_elem_of_further, Hg.
Qed.

Lemma union_cons_tracked (Q : gset string) f (l : list string) :
  f ∈ Q → Q ∪ list_to_set l = Q ∪ list_to_set (f :: l).
Proof.
  intros Hf. apply set_eq. intros x.
  rewrite list_to_set_cons, !elem_of_union, elem_of_singleton.
  split; [tauto|]. intros [H|[->|H]]; tauto.
Qed.

Lemma union_cons_new (Q : gset string) f (l : list string) :
  ({[f]} ∪ Q) ∪ list_to_set l = Q ∪ list_to_set (f :: l).
Proof.
  apply set_eq. intros x.
  rewrite list_to_set_cons, !elem_of_union, elem_of_singleton. tauto.
Qed.

Lemma enqueueFiles_spec (l : list string) (st : State W) :
  incoming (enqueueFiles l st).1 = incoming st
  ∧ processing (enqueueFiles l st).1 = processing st
  ∧ outgoing (enqueueFiles l st).1 = outgoing st
  ∧ queuedFiles (enqueueFiles l st).1 = queuedFiles st ∪ list_to_set l
  ∧ NoDup (enqueueFiles l st).2.*2
  ∧ (enqueueFiles l st).2.*2 `sublist_of` l
  ∧ (∀ f, f ∈ (enqueueFiles l st).2.*2 ↔ f ∈ l ∧ f ∉ queuedFiles st)
  ∧ (∀ key f, (key, f) ∈ (enqueueFiles l st).2 → key = peekAgentId st f).
Proof.
  revert st. induction l as [|f l IH]; intros st; cbn [enqueueFiles].
  - cbn. split; [reflexivity|]. split; [reflexivity|]. split; [reflexivity|].
    split; [symmetry; apply union_empty_r_L|]. split; [constructor|].
    split; [constructor|]. split.
    + intros f. rewrite elem_of_nil. tauto.
    + intros key f Hin. inversion Hin.
  - case_bool_decide as Hf.
    + destruct (IH st) as (Hi & Hp & Ho & Hq & Hn & Hs & Hm & Hk).
      split; [exact Hi|]. split; [exact Hp|]. split; [exact Ho|].
      split; [rewrite Hq; apply union_cons_tracked, Hf|]. split; [exact Hn|].
      split; [apply sublist_cons, Hs|]. split; [|exact Hk].
      intros g. rewrite Hm, elem_of_cons. split; [tauto|].
      intros [[->|Hg] Hng]; [contradiction|tauto].
    + set (st1 := setQueuedFiles st ({[f]} ∪ queuedFiles st)).
      destruct (IH st1) as (Hi & Hp & Ho & Hq & Hn & Hs & Hm & Hk).
      destruct (enqueueFiles l st1) as [st2 tasks]. cbn [fst snd] in *.
      split; [exact Hi|]. split; [exact Hp|]. split; [exact Ho|].
      split; [rewrite Hq; subst st1; cbn; apply union_cons_new|].
      rewrite fmap_cons. cbn [snd].
      split.
      { constructor; [|exact Hn]. rewrite Hm. subst st1. cbn.
        rewrite elem_of_union, elem_of_singleton. tauto. }
      split; [apply sublist_skip, Hs|]. split.
      * intros g. rewrite !elem_of_cons, Hm. subst st1. cbn.
        rewrite elem_of_union, elem_of_singleton.
        destruct (decide (g = f)) as [->|Hne]; tauto.
      * intros key g. rewrite elem_of_cons. intros [[= -> ->]|Hin].
        -- apply peekAgentId_incoming. reflexivity.
        -- rewrite (Hk _ _ Hin). apply peekAgentId_incoming. reflexivity.
Qed.

(** X6. One tick of the polling loop, on any listing of the incoming
    directory. The tick starts a task for exactly the listed files that are
    not tracked yet, each once, in the order of the listing, and keys each
    task by the agent the file is routed to; afterwards every listed file is
    tracked and nothing else is added; the queue directories are not
    touched; and a second tick on the same listing, before any task has
    settled, starts nothing. *)
Theorem tick_enqueues_each_untracked_file_once (l : list string) (st : State W) :
  NoDup (enqueueFiles l st).2.*2
  ∧ (enqueueFiles l st).2.*2 `sublist_of` l
  ∧ (∀ f, f ∈ (enqueueFiles l st).2.*2 ↔ f ∈ l ∧ f ∉ queuedFiles st)
  ∧ (∀ key f, (key, f) ∈ (enqueueFiles l st).2 → key = peekAgentId st f)
  ∧ queuedFiles (enqueueFiles l st).1 = queuedFiles st ∪ list_to_set l
  ∧ incoming (enqueueFiles l st).1 = incoming st
  ∧ processing (enqueueFiles l st).1 = processing st
  ∧ outgoing (enqueueFiles l st).1 = outgoing st
  ∧ enqueueFiles l (enqueueFiles l st).1 = ((enqueueFiles l st).1, []).
Proof.
  destruct (enqueueFiles_spec l st) as (Hi & Hp & Ho & Hq & Hn & Hs & Hm & Hk).
  repeat (split; [assumption|]).
  apply enqueueFiles_tracked. intros f Hf. rewrite Hq, elem_of_union, elem_of_list_to_set.
  tauto.
Qed.

(** X7. A file whose attempt throws is retried on every tick. For a file of
    the incoming directory that is no JSON, or that holds a message for an
    agent when no agent is configured, the task settles: no agent was
    called, no response was written, the incoming directory is as before,
    file included, and the file is no longer tracked, so the next tick that
    lists the file starts a task for it again. *)
Theorem failing_file_is_enqueued_again fuel f c (st : State W) :
  incoming st !! f = Some c →
  (∃ raw, c = Malformed raw)
  ∨ (∃ m, c = MessageJson m ∧ rt_agentId (routeMessage m) ≠ "error" ∧ agents = []) →
  ∃ st', runTask fuel Fulfilled f st = (st', Some Fulfilled)
    ∧ incoming st' = incoming st
    ∧ outgoing st' = outgoing st
    ∧ invocations st' = invocations st
    ∧ (f ∉ queuedFiles st')
    ∧ (enqueueFiles [f] st').2 = [(peekAgentId st f, f)].
Proof.
  intros Hin Hbad.
  apply (QueueFacts.processBody_throws_iff fuel f c st Hin) in Hbad.
  destruct Hbad as (s1 & e & Hthrow).
  pose proof (QueueFacts.processBody_throws _ _ _ _ _ _ Hin Hthrow) as Hs1.
  unfold runTask, andThen, thenDo, settle, processMessage, tryCatch in *.
  rewrite Hthrow in *. subst s1.
  rewrite (QueueFacts.moveBack_spec f c) in * by (cbn; apply lookup_insert_eq).
  cbn. eexists. split; [reflexivity|]. cbn.
  assert (Hsame : <[f:=c]> (delete f (incoming st)) = incoming st).
  { rewrite insert_delete_eq. apply insert_id. exact Hin. }
  split; [exact Hsame|]. split; [reflexivity|]. split.
  { reflexivity. }
  assert (Hnot : f ∉ queuedFiles st ∖ {[f]})
    by (rewrite elem_of_difference, elem_of_singleton; tauto).
  split; [exact Hnot|].
  rewrite bool_decide_eq_false_2 by exact Hnot. cbn.
  f_equal. f_equal. apply peekAgentId_incoming. cbn. exact Hsame.
Qed.

End WithCollaborators.

(** *** The theorems at the seed scenarios *)

(** X2 at the message [hello]: the attempt consumes the file. *)
Lemma processMessage_consumes_or_restores_witness :
  incoming Cases.hello !! "m.json" = Some (MessageJson (Demo.messageOf "hello"))
  ∧ processMessage 3 "m.json" Cases.hello
    = ((processMessage 3 "m.json" Cases.hello).1, Ok tt)
  ∧ processing (processMessage 3 "m.json" Cases.hello).1
    = delete "m.json" (processing Cases.hello).
Proof.
  assert (Hin : incoming Cases.hello !! "m.json"
                = Some (MessageJson (Demo.messageOf "hello")))
    by (vm_compute; reflexivity).
  assert (Hrun : processMessage 3 "m.json" Cases.hello
                 = ((processMessage 3 "m.json" Cases.hello).1, Ok tt))
    by (vm_compute; reflexivity).
  split; [exact Hin|]. split; [exact Hrun|].
  destruct (processMessage_consumes_or_restores 3 "m.json" _ Cases.hello _ _ Hin Hrun)
    as [_ H].
  exact (proj1 (H eq_refl)).
Defined.

(** X3 at the message [hello]: one call of [default], which echoes. *)
Lemma single_agent_attempt_witness :
  incoming Cases.hello !! "m.json" = Some (MessageJson (Demo.messageOf "hello"))
  ∧ rt_agentId (routeMessage (Demo.messageOf "hello")) ≠ "error"
  ∧ lookupTable agents (rt_agentId (routeMessage (Demo.messageOf "hello")))
    = Some (Demo.agentOf "Default")
  ∧ teamContextFor (rt_isTeam (routeMessage (Demo.messageOf "hello")))
      (rt_agentId (routeMessage (Demo.messageOf "hello"))) = None
  ∧ ∃ st' name r,
      processMessage 3 "m.json" Cases.hello = (st', Ok tt)
      ∧ outgoing st' = <[name := r]> (outgoing Cases.hello)
      ∧ r_agent r = Some "default"
      ∧ r_message r = "hello"
      ∧ invocations st'
        = [{| i_agentId := "default"; i_message := "hello"; i_reset := false |}].
Proof.
  assert (Hin : incoming Cases.hello !! "m.json"
                = Some (MessageJson (Demo.messageOf "hello")))
    by (vm_compute; reflexivity).
  assert (Herr : rt_agentId (routeMessage (Demo.messageOf "hello")) ≠ "error")
    by (vm_compute; discriminate).
  assert (Hcfg : lookupTable agents (rt_agentId (routeMessage (Demo.messageOf "hello")))
                 = Some (Demo.agentOf "Default"))
    by (vm_compute; reflexivity).
  assert (Hteam : teamContextFor (rt_isTeam (routeMessage (Demo.messageOf "hello")))
                    (rt_agentId (routeMessage (Demo.messageOf "hello"))) = None)
    by (vm_compute; reflexivity).
  split; [exact Hin|]. split; [exact Herr|]. split; [exact Hcfg|]. split; [exact Hteam|].
  pose proof (single_agent_attempt 3 "m.json" _ _ Cases.hello Hin Herr Hcfg Hteam) as H.
  destruct H as (st' & name & r & Hrun & Hinv & _ & _ & _ & Hout & _ & Hagent & Hmsg & _).
  exists st', name, r. split; [exact Hrun|]. split; [exact Hout|].
  split; [rewrite Hagent; vm_compute; reflexivity|].
  split; [rewrite Hmsg; vm_compute; reflexivity|].
  rewrite Hinv. vm_compute. reflexivity.
Defined.

(** X4 at a message for the team [eng]: [alice] is called, then [bob]. *)
Lemma attempt_calls_only_configured_agents_witness :
  map i_agentId (invocations (processMessage 3 "m.json" Cases.teamMessage).1)
    = ["alice"; "bob"]
  ∧ ∃ more,
      invocations (processMessage 3 "m.json" Cases.teamMessage).1
        = invocations Cases.teamMessage ++ more
      ∧ Forall (λ i, is_Some (lookupTable agents (i_agentId i))) more.
Proof.
  split; [vm_compute; reflexivity|].
  apply (attempt_calls_only_configured_agents 3 "m.json" Cases.teamMessage).
  - intros m a Hm Ha. vm_compute in Hm. injection Hm as <-. discriminate Ha.
  - intros m Hm. vm_compute in Hm. injection Hm as <-. vm_compute. reflexivity.
  - intros response cur teamId mention Hin. cbn in Hin. unfold Demo.mentions in Hin.
    destruct (String.eqb cur "alice"); [|inversion Hin].
    destruct (Js.stripPrefix "@bob " response); [|inversion Hin].
    apply list_elem_of_singleton in Hin. subst mention. reflexivity.
Defined.

(** X5 at the chain of the team [eng]: [alice] mentions [bob], who mentions
    nobody. *)
Lemma chain_follows_mentions_witness :
  chainLoop 3 "eng" false [] "alice" "start" [] Demo.inFlight
    = ((chainLoop 3 "eng" false [] "alice" "start" [] Demo.inFlight).1,
       Ok ([{| agentId := "alice"; response := "@bob please continue" |};
            {| agentId := "bob"; response := "done" |}], []))
  ∧ chainShape "eng" [{| agentId := "alice"; response := "@bob please continue" |};
                      {| agentId := "bob"; response := "done" |}].
Proof.
  assert (Hrun : chainLoop 3 "eng" false [] "alice" "start" [] Demo.inFlight
                 = ((chainLoop 3 "eng" false [] "alice" "start" [] Demo.inFlight).1,
                    Ok ([{| agentId := "alice"; response := "@bob please continue" |};
                         {| agentId := "bob"; response := "done" |}], [])))
    by (vm_compute; reflexivity).
  split; [exact Hrun|].
  exact (proj1 (chain_follows_mentions 3 "eng" false "alice" "start" Demo.inFlight _ _ _ Hrun)).
Defined.

(** X22 at two agents that always hand over to each other. *)
Lemma mutual_mentions_never_finish_witness :
  (∀ response cur, ∃ mention,
     @extractTeammateMentions unit Cases.pingPong response cur "duo" = [mention]
     ∧ @configured unit Cases.pingPong (teammateId mention))
  ∧ incoming Cases.duoMessage !! "m.json" = Some (MessageJson (Demo.messageOf "@duo go"))
  ∧ (@processMessage unit Cases.pingPong 50 "m.json" Cases.duoMessage).2 = Diverge
  ∧ outgoing (@processMessage unit Cases.pingPong 50 "m.json" Cases.duoMessage).1 = ∅.
Proof.
  assert (Hmention : ∀ response cur, ∃ mention,
            @extractTeammateMentions unit Cases.pingPong response cur "duo" = [mention]
            ∧ @configured unit Cases.pingPong (teammateId mention)).
  { intros response cur. eexists. split; [reflexivity|]. cbn.
    destruct (String.eqb cur "ping"); (eexists; vm_compute; reflexivity). }
  assert (Hin : incoming Cases.duoMessage !! "m.json"
                = Some (MessageJson (Demo.messageOf "@duo go")))
    by (vm_compute; reflexivity).
  split; [exact Hmention|]. split; [exact Hin|].
  exact (@mutual_mentions_never_finish unit Cases.pingPong 50 "m.json" _
           (Demo.agentOf "Ping") "duo"
           {| t_name := "Duo"; t_agents := ["ping"; "pong"]; t_leader_agent := "ping" |}
           Cases.duoMessage Hmention Hin
           ltac:(vm_compute; discriminate) ltac:(vm_compute; reflexivity)
           ltac:(vm_compute; reflexivity)).
Defined.

(** X7 at a file that is no JSON. *)
Lemma failing_file_is_enqueued_again_witness :
  incoming Demo.badFile !! "bad.json" = Some (Malformed "{oops")
  ∧ ((∃ raw, Malformed "{oops" = Malformed raw)
     ∨ (∃ m, Malformed "{oops" = MessageJson m
             ∧ rt_agentId (routeMessage m) ≠ "error" ∧ agents = []))
  ∧ ∃ st', runTask 2 Fulfilled "bad.json" Demo.badFile = (st', Some Fulfilled)
      ∧ incoming st' = incoming Demo.badFile
      ∧ (enqueueFiles ["bad.json"] st').2 = [("default", "bad.json")].
Proof.
  assert (Hin : incoming Demo.badFile !! "bad.json" = Some (Malformed "{oops"))
    by (vm_compute; reflexivity).
  assert (Hbad : (∃ raw, Malformed "{oops" = Malformed raw)
                 ∨ (∃ m, Malformed "{oops" = MessageJson m
                         ∧ rt_agentId (routeMessage m) ≠ "error" ∧ agents = []))
    by (left; eexists; reflexivity).
  split; [exact Hin|]. split; [exact Hbad|].
  pose proof (failing_file_is_enqueued_again 2 "bad.json" _ Demo.badFile Hin Hbad) as H.
  destruct H as (st' & Hrun & Hi & _ & _ & _ & Hnext).
  exists st'. split; [exact Hrun|]. split; [exact Hi|].
  rewrite Hnext. vm_compute. reflexivity.
Defined.

End DispatchFacts.

(** ** Responses: size, attachments and marker-free text *)
Module ResponseFacts.
Import Dispatcher.

Section WithCollaborators.
Context {W : Type} `{C : Collaborators W}.

Lemma truncateResponse_length s : String.length (Marker.truncateResponse s) ≤ 4000.
Proof.
  unfold Marker.truncateResponse. destruct (4000 <? String.length s) eqn:E.
  - rewrite JsFacts.length_app, JsFacts.length_take.
    change (String.length Marker.truncationNotice) with 25. lia.
  - apply Nat.ltb_ge in E. exact E.
Qed.

(** X8. The size of what a channel client receives. The message of a
    response written by the agent path is never longer than 4000
    characters; the message of a swarm response is never longer than 4040
    characters, and it is longer than 4000 only when the full report is
    attached as a file. *)
Theorem response_messages_are_bounded f m id finalResponse allFiles context response
    (st : State W) :
  is_Some (processing st !! f) →
  (∃ st' r, deliver f m id finalResponse allFiles st = (st', Ok tt)
     ∧ outgoing st' !! responseFileName m (now st) = Some r
     ∧ String.length (r_message r) ≤ 4000)
  ∧ (∃ st' r, Swarm.sendFinalResponse context response st = (st', Ok tt)
       ∧ outgoing st' !! ("swarm_result_" +:+ Swarm.c_messageId context +:+ "_"
                          +:+ pretty (now st) +:+ ".json") = Some r
       ∧ String.length (r_message r) ≤ 4040
       ∧ (4000 < String.length (r_message r) → is_Some (r_files r))).
Proof.
  intros Hf. split.
  - rewrite (QueueFacts.deliver_spec _ _ _ _ _ _ Hf). cbn zeta.
    eexists _, _. split; [reflexivity|]. cbn [outgoing setProcessing setOutgoing].
    split; [apply lookup_insert_eq|]. cbn [r_message].
    unfold Marker.finishResponse. destruct (Marker.strippedText _ _ _) as [text files].
    apply truncateResponse_length.
  - unfold Swarm.sendFinalResponse, Swarm.LONG_RESPONSE_THRESHOLD, bind, get,
      writeOutgoing, modify.
    destruct (4000 <? String.length response) eqn:Hlong; cbn -[Js.take];
      (eexists _, _; split; [reflexivity|]); cbn -[Js.take];
      (split; [apply lookup_insert_eq|]); cbn [r_message r_files].
    + rewrite JsFacts.length_app, JsFacts.length_take.
      change (String.length Swarm.attachedNotice) with 40. split; [lia|eauto].
    + apply Nat.ltb_ge in Hlong. split; [lia|]. intros H. lia.
Qed.

(** *** Attachments *)

Lemma setAdd_NoDup x (l : list string) : NoDup l → NoDup (Marker.setAdd x l).
Proof.
  intros Hl. unfold Marker.setAdd. case_bool_decide as Hx; [exact Hl|].
  apply NoDup_app. split; [exact Hl|]. split; [|apply NoDup_singleton].
  intros y Hy Hy'. apply list_elem_of_singleton in Hy'. subst y. contradiction.
Qed.

Lemma collectLoop_sound (ex : string → bool) (gs acc : list string) :
  let collected :=
    foldl (fun acc g => if ex (Js.trim g) then Marker.setAdd (Js.trim g) acc else acc)
      acc gs in
  (NoDup acc → NoDup collected)
  ∧ (∃ more, collected = acc ++ more)
  ∧ (∀ p, p ∈ collected → p ∈ acc ∨ (ex p = true ∧ ∃ g, g ∈ gs ∧ p = Js.trim g)).
Proof.
  cbn zeta. revert acc. induction gs as [|g gs IH]; intros acc; cbn [foldl].
  - split; [tauto|]. split; [exists []; rewrite app_nil_r; reflexivity|]. tauto.
  - destruct (ex (Js.trim g)) eqn:Hex.
    + destruct (IH (Marker.setAdd (Js.trim g) acc)) as (Hn & [more Hm] & Hs).
      split; [intros Hacc; apply Hn, setAdd_NoDup, Hacc|]. split.
      * rewrite Hm. unfold Marker.setAdd. case_bool_decide; [eauto|].
        rewrite <- app_assoc. eauto.
      * intros p Hp. destruct (Hs p Hp) as [Hin|(Hx & g' & Hg' & ->)].
        -- unfold Marker.setAdd in Hin. case_bool_decide; [tauto|].
           apply elem_of_app in Hin. destruct Hin as [Hin|Hin]; [tauto|].
           apply list_elem_of_singleton in Hin. subst p.
           right. split; [exact Hex|]. exists g. split; [apply list_elem_of_here|reflexivity].
        -- right. split; [exact Hx|]. exists g'.
           split; [apply list_elem_of_further, Hg'|reflexivity].
    + destruct (IH acc) as (Hn & Hm & Hs).
      split; [exact Hn|]. split; [exact Hm|].
      intros p Hp. destruct (Hs p Hp) as [Hin|(Hx & g' & Hg' & ->)]; [tauto|].
      right. split; [exact Hx|]. exists g'.
      split; [apply list_elem_of_further, Hg'|reflexivity].
Qed.

(** X9. What a response attaches, and nothing more. The [files] of a
    response written by the agent path begin with the files carried over
    from the chain steps, in their order; every other entry is the trimmed
    path of a marker found in the trimmed response, and that path exists;
    no path is listed twice when the carried files have no repetition; and
    the field is absent rather than an empty list. *)
Theorem attachments_are_carried_or_marked_and_exist f m id finalResponse allFiles
    (st : State W) :
  is_Some (processing st !! f) →
  NoDup allFiles →
  ∃ st' r, deliver f m id finalResponse allFiles st = (st', Ok tt)
    ∧ outgoing st' !! responseFileName m (now st) = Some r
    ∧ r_files r ≠ Some []
    ∧ NoDup (default [] (r_files r))
    ∧ (∃ more, default [] (r_files r) = allFiles ++ more)
    ∧ (∀ p, p ∈ default [] (r_files r) →
            p ∈ allFiles
            ∨ (existsSync (world st) p = true
               ∧ ∃ g, g ∈ Marker.scanMarkers (Js.trim finalResponse) ∧ p = Js.trim g)).
Proof.
  intros Hf Hnd. rewrite (QueueFacts.deliver_spec _ _ _ _ _ _ Hf). cbn zeta.
  eexists _, _. split; [reflexivity|]. cbn [outgoing setProcessing setOutgoing].
  split; [apply lookup_insert_eq|]. cbn [r_files].
  unfold Marker.finishResponse, Marker.strippedText. cbn [fst snd].
  unfold Marker.collectFiles.
  destruct (collectLoop_sound (existsSync (world st))
              (Marker.scanMarkers (Js.trim finalResponse)) allFiles) as (Hn & Hm & Hs).
  cbn zeta in Hn, Hm, Hs.
  destruct (foldl _ allFiles (Marker.scanMarkers (Js.trim finalResponse)))
    as [|p0 ps] eqn:E.
  - cbn. split; [discriminate|]. split; [constructor|].
    split; [exact Hm|]. intros p Hp. inversion Hp.
  - cbn. split; [discriminate|]. split; [exact (Hn Hnd)|].
    split; [exact Hm|exact Hs].
Qed.

(** *** Text without markers *)

Lemma replaceMarkers_without_marker s :
  Marker.scanMarkers s = [] → Marker.replaceMarkers s = s.
Proof.
  remember (String.length s) as n eqn:Hn. revert s Hn.
  induction n as [n IH] using lt_wf_ind. intros s -> H.
  rewrite MarkerFacts.scanMarkers_unfold in H. rewrite MarkerFacts.replaceMarkers_unfold.
  destruct (Marker.matchMarker s) as [[body rest]|] eqn:E; [discriminate|].
  destruct s as [|c t]; [reflexivity|]. f_equal.
  eapply IH; [|reflexivity|exact H]. cbn. lia.
Qed.

(** X10. A response without marker is delivered as it is. When the search
    finds no marker in the trimmed response, the message written is the
    trimmed response, truncated when it is longer than 4000 characters,
    whether or not files are carried over from the chain steps, and the
    attached files are exactly the carried ones. *)
Theorem response_without_marker_is_kept f m id finalResponse allFiles (st : State W) :
  is_Some (processing st !! f) →
  Marker.containsMarker (Js.trim finalResponse) = false →
  ∃ st' r, deliver f m id finalResponse allFiles st = (st', Ok tt)
    ∧ outgoing st' !! responseFileName m (now st) = Some r
    ∧ r_message r = Marker.truncateResponse (Js.trim finalResponse)
    ∧ default [] (r_files r) = allFiles.
Proof.
  intros Hf Hno. rewrite (QueueFacts.deliver_spec _ _ _ _ _ _ Hf). cbn zeta.
  eexists _, _. split; [reflexivity|]. cbn [outgoing setProcessing setOutgoing].
  split; [apply lookup_insert_eq|]. cbn [r_files r_message].
  unfold Marker.finishResponse, Marker.strippedText, Marker.collectFiles. cbn [fst snd].
  unfold Marker.containsMarker in Hno.
  destruct (Marker.scanMarkers (Js.trim finalResponse)) as [|g gs] eqn:E; [|discriminate].
  cbn [foldl]. destruct allFiles as [|p ps]; [split; reflexivity|].
  rewrite (replaceMarkers_without_marker _ E), JsMore.trim_idem. split; reflexivity.
Qed.

End WithCollaborators.

(** X8 at the answer [hello] and the swarm report [done]. *)
Lemma response_messages_are_bounded_witness :
  is_Some (processing Demo.inFlight !! "m.json")
  ∧ (∃ st' r, deliver "m.json" (Demo.messageOf "hello") "default" "hello" [] Demo.inFlight
                = (st', Ok tt)
       ∧ outgoing st' !! "t_m1_7.json" = Some r
       ∧ String.length (r_message r) ≤ 4000)
  ∧ (∃ st' r, Swarm.sendFinalResponse Demo.swarmContext "done" Demo.inFlight = (st', Ok tt)
       ∧ outgoing st' !! "swarm_result_m1_7.json" = Some r
       ∧ String.length (r_message r) ≤ 4040).
Proof.
  assert (Hf : is_Some (processing Demo.inFlight !! "m.json"))
    by (eexists; vm_compute; reflexivity).
  split; [exact Hf|].
  pose proof (response_messages_are_bounded "m.json" (Demo.messageOf "hello") "default"
                "hello" [] Demo.swarmContext "done" Demo.inFlight Hf) as H.
  destruct H as [(st1 & r1 & Hrun1 & Hout1 & Hlen1) (st2 & r2 & Hrun2 & Hout2 & Hlen2 & _)].
  split.
  - exists st1, r1. split; [exact Hrun1|]. split; [exact Hout1|exact Hlen1].
  - exists st2, r2. split; [exact Hrun2|]. split; [exact Hout2|exact Hlen2].
Defined.

(** X9 at a response that names the existing [/a] twice. *)
Lemma attachments_are_carried_or_marked_and_exist_witness :
  is_Some (processing Demo.inFlight !! "m.json")
  ∧ NoDup ([] : list string)
  ∧ ∃ st' r,
      deliver "m.json" (Demo.messageOf "hello") "default"
        "[send_file: /a] [send_file:/a]" [] Demo.inFlight = (st', Ok tt)
      ∧ outgoing st' !! "t_m1_7.json" = Some r
      ∧ r_files r = Some ["/a"]
      ∧ NoDup (default [] (r_files r)).
Proof.
  assert (Hf : is_Some (processing Demo.inFlight !! "m.json"))
    by (eexists; vm_compute; reflexivity).
  assert (Hnd : NoDup ([] : list string)) by constructor.
  split; [exact Hf|]. split; [exact Hnd|].
  pose proof (attachments_are_carried_or_marked_and_exist "m.json" (Demo.messageOf "hello")
                "default" "[send_file: /a] [send_file:/a]" [] Demo.inFlight Hf Hnd) as H.
  destruct H as (st' & r & Hrun & Hout & _ & Hnodup & _).
  exists st', r. split; [exact Hrun|]. split; [exact Hout|]. split; [|exact Hnodup].
  vm_compute in Hrun. injection Hrun as <-. vm_compute in Hout. injection Hout as <-.
  reflexivity.
Defined.

(** X10 at an answer with white space around it. *)
Lemma response_without_marker_is_kept_witness :
  is_Some (processing Demo.inFlight !! "m.json")
  ∧ Marker.containsMarker (Js.trim "  all [done]  ") = false
  ∧ ∃ st' r,
      deliver "m.json" (Demo.messageOf "hello") "default" "  all [done]  " ["/a"]
        Demo.inFlight = (st', Ok tt)
      ∧ outgoing st' !! "t_m1_7.json" = Some r
      ∧ r_message r = "all [done]"
      ∧ default [] (r_files r) = ["/a"].
Proof.
  assert (Hf : is_Some (processing Demo.inFlight !! "m.json"))
    by (eexists; vm_compute; reflexivity).
  assert (Hno : Marker.containsMarker (Js.trim "  all [done]  ") = false)
    by (vm_compute; reflexivity).
  split; [exact Hf|]. split; [exact Hno|].
  pose proof (response_without_marker_is_kept "m.json" (Demo.messageOf "hello") "default"
                "  all [done]  " ["/a"] Demo.inFlight Hf Hno) as H.
  destruct H as (st' & r & Hrun & Hout & Hmsg & Hfiles).
  exists st', r. split; [exact Hrun|]. split; [exact Hout|].
  split; [rewrite Hmsg; vm_compute; reflexivity|exact Hfiles].
Defined.

End ResponseFacts.

(** ** The shuffle: grouping *)
Module GroupingFacts.
Import Shuffle.

Lemma lookupTable_pushTo key x (m : list (string * list string)) k :
  lookupTable (pushTo key x m) k =
    if decide (k = key) then Some (default [] (lookupTable m key) ++ [x])
    else lookupTable m k.
Proof.
  induction m as [|[k' xs] m IH]; cbn [pushTo lookupTable].
  - destruct (decide (k = key)) as [->|Hne].
    + rewrite String.eqb_refl. reflexivity.
    + rewrite (proj2 (String.eqb_neq key k)) by congruence. reflexivity.
  - destruct (String.eqb k' key) eqn:Hk'.
    + apply String.eqb_eq in Hk'. subst k'. cbn [lookupTable].
      destruct (decide (k = key)) as [->|Hne].
      * rewrite String.eqb_refl. reflexivity.
      * rewrite (proj2 (String.eqb_neq key k)) by congruence. reflexivity.
    + cbn [lookupTable]. rewrite IH. destruct (decide (k = key)) as [->|Hne].
      * rewrite Hk'. reflexivity.
      * reflexivity.
Qed.

Lemma keys_pushTo key x (m : list (string * list string)) :
  map fst (pushTo key x m) = if decide (key ∈ map fst m) then map fst m else map fst m ++ [key].
Proof.
  induction m as [|[k' xs] m IH]; cbn [pushTo map fst].
  - rewrite decide_False by (apply not_elem_of_nil). reflexivity.
  - destruct (String.eqb k' key) eqn:Hk'.
    + apply String.eqb_eq in Hk'. subst k'.
      rewrite decide_True by (apply list_elem_of_here). reflexivity.
    + apply String.eqb_neq in Hk'. cbn [map fst]. rewrite IH.
      destruct (decide (key ∈ map fst m)) as [Hin|Hnin].
      * rewrite decide_True by (apply list_elem_of_further, Hin). reflexivity.
      * rewrite decide_False; [reflexivity|].
        rewrite not_elem_of_cons. split; [congruence|exact Hnin].
Qed.

Lemma NoDup_pushTo key x (m : list (string * list string)) :
  NoDup (map fst m) → NoDup (map fst (pushTo key x m)).
Proof.
  intros H. rewrite keys_pushTo. destruct (decide (key ∈ map fst m)) as [Hin|Hnin]; [exact H|].
  apply NoDup_app. split; [exact H|]. split; [|apply NoDup_singleton].
  intros y Hy Hy'. apply list_elem_of_singleton in Hy'. subst y. contradiction.
Qed.

(** The inner loop over the keys of one item. *)
Lemma pushAll_spec (ks : list string) x (m : list (string * list string)) k :
  let m' := foldl (fun m key => pushTo key x m) m ks in
  (NoDup (map fst m) → NoDup (map fst m'))
  ∧ default [] (lookupTable m' k)
    = default [] (lookupTable m k) ++ ((fun _ => x) <$> filter (k =.) ks)
  ∧ (is_Some (lookupTable m' k) ↔ is_Some (lookupTable m k) ∨ k ∈ ks)
  ∧ (lookupTable m k ≠ Some [] → lookupTable m' k ≠ Some []).
Proof.
  cbn zeta. revert m. induction ks as [|key ks IH]; intros m; cbn [foldl].
  - split; [tauto|]. split; [rewrite app_nil_r; reflexivity|].
    rewrite elem_of_nil. tauto.
  - destruct (IH (pushTo key x m)) as (Hn & Hl & Hs & He).
    split; [intros H; apply Hn, NoDup_pushTo, H|]. split; [|split].
    + rewrite Hl, lookupTable_pushTo. destruct (decide (k = key)) as [->|Hne].
      * rewrite filter_cons_True by reflexivity. cbn. rewrite <- app_assoc. reflexivity.
      * rewrite filter_cons_False by exact Hne. reflexivity.
    + rewrite Hs, lookupTable_pushTo, elem_of_cons.
      destruct (decide (k = key)) as [->|Hne]; [|tauto].
      split; [tauto|]. intros _. left. eauto.
    + intros H. apply He. rewrite lookupTable_pushTo.
      destruct (decide (k = key)) as [->|Hne]; [|exact H].
      intros [= Heq]. apply app_eq_nil in Heq. destruct Heq as [_ [=]].
Qed.

(** The keys under which the grouping loop files an item. *)
Lemma groupByKey_snoc multiKey items item :
  groupByKey multiKey (items ++ [item]) = groupStep multiKey (groupByKey multiKey items) item.
Proof. unfold groupByKey. rewrite foldl_app. reflexivity. Qed.

Lemma groupByKey_spec multiKey (items : list Item) k :
  let used (item : Item) :=
    if String.eqb multiKey "first" then take 1 (keys item) else keys item in
  let g := groupByKey multiKey items in
  NoDup (map fst (g_partitions g))
  ∧ g_unkeyed g = serialized <$> filter (fun item => keys item = []) items
  ∧ default [] (lookupTable (g_partitions g) k)
    = items ≫= (fun item => (fun _ => serialized item) <$> filter (k =.) (used item))
  ∧ (is_Some (lookupTable (g_partitions g) k) ↔ ∃ item, item ∈ items ∧ k ∈ used item)
  ∧ g_duplicated g = length (filter (fun item => 1 < length (used item)) items)
  ∧ lookupTable (g_partitions g) k ≠ Some [].
Proof.
  cbn zeta. induction items as [|item items IH] using rev_ind.
  - cbn. split; [constructor|]. split; [reflexivity|]. split; [reflexivity|].
    split; [|split; [reflexivity|discriminate]]. split; [intros [? [=]]|].
    intros (item & Hin & _). inversion Hin.
  - rewrite groupByKey_snoc. destruct IH as (Hn & Hu & Hl & Hs & Hd & He).
    set (g := groupByKey multiKey items) in *.
    rewrite !filter_app, fmap_app, bind_app, length_app.
    unfold groupStep. destruct (keys item) as [|k0 ks] eqn:Hkeys.
    + cbn [g_partitions g_unkeyed g_duplicated].
      split; [exact Hn|]. split.
      { rewrite Hu, filter_cons_True by exact Hkeys. reflexivity. }
      assert (Hused : (if String.eqb multiKey "first" then take 1 (keys item) else keys item)
                      = []) by (rewrite Hkeys; destruct (String.eqb _ _); reflexivity).
      split.
      { rewrite Hl. cbn. rewrite Hused. cbn. rewrite !app_nil_r. reflexivity. }
      split.
      { rewrite Hs. split.
        - intros (it & Hin & Hk). exists it. split; [|exact Hk].
          apply elem_of_app. left. exact Hin.
        - intros (it & Hin & Hk). apply elem_of_app in Hin. destruct Hin as [Hin|Hin].
          + eauto.
          + apply list_elem_of_singleton in Hin. subst it. rewrite Hused in Hk.
            inversion Hk. }
      split; [|exact He].
      rewrite Hd, filter_cons_False, filter_nil by (rewrite Hused; cbn; lia).
      cbn. lia.
    + cbn [g_partitions g_unkeyed g_duplicated].
      assert (Hused : (if String.eqb multiKey "first" then [k0] else k0 :: ks)
                      = (if String.eqb multiKey "first" then take 1 (keys item)
                         else keys item))
        by (rewrite Hkeys; reflexivity).
      rewrite Hused.
      set (used := if String.eqb multiKey "first" then take 1 (keys item) else keys item).
      destruct (pushAll_spec used (serialized item) (g_partitions g) k)
        as (Hn' & Hl' & Hs' & He').
      cbn zeta in Hn', Hl', Hs', He'.
      split; [exact (Hn' Hn)|]. split.
      { rewrite Hu, filter_cons_False, filter_nil by (rewrite Hkeys; discriminate).
        rewrite app_nil_r. reflexivity. }
      split.
      { rewrite Hl', Hl. cbn. rewrite app_nil_r. reflexivity. }
      split.
      { rewrite Hs', Hs. split.
        - intros [(it & Hin & Hk)|Hk].
          + exists it. split; [apply elem_of_app; left; exact Hin|exact Hk].
          + exists item. split; [apply elem_of_app; right; apply list_elem_of_here|exact Hk].
        - intros (it & Hin & Hk). apply elem_of_app in Hin. destruct Hin as [Hin|Hin].
          + left. eauto.
          + apply list_elem_of_singleton in Hin. subst it. right. exact Hk. }
      split; [|exact (He' He)].
      rewrite Hd. destruct (1 <? length used) eqn:Hlen.
      * apply Nat.ltb_lt in Hlen. rewrite filter_cons_True by exact Hlen. cbn. lia.
      * apply Nat.ltb_ge in Hlen.
        rewrite filter_cons_False by (change (¬ 1 < length used); lia). cbn. lia.
Qed.

Lemma filter_eq_NoDup (k : string) (ks : list string) :
  NoDup ks → filter (k =.) ks = if decide (k ∈ ks) then [k] else [].
Proof.
  induction ks as [|k' ks IH]; intros Hnd.
  - rewrite decide_False by (apply not_elem_of_nil). reflexivity.
  - apply NoDup_cons in Hnd. destruct Hnd as [Hk' Hnd].
    destruct (decide (k = k')) as [<-|Hne].
    + rewrite filter_cons_True by reflexivity.
      rewrite decide_True by (apply list_elem_of_here).
      rewrite IH, decide_False by assumption. reflexivity.
    + rewrite filter_cons_False by exact Hne. rewrite IH by exact Hnd.
      destruct (decide (k ∈ ks)) as [Hin|Hnin].
      * rewrite decide_True by (apply list_elem_of_further, Hin). reflexivity.
      * rewrite decide_False; [reflexivity|].
        rewrite not_elem_of_cons. split; assumption.
Qed.

Lemma filter_eq_first (k : string) (ks : list string) :
  filter (k =.) (take 1 ks) = if decide (head ks = Some k) then [k] else [].
Proof.
  destruct ks as [|k' ks]; [reflexivity|]. cbn [take head].
  destruct (decide (k = k')) as [<-|Hne].
  - rewrite filter_cons_True by reflexivity. rewrite decide_True by reflexivity. reflexivity.
  - rewrite filter_cons_False by exact Hne. rewrite decide_False by congruence. reflexivity.
Qed.

(** Copies filed once per item: the partition is the filtered input. *)
Lemma filed_once (P : Item → Prop) `{!∀ item, Decision (P item)}
    (used : Item → list string) (k : string) (items : list Item) :
  (∀ item, item ∈ items → filter (k =.) (used item) = if decide (P item) then [k] else []) →
  items ≫= (fun item => (fun _ => serialized item) <$> filter (k =.) (used item))
  = serialized <$> filter P items.
Proof.
  induction items as [|item items IH]; intros Hall; [reflexivity|].
  rewrite bind_cons, IH by (intros it Hit; apply Hall, list_elem_of_further, Hit).
  rewrite (Hall item) by (apply list_elem_of_here).
  destruct (decide (P item)) as [Hp|Hp].
  - rewrite filter_cons_True by exact Hp. reflexivity.
  - rewrite filter_cons_False by exact Hp. reflexivity.
Qed.

Lemma lookup_of_default {T} (o : option (list T)) (l : list T) :
  default [] o = l → o ≠ Some [] → o = match l with [] => None | _ => Some l end.
Proof.
  destruct o as [xs|]; cbn; intros <- H.
  - destruct xs; [congruence|reflexivity].
  - reflexivity.
Qed.

(** X11. Grouping is by key. With [multi_key] other than [first] (the
    default [duplicate]) and no key listed twice on an item, the partition
    of a key holds exactly the items that carry the key, in input order;
    with [first], exactly the items whose first key it is. A key has a
    partition only when some item is filed under it. The unkeyed list
    holds exactly the items without key, in input order; the cross-partition
    counter is the number of items with more than one key, and zero in
    [first] mode; and no key has two partitions. *)
Theorem grouping_is_by_key multiKey (items : list Item) k :
  multiKey ≠ "first" →
  (∀ item, item ∈ items → NoDup (keys item)) →
  let whenFilled (xs : list string) := match xs with [] => None | _ => Some xs end in
  lookupTable (g_partitions (groupByKey multiKey items)) k
    = whenFilled (serialized <$> filter (fun item => k ∈ keys item) items)
  ∧ lookupTable (g_partitions (groupByKey "first" items)) k
    = whenFilled (serialized <$> filter (fun item => head (keys item) = Some k) items)
  ∧ g_unkeyed (groupByKey multiKey items)
    = serialized <$> filter (fun item => keys item = []) items
  ∧ g_unkeyed (groupByKey "first" items)
    = serialized <$> filter (fun item => keys item = []) items
  ∧ g_duplicated (groupByKey multiKey items)
    = length (filter (fun item => 1 < length (keys item)) items)
  ∧ g_duplicated (groupByKey "first" items) = 0
  ∧ NoDup (map fst (g_partitions (groupByKey multiKey items)))
  ∧ NoDup (map fst (g_partitions (groupByKey "first" items))).
Proof.
  intros Hmode Hnd. cbn zeta.
  destruct (groupByKey_spec multiKey items k) as (Hn & Hu & Hl & _ & Hd & He).
  destruct (groupByKey_spec "first" items k) as (Hn1 & Hu1 & Hl1 & _ & Hd1 & He1).
  cbn zeta in *. apply String.eqb_neq in Hmode. rewrite Hmode in Hl, Hd.
  change (String.eqb "first" "first") with true in Hl1, Hd1. cbn iota in Hl1, Hd1.
  split.
  { apply lookup_of_default; [|exact He]. rewrite Hl.
    apply (filed_once (fun item => k ∈ keys item)).
    intros item Hin. apply filter_eq_NoDup, Hnd, Hin. }
  split.
  { apply lookup_of_default; [|exact He1]. rewrite Hl1.
    apply (filed_once (fun item => head (keys item) = Some k)).
    intros item Hin. apply filter_eq_first. }
  split; [exact Hu|]. split; [exact Hu1|]. split; [exact Hd|].
  split; [|split; assumption].
  rewrite Hd1. apply length_zero_iff_nil, elem_of_nil_inv. intros item Hitem.
  apply list_elem_of_filter in Hitem. destruct Hitem as [Hlen _].
  destruct (keys item) as [|? [|? ?]]; cbn in Hlen; lia.
Qed.

(** X11 at three items tagged [a] and one tagged [a_part1]. *)
Lemma grouping_is_by_key_witness :
  "duplicate" ≠ "first"
  ∧ (∀ item, item ∈ Demo.collidingItems → NoDup (keys item))
  ∧ lookupTable (g_partitions (groupByKey "duplicate" Demo.collidingItems)) "a"
    = Some [Demo.itemText "a" 1; Demo.itemText "a" 2; Demo.itemText "a" 3]
  ∧ g_unkeyed (groupByKey "duplicate" Demo.collidingItems) = [].
Proof.
  assert (Hmode : "duplicate" ≠ "first") by discriminate.
  assert (Hnd : ∀ item, item ∈ Demo.collidingItems → NoDup (keys item)).
  { intros item Hin. unfold Demo.collidingItems in Hin.
    repeat (apply elem_of_cons in Hin; destruct Hin as [->|Hin]);
      [apply NoDup_singleton..|inversion Hin]. }
  split; [exact Hmode|]. split; [exact Hnd|].
  pose proof (grouping_is_by_key "duplicate" Demo.collidingItems "a" Hmode Hnd) as H.
  cbn zeta in H. destruct H as (Hpart & _ & Hunkeyed & _).
  split; [rewrite Hpart; vm_compute; reflexivity|].
  rewrite Hunkeyed. vm_compute. reflexivity.
Defined.

End GroupingFacts.

(** ** The shuffle: what the sub-split keeps *)
Module SubSplitFacts.
Import Shuffle.

Lemma lookupTable_NoDup {T} (l : list (string * T)) k v :
  NoDup (map fst l) → (k, v) ∈ l → lookupTable l k = Some v.
Proof.
  induction l as [|[k' v'] l IH]; intros Hnd Hin; [inversion Hin|].
  cbn in *. apply NoDup_cons in Hnd. destruct Hnd as [Hk' Hnd].
  apply elem_of_cons in Hin. destruct Hin as [[= -> ->]|Hin].
  - rewrite String.eqb_refl. reflexivity.
  - destruct (String.eqb k' k) eqn:E; [|apply IH; assumption].
    apply String.eqb_eq in E. subst k'. exfalso. apply Hk'.
    apply list_elem_of_fmap. exists (k, v). auto.
Qed.

Lemma foldl_insert_origin (kvs : list (string * list string))
    (m : gmap string (list string)) k v :
  foldl (fun m kv => <[kv.1 := kv.2]> m) m kvs !! k = Some v →
  m !! k = Some v ∨ (k, v) ∈ kvs.
Proof.
  revert m. induction kvs as [|[k' v'] kvs IH]; intros m H; [left; exact H|].
  cbn in H. apply IH in H. destruct H as [H|H].
  - destruct (decide (k' = k)) as [->|Hne].
    + rewrite lookup_insert_eq in H. injection H as ->. right. apply list_elem_of_here.
    + rewrite lookup_insert_ne in H by exact Hne. left. exact H.
  - right. apply list_elem_of_further, H.
Qed.

Lemma elem_of_concat_inv {A} (x : A) (ls : list (list A)) :
  x ∈ concat ls → ∃ l, l ∈ ls ∧ x ∈ l.
Proof.
  induction ls as [|l ls IH]; cbn; intros H; [inversion H|].
  apply elem_of_app in H. destruct H as [H|H].
  - exists l. split; [apply list_elem_of_here|exact H].
  - destruct (IH H) as (l' & Hl' & Hx). exists l'.
    split; [apply list_elem_of_further, Hl'|exact Hx].
Qed.

Lemma ceilDiv_chunk_starts n d i : 0 < d → i < ceilDiv n d → i * d < n.
Proof.
  intros Hd. unfold ceilDiv.
  pose proof (Nat.div_mod (n + d - 1) d ltac:(lia)) as Hdm.
  pose proof (Nat.mod_upper_bound (n + d - 1) d ltac:(lia)) as Hub.
  nia.
Qed.

Lemma slice_elem_of {A} (i j : nat) (l : list A) x : x ∈ Js.slice i j l → x ∈ l.
Proof.
  unfold Js.slice. intros H. apply (subseteq_drop i l), (subseteq_take (j - i)), H.
Qed.

Lemma slice_nonempty {A} (i j : nat) (l : list A) :
  i < j → i < List.length l → Js.slice i j l ≠ [].
Proof.
  unfold Js.slice. intros Hij Hi H.
  apply (f_equal List.length) in H. rewrite length_take, length_drop in H. cbn in H. lia.
Qed.

Lemma orDefault_positive x d : 0 < d → 0 < orDefault x d.
Proof. intros Hd. destruct x as [[|n]|]; cbn; lia. Qed.

(** What a grouped partition is filed as. *)
Lemma subEntries_spec max key (xs : list string) name ys :
  0 < max → xs ≠ [] →
  (name, ys) ∈ subEntries max (key, xs) →
  (name = key ∨ ∃ i, name = subKey key i)
  ∧ ys ≠ [] ∧ List.length ys ≤ max ∧ ∀ y, y ∈ ys → y ∈ xs.
Proof.
  intros Hmax Hxs. unfold subEntries.
  destruct (List.length xs <=? max) eqn:Hlen.
  - intros H. apply list_elem_of_singleton in H. injection H as -> ->.
    apply Nat.leb_le in Hlen. split; [left; reflexivity|]. split; [exact Hxs|].
    split; [exact Hlen|tauto].
  - intros H. apply list_elem_of_fmap in H. destruct H as (i & [= -> ->] & Hi).
    apply elem_of_seq in Hi. split; [right; eauto|]. split; [|split].
    + apply slice_nonempty; [nia|]. apply ceilDiv_chunk_starts; [exact Hmax|lia].
    + apply ShuffleFacts.slice_length.
    + intros y. apply slice_elem_of.
Qed.

(** Where a partition of the result comes from: the partition of the
    grouping it was filed from. *)
Lemma final_partition_origin (items : list Item) cfg name ys :
  partitions (shuffleItems items cfg) !! name = Some ys →
  ∃ key xs,
    (name, ys) ∈ subEntries (orDefault (max_partition_size cfg) default_max_partition_size)
                   (key, xs)
    ∧ xs ≠ []
    ∧ ∀ y, y ∈ xs → ∃ item, item ∈ items ∧ y = serialized item ∧ key ∈ keys item.
Proof.
  unfold shuffleItems. cbn [partitions].
  set (max := orDefault _ _). set (mode := orElse _ _).
  rewrite ShuffleFacts.subSplit_entries. intros H.
  apply foldl_insert_origin in H. destruct H as [H|H]; [rewrite lookup_empty in H; discriminate|].
  apply elem_of_concat_inv in H. destruct H as (l & Hl & Hin).
  apply list_elem_of_fmap in Hl. destruct Hl as ([key xs] & -> & Hentry).
  destruct (GroupingFacts.groupByKey_spec mode items key) as (Hn & _ & Hl & _ & _ & He).
  cbn zeta in Hl, He.
  pose proof (lookupTable_NoDup _ _ _ Hn Hentry) as Hlook.
  rewrite Hlook in Hl, He. cbn in Hl.
  exists key, xs. split; [exact Hin|]. split; [congruence|].
  intros y Hy. rewrite Hl in Hy. apply list_elem_of_bind in Hy.
  destruct Hy as (item & Hy & Hitem).
  apply list_elem_of_fmap in Hy. destruct Hy as (k' & -> & Hk').
  apply list_elem_of_filter in Hk'. destruct Hk' as [<- Hk'].
  exists item. split; [exact Hitem|]. split; [reflexivity|].
  destruct (String.eqb mode "first"); [|exact Hk'].
  apply (subseteq_take 1), Hk'.
Qed.

(** X12. The partitions a shuffle returns. Every partition of the result is
    non-empty and holds at most [max_partition_size] items (200 when the
    setting is absent or zero); its name is a key of the grouping or that
    key followed by [_part<n>]; and each of its entries is the
    serialization of an input item that carries that key. *)
Theorem final_partitions_are_bounded (items : list Item) cfg name ys :
  partitions (shuffleItems items cfg) !! name = Some ys →
  0 < List.length ys
  ∧ List.length ys ≤ orDefault (max_partition_size cfg) default_max_partition_size
  ∧ ∃ key, (name = key ∨ ∃ i, name = subKey key i)
      ∧ ∀ y, y ∈ ys → ∃ item, item ∈ items ∧ y = serialized item ∧ key ∈ keys item.
Proof.
  intros H. apply final_partition_origin in H.
  destruct H as (key & xs & Hin & Hxs & Hfrom).
  assert (Hmax : 0 < orDefault (max_partition_size cfg) default_max_partition_size)
    by (apply orDefault_positive; unfold default_max_partition_size; lia).
  destruct (subEntries_spec _ key xs name ys Hmax Hxs Hin) as (Hname & Hne & Hlen & Hsub).
  split; [destruct ys; [congruence|cbn; lia]|]. split; [exact Hlen|].
  exists key. split; [exact Hname|]. intros y Hy. apply Hfrom, Hsub, Hy.
Qed.

(** *** Sub-partition names *)

Lemma includes_underscore c t :
  Js.includes (String c t) "_" = Ascii.eqb "_" c || Js.includes t "_".
Proof.
  cbn [Js.includes]. f_equal. unfold Js.startsWith. cbn [Js.stripPrefix].
  destruct (Ascii.eqb "_" c); reflexivity.
Qed.

Lemma pretty_N_char_digit x : Ascii.eqb "_" (pretty_N_char x) = false.
Proof. unfold pretty_N_char. repeat case_match; reflexivity. Qed.

Lemma pretty_N_go_digits x s :
  Js.includes s "_" = false → Js.includes (pretty_N_go x s) "_" = false.
Proof.
  revert s. induction (N.lt_wf_0 x) as [x _ IH]; intros s Hs.
  assert (x = 0 ∨ 0 < x)%N as [->|Hx] by lia.
  - rewrite pretty_N_go_0. exact Hs.
  - rewrite pretty_N_go_step by exact Hx. apply IH; [apply N.div_lt; lia|].
    rewrite includes_underscore, pretty_N_char_digit. exact Hs.
Qed.

(** A number is written without underscore. *)
Lemma ofNat_digits n : Js.includes (Js.ofNat n) "_" = false.
Proof.
  unfold Js.ofNat, pretty, pretty_nat, pretty, pretty_N.
  case_decide; [reflexivity|]. apply pretty_N_go_digits. reflexivity.
Qed.

(** The text after the last underscore determines the text before it. *)
Lemma split_at_last_underscore (a b x y : string) :
  Js.includes x "_" = false → Js.includes y "_" = false →
  a +:+ String "_" x = b +:+ String "_" y → a = b ∧ x = y.
Proof.
  intros Hx Hy. revert b. induction a as [|c a IH]; intros [|d b]; rewrite ?JsFacts.app_cons.
  - intros [= ->]. split; reflexivity.
  - change (EmptyString +:+ String "_" x) with (String "_" x). intros [= <- ->].
    exfalso. clear -Hx. induction b as [|e b IHb].
    + change (EmptyString +:+ String "_" y) with (String "_" y) in Hx.
      rewrite includes_underscore in Hx. discriminate.
    + rewrite JsFacts.app_cons, includes_underscore in Hx.
      apply orb_false_elim in Hx. tauto.
  - change (EmptyString +:+ String "_" y) with (String "_" y). intros [= -> <-].
    exfalso. clear -Hy. induction a as [|e a IHa].
    + change (EmptyString +:+ String "_" x) with (String "_" x) in Hy.
      rewrite includes_underscore in Hy. discriminate.
    + rewrite JsFacts.app_cons, includes_underscore in Hy.
      apply orb_false_elim in Hy. tauto.
  - intros [= -> H]. apply IH in H. destruct H as [-> ->]. split; reflexivity.
Qed.

(** Sub-partition names are distinct for distinct keys or parts. *)
Lemma subKey_inj k1 i1 k2 i2 : subKey k1 i1 = subKey k2 i2 → k1 = k2 ∧ i1 = i2.
Proof.
  unfold subKey.
  change ("_part" +:+ Js.ofNat (i1 + 1)) with (String "_" ("part" +:+ Js.ofNat (i1 + 1))).
  change ("_part" +:+ Js.ofNat (i2 + 1)) with (String "_" ("part" +:+ Js.ofNat (i2 + 1))).
  intros H. apply split_at_last_underscore in H.
  - destruct H as [-> H]. split; [reflexivity|].
    change ("part" +:+ Js.ofNat (i1 + 1))
      with (String "p" (String "a" (String "r" (String "t" (Js.ofNat (i1 + 1)))))) in H.
    change ("part" +:+ Js.ofNat (i2 + 1))
      with (String "p" (String "a" (String "r" (String "t" (Js.ofNat (i2 + 1)))))) in H.
    injection H as H. apply (inj pretty) in H. lia.
  - change ("part" +:+ Js.ofNat (i1 + 1))
      with (String "p" (String "a" (String "r" (String "t" (Js.ofNat (i1 + 1)))))).
    rewrite !includes_underscore. cbn. apply ofNat_digits.
  - change ("part" +:+ Js.ofNat (i2 + 1))
      with (String "p" (String "a" (String "r" (String "t" (Js.ofNat (i2 + 1)))))).
    rewrite !includes_underscore. cbn. apply ofNat_digits.
Qed.

Lemma subKey_includes_part k i : Js.includes (subKey k i) "_part" = true.
Proof.
  unfold subKey. induction k as [|c k IH].
  - reflexivity.
  - rewrite JsFacts.app_cons. cbn [Js.includes]. rewrite IH. apply orb_true_r.
Qed.

(** The names one grouped partition is filed under. *)
Lemma subEntries_names max key (xs : list string) :
  NoDup (map fst (subEntries max (key, xs)))
  ∧ ∀ name, name ∈ map fst (subEntries max (key, xs)) →
            name = key ∨ ∃ i, name = subKey key i.
Proof.
  unfold subEntries. destruct (List.length xs <=? max).
  - split; [apply NoDup_singleton|]. intros name H.
    apply list_elem_of_singleton in H. left. exact H.
  - rewrite map_map. cbn [fst]. split.
    + apply NoDup_fmap_2; [|apply NoDup_seq].
      intros i j H. apply subKey_inj in H. tauto.
    + intros name H. apply list_elem_of_fmap in H. destruct H as (i & -> & _). eauto.
Qed.

Lemma finalKeys_NoDup max (parts : list (string * list string)) :
  NoDup (map fst parts) →
  (∀ key, key ∈ map fst parts → Js.includes key "_part" = false) →
  NoDup (finalKeys max parts).
Proof.
  unfold finalKeys. induction parts as [|[key xs] parts IH]; intros Hnd Hclean.
  - constructor.
  - cbn [map concat fst] in *. apply NoDup_cons in Hnd. destruct Hnd as [Hkey Hnd].
    destruct (subEntries_names max key xs) as [Hnd1 Hnames].
    apply NoDup_app. split; [exact Hnd1|]. split.
    + intros name Hin1 Hin2. apply Hnames in Hin1.
      apply elem_of_concat_inv in Hin2. destruct Hin2 as (l & Hl & Hin2).
      apply list_elem_of_fmap in Hl. destruct Hl as ([key' xs'] & -> & Hentry).
      destruct (subEntries_names max key' xs') as [_ Hnames'].
      apply Hnames' in Hin2.
      assert (Hkey' : key' ∈ map fst parts)
        by (apply list_elem_of_fmap; exists (key', xs'); auto).
      assert (Hc : Js.includes key "_part" = false)
        by (apply Hclean, list_elem_of_here).
      assert (Hc' : Js.includes key' "_part" = false)
        by (apply Hclean, list_elem_of_further, Hkey').
      destruct Hin1 as [->|[i ->]]; destruct Hin2 as [E|[j E]].
      * subst key'. contradiction.
      * rewrite E, subKey_includes_part in Hc. discriminate.
      * rewrite <- E, subKey_includes_part in Hc'. discriminate.
      * apply subKey_inj in E. destruct E as [-> _]. contradiction.
    + apply IH; [exact Hnd|].
      intros k Hk. apply Hclean, list_elem_of_further, Hk.
Qed.

(** X13. The sub-split loses nothing when no key contains [_part]. Then
    every partition of the grouping is found in the result: a partition
    within the limit under its key, a larger one as the sub-partitions
    [<key>_part1], [<key>_part2], ..., which make up the partition when
    concatenated in part order. *)
Theorem subsplit_keeps_partitions_without_part_keys (items : list Item) cfg key xs :
  (∀ item k, item ∈ items → k ∈ keys item → Js.includes k "_part" = false) →
  (key, xs) ∈ g_partitions (groupByKey (orElse (multi_key cfg) "duplicate") items) →
  let max := orDefault (max_partition_size cfg) default_max_partition_size in
  let chunks := ceilDiv (List.length xs) max in
  let final := partitions (shuffleItems items cfg) in
  (List.length xs ≤ max → final !! key = Some xs)
  ∧ (max < List.length xs →
       (∀ i, i < chunks →
             final !! subKey key i = Some (Js.slice (i * max) ((i + 1) * max) xs))
       ∧ concat (map (fun i => default [] (final !! subKey key i)) (seq 0 chunks)) = xs).
Proof.
  intros Hclean Hentry. cbn zeta. unfold shuffleItems. cbn [partitions].
  set (max := orDefault _ _). set (mode := orElse _ _) in *.
  assert (Hmax : 0 < max)
    by (apply orDefault_positive; unfold default_max_partition_size; lia).
  assert (Hnd : NoDup (finalKeys max (g_partitions (groupByKey mode items)))).
  { apply finalKeys_NoDup.
    - destruct (GroupingFacts.groupByKey_spec mode items key) as (Hn & _). exact Hn.
    - intros k Hk. apply list_elem_of_fmap in Hk. destruct Hk as ([k' ys] & -> & Hin).
      cbn [fst].
      destruct (GroupingFacts.groupByKey_spec mode items k') as (Hn & _ & _ & Hs & _).
      cbn zeta in Hs.
      rewrite (lookupTable_NoDup _ _ _ Hn Hin) in Hs.
      destruct (proj1 Hs ltac:(eauto)) as (item & Hitem & Hk).
      apply (Hclean item k' Hitem).
      destruct (String.eqb mode "first"); [apply (subseteq_take 1), Hk|exact Hk]. }
  destruct (ShuffleFacts.subSplit_preserves_without_collision max _ key xs Hmax Hnd Hentry)
    as [Hsmall Hlarge].
  split; [exact Hsmall|]. intros Hlen. destruct (Hlarge Hlen) as (Hparts & Hconcat & _).
  split; [exact Hparts|].
  etransitivity; [|exact Hconcat]. f_equal. apply map_ext_in. intros i Hi.
  apply in_seq in Hi. rewrite Hparts by lia. reflexivity.
Qed.

(** X12 at the second sub-partition of [a], for partitions of at most two
    items. *)
Lemma final_partitions_are_bounded_witness :
  partitions (shuffleItems Demo.collidingItems Demo.pairsOnly) !! "a_part2"
    = Some [Demo.itemText "a" 3]
  ∧ 0 < List.length [Demo.itemText "a" 3]
  ∧ List.length [Demo.itemText "a" 3] ≤ 2.
Proof.
  assert (Hpart : partitions (shuffleItems Demo.collidingItems Demo.pairsOnly) !! "a_part2"
                  = Some [Demo.itemText "a" 3])
    by (vm_compute; reflexivity).
  split; [exact Hpart|].
  pose proof (final_partitions_are_bounded Demo.collidingItems Demo.pairsOnly "a_part2" _ Hpart)
    as H.
  destruct H as (Hpos & Hmax & _). split; [exact Hpos|exact Hmax].
Defined.

(** X13 at three items tagged [a], for partitions of at most two items. *)
Lemma subsplit_keeps_partitions_without_part_keys_witness :
  (∀ item k, item ∈ firstn 3 Demo.collidingItems → k ∈ keys item →
             Js.includes k "_part" = false)
  ∧ ("a", [Demo.itemText "a" 1; Demo.itemText "a" 2; Demo.itemText "a" 3])
    ∈ g_partitions (groupByKey (orElse (multi_key Demo.pairsOnly) "duplicate")
                      (firstn 3 Demo.collidingItems))
  ∧ partitions (shuffleItems (firstn 3 Demo.collidingItems) Demo.pairsOnly) !! "a_part1"
    = Some [Demo.itemText "a" 1; Demo.itemText "a" 2]
  ∧ partitions (shuffleItems (firstn 3 Demo.collidingItems) Demo.pairsOnly) !! "a_part2"
    = Some [Demo.itemText "a" 3].
Proof.
  assert (Hclean : ∀ item k, item ∈ firstn 3 Demo.collidingItems → k ∈ keys item →
                             Js.includes k "_part" = false).
  { intros item k Hin Hk. cbn in Hin.
    repeat (apply elem_of_cons in Hin; destruct Hin as [->|Hin]); [..|inversion Hin];
      (apply list_elem_of_singleton in Hk; subst k; reflexivity). }
  assert (Hentry : ("a", [Demo.itemText "a" 1; Demo.itemText "a" 2; Demo.itemText "a" 3])
                   ∈ g_partitions (groupByKey (orElse (multi_key Demo.pairsOnly) "duplicate")
                                     (firstn 3 Demo.collidingItems)))
    by (vm_compute; apply list_elem_of_here).
  split; [exact Hclean|]. split; [exact Hentry|].
  pose proof (subsplit_keeps_partitions_without_part_keys (firstn 3 Demo.collidingItems)
                Demo.pairsOnly "a" _ Hclean Hentry) as H.
  cbn zeta in H. destruct H as [_ H].
  destruct H as [Hparts _]; [vm_compute; lia|].
  split.
  - change "a_part1" with (subKey "a" 0).
    rewrite (Hparts 0) by (vm_compute; lia). vm_compute. reflexivity.
  - change "a_part2" with (subKey "a" 1).
    rewrite (Hparts 1) by (vm_compute; lia). vm_compute. reflexivity.
Defined.

End SubSplitFacts.

(** ** The shuffle: partition reduce and merge *)
Module ReduceFacts.
Import Dispatcher Shuffle Trace.

(** *** The code-unit order *)

Lemma byCodeUnits_antisym a b : Cases.byCodeUnits a b = Gt → Cases.byCodeUnits b a = Lt.
Proof.
  unfold Cases.byCodeUnits. rewrite (String.compare_antisym b a).
  destruct (String.compare a b); [discriminate|discriminate|reflexivity].
Qed.

Lemma byCodeUnits_le a b :
  Cases.byCodeUnits a b ≠ Gt ↔ OrderedTypeEx.String_as_OT.lt a b ∨ a = b.
Proof.
  unfold Cases.byCodeUnits. split.
  - destruct (String.compare a b) eqn:E; intros H.
    + right. apply OrderedTypeEx.String_as_OT.cmp_eq, E.
    + left. apply OrderedTypeEx.String_as_OT.cmp_lt, E.
    + congruence.
  - intros [H| ->].
    + apply OrderedTypeEx.String_as_OT.cmp_lt in H.
      unfold OrderedTypeEx.String_as_OT.cmp in H. rewrite H. discriminate.
    + assert (H : String.compare b b = Eq)
        by (apply OrderedTypeEx.String_as_OT.cmp_eq; reflexivity).
      rewrite H. discriminate.
Qed.

Lemma byCodeUnits_trans a b c :
  Cases.byCodeUnits a b ≠ Gt → Cases.byCodeUnits b c ≠ Gt → Cases.byCodeUnits a c ≠ Gt.
Proof.
  rewrite !byCodeUnits_le. intros [Hab| ->] [Hbc| ->]; auto.
  left. eapply OrderedTypeEx.String_as_OT.lt_trans; eassumption.
Qed.

Lemma ordered_pairs {A} (R : A → A → Prop) (l : list A) :
  ForallOrdPairs R l →
  ∀ i j a b, i < j → l !! i = Some a → l !! j = Some b → R a b.
Proof.
  induction 1 as [|x l Hx _ IH]; intros i j a b Hij Ha Hb; [inversion Ha|].
  destruct j as [|j]; [lia|]. destruct i as [|i].
  - injection Ha as <-. rewrite List.Forall_forall in Hx.
    apply Hx, list_elem_of_In. eapply list_elem_of_lookup_2. exact Hb.
  - apply (IH i j); [lia|exact Ha|exact Hb].
Qed.

Lemma leb_compare a b : String.leb a b = true ↔ Cases.byCodeUnits a b ≠ Gt.
Proof.
  unfold String.leb, Cases.byCodeUnits.
  destruct (String.compare a b); split; congruence.
Qed.

Lemma insertSorted_ordered x l :
  ForallOrdPairs (fun a b => String.leb a b = true) l →
  ForallOrdPairs (fun a b => String.leb a b = true) (insertSorted x l).
Proof.
  induction l as [|y l IH]; intros Hl; cbn.
  - constructor; constructor.
  - inversion Hl as [|? ? Hy Hrest]; subst.
    destruct (String.leb x y) eqn:E.
    + constructor; [|exact Hl]. constructor; [exact E|].
      apply List.Forall_forall. intros z Hz. rewrite List.Forall_forall in Hy.
      apply leb_compare. eapply byCodeUnits_trans; apply leb_compare; [exact E|apply Hy, Hz].
    + assert (Hyx : String.leb y x = true)
        by (destruct (String.leb_total x y); congruence).
      constructor; [|apply IH, Hrest].
      apply List.Forall_forall. intros z Hz. apply list_elem_of_In in Hz.
      assert (Hperm : insertSorted x l ≡ₚ x :: l).
      { clear. induction l as [|y l IH]; cbn; [reflexivity|].
        destruct (String.leb x y); [reflexivity|]. rewrite IH. apply Permutation_swap. }
      rewrite Hperm in Hz. apply elem_of_cons in Hz.
      destruct Hz as [->|Hz]; [exact Hyx|].
      rewrite List.Forall_forall in Hy. apply Hy, list_elem_of_In, Hz.
Qed.

Lemma sortStrings_ordered l :
  ForallOrdPairs (fun a b => String.leb a b = true) (sortStrings l).
Proof.
  induction l as [|x l IH]; cbn; [constructor|]. apply insertSorted_ordered, IH.
Qed.

Section Reduce.
Context {W : Type} `{C : Collaborators W}.
Variable localeCompare : string → string → comparison.
Variable fillTemplate : string → string → string → nat → string → string.

Lemma insertByKey_length x l :
  List.length (insertByKey localeCompare x l) = S (List.length l).
Proof.
  induction l as [|y l IH]; cbn; [reflexivity|].
  destruct (localeCompare (p_key y) (p_key x)); cbn; rewrite ?IH; reflexivity.
Qed.

Lemma sortByKey_length l : List.length (sortByKey localeCompare l) = List.length l.
Proof.
  unfold sortByKey.
  assert (H : ∀ acc, List.length (foldl (fun acc x => insertByKey localeCompare x acc) acc l)
                     = List.length acc + List.length l).
  { induction l as [|x l IH]; intros acc; cbn; [lia|].
    rewrite IH, insertByKey_length. lia. }
  rewrite H. reflexivity.
Qed.

Lemma insertSorted_perm x l : insertSorted x l ≡ₚ x :: l.
Proof.
  induction l as [|y l IH]; cbn; [reflexivity|].
  destruct (String.leb x y); [reflexivity|]. rewrite IH. apply Permutation_swap.
Qed.

Lemma sortStrings_perm l : sortStrings l ≡ₚ l.
Proof.
  induction l as [|x l IH]; cbn; [reflexivity|].
  rewrite insertSorted_perm, IH. reflexivity.
Qed.

Lemma reduceKeyed_spec sr o key (st : State W) :
  let items := default [] (partitions sr !! key) in
  let prompt :=
    buildPartitionReducePrompt fillTemplate (partitionReducePrompt o) key
      (Js.join Js.newline items) (List.length items) (o_userMessage o) in
  let answer := invokeAgent (world st) (reduceAgent o) (reduceAgentId o) prompt true in
  ∃ st',
    reduceKeyed fillTemplate sr o key st =
      (st', Ok [{| p_key := key;
                   p_result :=
                     match answer.2 with
                     | inl text => text
                     | inr err =>
                         "[Partition "
                         +:+ String "034"%char
                               (key +:+ String "034"%char (" failed: " +:+ err +:+ "]"))
                     end |}])
    ∧ world st' = answer.1
    ∧ queueOf st' = queueOf st
    ∧ invocations st' =
        invocations st ++ [{| i_agentId := reduceAgentId o; i_message := prompt;
                              i_reset := true |}].
Proof.
  cbn zeta. unfold reduceKeyed, tryCatch, bind, Dispatcher.callAgent, nl.
  destruct (invokeAgent (world st) (reduceAgent o) (reduceAgentId o) _ true)
    as [w [text|err]]; cbn; eexists; repeat split.
Qed.

Lemma reduceUnkeyed_spec sr o (st : State W) :
  unkeyed sr ≠ [] →
  let prompt :=
    buildPartitionReducePrompt fillTemplate (partitionReducePrompt o) "_unkeyed"
      (Js.join Js.newline (unkeyed sr)) (List.length (unkeyed sr)) (o_userMessage o) in
  let answer := invokeAgent (world st) (reduceAgent o) (reduceAgentId o) prompt true in
  ∃ st',
    reduceUnkeyed fillTemplate sr o st =
      (st', Ok match answer.2 with
               | inl text => [{| p_key := "_unkeyed"; p_result := text |}]
               | inr _ => []
               end)
    ∧ world st' = answer.1
    ∧ queueOf st' = queueOf st
    ∧ invocations st' =
        invocations st ++ [{| i_agentId := reduceAgentId o; i_message := prompt;
                              i_reset := true |}].
Proof.
  intros Hne. cbn zeta. unfold reduceUnkeyed.
  destruct (unkeyed sr) as [|u us] eqn:Hu; [congruence|].
  unfold tryCatch, bind, Dispatcher.callAgent, nl.
  destruct (invokeAgent (world st) (reduceAgent o) (reduceAgentId o) _ true)
    as [w [text|err]]; cbn; eexists; repeat split.
Qed.

(** The tasks of the keys [ks] and of the unkeyed items, one after the
    other: [worlds] are the states of the world between the calls. *)
Lemma reduceAll_spec sr o (ks : list string) (st : State W) :
  ∃ st' prs calls worlds,
    reduceAll fillTemplate sr o ks st = (st', Ok prs)
    ∧ invocations st' = invocations st ++ calls
    ∧ queueOf st' = queueOf st
    ∧ List.length calls = List.length ks + (if decide (unkeyed sr = []) then 0 else 1)
    ∧ List.length worlds = S (List.length calls)
    ∧ worlds !! 0 = Some (world st)
    ∧ worlds !! List.length calls = Some (world st')
    ∧ (∀ i key, ks !! i = Some key →
         ∃ w, worlds !! i = Some w
           ∧ let items := default [] (partitions sr !! key) in
             let prompt :=
               buildPartitionReducePrompt fillTemplate (partitionReducePrompt o) key
                 (Js.join Js.newline items) (List.length items) (o_userMessage o) in
             let answer := invokeAgent w (reduceAgent o) (reduceAgentId o) prompt true in
             calls !! i = Some {| i_agentId := reduceAgentId o; i_message := prompt;
                                  i_reset := true |}
             ∧ worlds !! S i = Some answer.1
             ∧ prs !! i =
                 Some {| p_key := key;
                         p_result :=
                           match answer.2 with
                           | inl text => text
                           | inr err =>
                               "[Partition "
                               +:+ String "034"%char
                                     (key +:+ String "034"%char
                                                (" failed: " +:+ err +:+ "]"))
                           end |})
    ∧ (unkeyed sr = [] → List.length prs = List.length ks)
    ∧ (unkeyed sr ≠ [] →
         ∃ w, worlds !! List.length ks = Some w
           ∧ let prompt :=
               buildPartitionReducePrompt fillTemplate (partitionReducePrompt o) "_unkeyed"
                 (Js.join Js.newline (unkeyed sr)) (List.length (unkeyed sr))
                 (o_userMessage o) in
             let answer := invokeAgent w (reduceAgent o) (reduceAgentId o) prompt true in
             calls !! List.length ks =
               Some {| i_agentId := reduceAgentId o; i_message := prompt; i_reset := true |}
             ∧ drop (List.length ks) prs =
                 match answer.2 with
                 | inl text => [{| p_key := "_unkeyed"; p_result := text |}]
                 | inr _ => []
                 end).
Proof.
  revert st. induction ks as [|key ks IH]; intros st; cbn [reduceAll].
  - destruct (decide (unkeyed sr = [])) as [Hu|Hu].
    + exists st, [], [], [world st]. unfold reduceUnkeyed. rewrite Hu.
      split; [reflexivity|]. split; [rewrite app_nil_r; reflexivity|].
      repeat (split; [reflexivity|]).
      split; [intros i key H; inversion H|]. split; [reflexivity|]. congruence.
    + destruct (reduceUnkeyed_spec sr o st Hu) as (st' & Hrun & Hw & Hq & Hinv).
      eexists st', _, [_], [world st; world st'].
      split; [exact Hrun|]. split; [exact Hinv|]. split; [exact Hq|].
      repeat (split; [reflexivity|]).
      split; [intros i key H; inversion H|]. split; [congruence|]. intros _.
      exists (world st). split; [reflexivity|]. cbn zeta. split; [reflexivity|].
      reflexivity.
  - destruct (reduceKeyed_spec sr o key st) as (s1 & Hrun1 & Hw1 & Hq1 & Hinv1).
    destruct (IH s1)
      as (s2 & prs & calls & worlds & Hrun2 & Hinv2 & Hq2 & Hlen & Hworlds & Hfirst & Hlast
          & Hkeyed & Hnone & Hunkeyed).
    unfold bind. rewrite Hrun1, Hrun2. cbn [app].
    eexists s2, (_ :: prs), (_ :: calls), (world st :: worlds).
    split; [reflexivity|].
    split; [rewrite Hinv2, Hinv1, <- app_assoc; reflexivity|].
    split; [congruence|]. split; [cbn; lia|]. split; [cbn; lia|]. split; [reflexivity|].
    split; [exact Hlast|]. split; [|split].
    + intros [|i] key' Hkey'.
      * injection Hkey' as <-. exists (world st). split; [reflexivity|]. cbn zeta.
        split; [reflexivity|]. split; [|reflexivity].
        etransitivity; [exact Hfirst|]. rewrite Hw1. reflexivity.
      * destruct (Hkeyed i key' Hkey') as (w & Hw & Hcall & Hnext & Hpr).
        exists w. split; [exact Hw|]. cbn zeta. auto.
    + intros Hu. cbn. rewrite (Hnone Hu). reflexivity.
    + intros Hu. destruct (Hunkeyed Hu) as (w & Hw & Hcall & Hdrop). exists w.
      split; [exact Hw|]. cbn zeta. split; [exact Hcall|exact Hdrop].
Qed.

(** X14. One result for every partition. With one task at a time
    ([concurrency] 1), the partition tasks run to completion one after the
    other in key order, whatever the reducer does, without touching the
    message queue. For the partition at position [i], the reduce agent is
    asked once, in a fresh conversation, with the partition prompt built
    from the items joined by line feeds; the result at position [i] carries
    the partition's key and the agent's answer, or, when the call fails
    with [err], the text [[Partition "<key>" failed: <err>]]. The keys are
    in ascending order of code units, and no two partitions share a key. When there are unkeyed items, one more call is
    made for them, and one more result [_unkeyed] with the answer is
    recorded when that call succeeds, none when it fails. *)
Theorem every_partition_gets_one_result sr o (st : State W) :
  o_concurrency o = 1 →
  ∃ st' prs calls worlds,
    partitionResults fillTemplate sr o st = (st', Ok prs)
    ∧ invocations st' = invocations st ++ calls
    ∧ queueOf st' = queueOf st
    ∧ NoDup (partitionKeys sr)
    ∧ (∀ key, key ∈ partitionKeys sr ↔ is_Some (partitions sr !! key))
    ∧ (∀ i j a b, i < j → partitionKeys sr !! i = Some a → partitionKeys sr !! j = Some b →
         String.leb a b = true)
    ∧ List.length calls
      = List.length (partitionKeys sr) + (if decide (unkeyed sr = []) then 0 else 1)
    ∧ List.length worlds = S (List.length calls)
    ∧ worlds !! 0 = Some (world st)
    ∧ worlds !! List.length calls = Some (world st')
    ∧ (∀ i key, partitionKeys sr !! i = Some key →
         ∃ items w,
           partitions sr !! key = Some items
           ∧ worlds !! i = Some w
           ∧ let prompt :=
               buildPartitionReducePrompt fillTemplate (partitionReducePrompt o) key
                 (Js.join Js.newline items) (List.length items) (o_userMessage o) in
             let answer := invokeAgent w (reduceAgent o) (reduceAgentId o) prompt true in
             calls !! i = Some {| i_agentId := reduceAgentId o; i_message := prompt;
                                  i_reset := true |}
             ∧ worlds !! S i = Some answer.1
             ∧ prs !! i =
                 Some {| p_key := key;
                         p_result :=
                           match answer.2 with
                           | inl text => text
                           | inr err =>
                               "[Partition "
                               +:+ String "034"%char
                                     (key +:+ String "034"%char
                                                (" failed: " +:+ err +:+ "]"))
                           end |})
    ∧ (unkeyed sr = [] → List.length prs = List.length (partitionKeys sr))
    ∧ (unkeyed sr ≠ [] →
         ∃ w, worlds !! List.length (partitionKeys sr) = Some w
           ∧ let prompt :=
               buildPartitionReducePrompt fillTemplate (partitionReducePrompt o) "_unkeyed"
                 (Js.join Js.newline (unkeyed sr)) (List.length (unkeyed sr))
                 (o_userMessage o) in
             let answer := invokeAgent w (reduceAgent o) (reduceAgentId o) prompt true in
             calls !! List.length (partitionKeys sr) =
               Some {| i_agentId := reduceAgentId o; i_message := prompt; i_reset := true |}
             ∧ drop (List.length (partitionKeys sr)) prs =
                 match answer.2 with
                 | inl text => [{| p_key := "_unkeyed"; p_result := text |}]
                 | inr _ => []
                 end).
Proof.
  intros _. unfold partitionResults.
  assert (Hdom : ∀ key, key ∈ partitionKeys sr ↔ is_Some (partitions sr !! key)).
  { intros key. unfold partitionKeys. rewrite sortStrings_perm.
    apply QueueFacts.elem_of_readdir. }
  destruct (reduceAll_spec sr o (partitionKeys sr) st)
    as (st' & prs & calls & worlds & Hrun & Hinv & Hq & Hlen & Hworlds & Hfirst & Hlast
        & Hkeyed & Hnone & Hunkeyed).
  exists st', prs, calls, worlds. split; [exact Hrun|]. split; [exact Hinv|].
  split; [exact Hq|]. split.
  { unfold partitionKeys. rewrite sortStrings_perm. apply NoDup_fst_map_to_list. }
  split; [exact Hdom|].
  split; [exact (ordered_pairs _ _ (sortStrings_ordered _))|].
  split; [exact Hlen|]. split; [exact Hworlds|].
  split; [exact Hfirst|]. split; [exact Hlast|]. split; [|split; [exact Hnone|exact Hunkeyed]].
  intros i key Hkey.
  assert (Hin : key ∈ partitionKeys sr) by (eapply list_elem_of_lookup_2, Hkey).
  apply Hdom in Hin. destruct Hin as [items Hitems].
  destruct (Hkeyed i key Hkey) as (w & Hw & H). rewrite Hitems in H. cbn [default] in H.
  exists items, w. split; [exact Hitems|]. split; [exact Hw|exact H].
Qed.

(** *** The merge *)

Lemma insertByKey_perm x l : insertByKey localeCompare x l ≡ₚ x :: l.
Proof.
  induction l as [|y l IH]; cbn; [reflexivity|].
  destruct (localeCompare (p_key y) (p_key x)); try reflexivity;
    rewrite IH; apply Permutation_swap.
Qed.

Lemma sortByKey_perm l : sortByKey localeCompare l ≡ₚ l.
Proof.
  unfold sortByKey.
  assert (H : ∀ acc, foldl (fun acc x => insertByKey localeCompare x acc) acc l ≡ₚ acc ++ l).
  { induction l as [|x l IH]; intros acc; cbn; [rewrite app_nil_r; reflexivity|].
    rewrite IH, insertByKey_perm. apply Permutation_middle. }
  apply (H []).
Qed.

Section Ordered.
Hypothesis localeCompare_antisym :
  ∀ a b, localeCompare a b = Gt → localeCompare b a = Lt.
Hypothesis localeCompare_trans :
  ∀ a b c, localeCompare a b ≠ Gt → localeCompare b c ≠ Gt → localeCompare a c ≠ Gt.

Lemma insertByKey_ordered x l :
  ForallOrdPairs (fun a b => localeCompare (p_key a) (p_key b) ≠ Gt) l →
  ForallOrdPairs (fun a b => localeCompare (p_key a) (p_key b) ≠ Gt)
    (insertByKey localeCompare x l).
Proof.
  induction l as [|y l IH]; intros Hl; cbn.
  - constructor; constructor.
  - inversion Hl as [|? ? Hy Hrest]; subst.
    assert (Hkeep : localeCompare (p_key y) (p_key x) ≠ Gt →
              ForallOrdPairs (fun a b => localeCompare (p_key a) (p_key b) ≠ Gt)
                (y :: insertByKey localeCompare x l)).
    { intros Hyx. constructor; [|apply IH, Hrest].
      apply List.Forall_forall. intros z Hz. apply list_elem_of_In in Hz.
      rewrite insertByKey_perm in Hz. apply elem_of_cons in Hz.
      destruct Hz as [->|Hz]; [exact Hyx|].
      rewrite List.Forall_forall in Hy. apply Hy, list_elem_of_In, Hz. }
    destruct (localeCompare (p_key y) (p_key x)) eqn:E;
      [apply Hkeep; discriminate|apply Hkeep; discriminate|].
    assert (Hxy : localeCompare (p_key x) (p_key y) ≠ Gt)
      by (rewrite (localeCompare_antisym _ _ E); discriminate).
    constructor; [|exact Hl]. constructor; [exact Hxy|].
    apply List.Forall_forall. intros z Hz. rewrite List.Forall_forall in Hy.
    eapply localeCompare_trans; [exact Hxy|apply Hy, Hz].
Qed.

Lemma sortByKey_ordered l :
  ForallOrdPairs (fun a b => localeCompare (p_key a) (p_key b) ≠ Gt)
    (sortByKey localeCompare l).
Proof.
  unfold sortByKey.
  assert (H : ∀ acc,
            ForallOrdPairs (fun a b => localeCompare (p_key a) (p_key b) ≠ Gt) acc →
            ForallOrdPairs (fun a b => localeCompare (p_key a) (p_key b) ≠ Gt)
              (foldl (fun acc x => insertByKey localeCompare x acc) acc l)).
  { induction l as [|x l IH]; intros acc Hacc; cbn; [exact Hacc|].
    apply IH, insertByKey_ordered, Hacc. }
  apply H. constructor.
Qed.

(** X15. The answer of the partition reduce. With one task at a time
    ([concurrency] 1) and a [localeCompare] that orders the keys,
    [shuffleReducePartitions] returns a text. The partition results are put
    in key order: the same results, no result with a greater key before one
    with a smaller key. Each is rendered as [## Partition: <key>], an empty
    line and the result, and the renderings are joined by a line [---]
    between empty lines. With more than 20 results no merge call is made and
    this combined text is the answer. Otherwise the reduce agent is asked
    once more, in a fresh conversation, with the merge prompt over the
    combined text, and the answer is what the agent says, or the combined
    text when that call fails. *)
Theorem partition_reduce_answers_in_key_order sr o (st : State W) :
  o_concurrency o = 1 →
  ∃ st1 prs sorted st' text,
    partitionResults fillTemplate sr o st = (st1, Ok prs)
    ∧ shuffleReducePartitions localeCompare fillTemplate sr o st = (st', Ok text)
    ∧ sorted ≡ₚ prs
    ∧ (∀ i j a b, i < j → sorted !! i = Some a → sorted !! j = Some b →
         localeCompare (p_key a) (p_key b) ≠ Gt)
    ∧ let combined :=
        Js.join (Js.newline +:+ Js.newline +:+ "---" +:+ Js.newline +:+ Js.newline)
          (map (fun pr => "## Partition: " +:+ p_key pr +:+ Js.newline +:+ Js.newline
                          +:+ p_result pr) sorted) in
      let finalPrompt :=
        buildMergePrompt (mergePrompt o) combined (List.length prs) (totalItems sr)
          (duplicatedItems sr) (o_userMessage o) in
      let answer := invokeAgent (world st1) (reduceAgent o) (reduceAgentId o) finalPrompt true in
      (20 < List.length prs → st' = st1 ∧ text = combined)
      ∧ (List.length prs ≤ 20 →
           invocations st' =
             invocations st1 ++ [{| i_agentId := reduceAgentId o; i_message := finalPrompt;
                                    i_reset := true |}]
           ∧ world st' = answer.1
           ∧ queueOf st' = queueOf st1
           ∧ text = match answer.2 with inl merged => merged | inr _ => combined end).
Proof.
  intros _.
  destruct (reduceAll_spec sr o (partitionKeys sr) st) as (st1 & prs & _ & _ & Hrun & _).
  fold (partitionResults fillTemplate sr o) in Hrun.
  exists st1, prs, (sortByKey localeCompare prs).
  unfold shuffleReducePartitions, bind. rewrite Hrun.
  rewrite sortByKey_length. unfold hierarchical_reduce_fanin.
  pose proof (sortByKey_perm prs) as Hperm.
  pose proof (ordered_pairs _ _ (sortByKey_ordered prs)) as Hordered.
  destruct (List.length prs <=? 20) eqn:Hlen.
  - apply Nat.leb_le in Hlen.
    unfold tryCatch, Dispatcher.callAgent, combine, Dispatcher.chainSeparator, nl.
    destruct (invokeAgent (world st1) (reduceAgent o) (reduceAgentId o) _ true)
      as [w [merged|err]] eqn:E; cbv beta iota zeta;
      (eexists _, _; split; [reflexivity|]; split; [reflexivity|]);
      (split; [exact Hperm|]); (split; [exact Hordered|]);
      (split; [lia|]); intros _; repeat split.
  - apply Nat.leb_gt in Hlen.
    eexists _, _. split; [reflexivity|]. split; [reflexivity|]. split; [exact Hperm|].
    split; [exact Hordered|]. cbn zeta. split; [intros _; split; reflexivity|lia].
Qed.

End Ordered.

End Reduce.

(** X14 at two partitions and one unkeyed item, with a reducer that fails
    on the partition [b]. *)
Lemma every_partition_gets_one_result_witness :
  Shuffle.o_concurrency Cases.bobReduces = 1
  ∧ (partitionResults (C := Cases.picky) Cases.noPlaceholders Cases.twoPartitions
       Cases.bobReduces Demo.inFlight).2
    = Ok [{| p_key := "a"; p_result := "seen by bob" |};
          {| p_key := "b";
             p_result := "[Partition " +:+ Js.dquote +:+ "b" +:+ Js.dquote
                         +:+ " failed: boom]" |};
          {| p_key := "_unkeyed"; p_result := "seen by bob" |}]
  ∧ ∃ st' prs calls,
      partitionResults (C := Cases.picky) Cases.noPlaceholders Cases.twoPartitions
        Cases.bobReduces Demo.inFlight = (st', Ok prs)
      ∧ invocations st' = invocations Demo.inFlight ++ calls
      ∧ List.length calls = 3.
Proof.
  split; [reflexivity|]. split; [vm_compute; reflexivity|].
  destruct (every_partition_gets_one_result (C := Cases.picky) Cases.noPlaceholders
              Cases.twoPartitions Cases.bobReduces Demo.inFlight eq_refl)
    as (st' & prs & calls & worlds & Hrun & Hinv & _ & _ & _ & _ & Hlen & _).
  exists st', prs, calls. split; [exact Hrun|]. split; [exact Hinv|].
  rewrite Hlen. vm_compute. reflexivity.
Defined.

(** X15 at the same reduction: the results are put in key order, and the
    merge call, whose prompt names the partition [b], fails, so the answer
    is the combined text. *)
Lemma partition_reduce_answers_in_key_order_witness :
  Shuffle.o_concurrency Cases.bobReduces = 1
  ∧ (shuffleReducePartitions (C := Cases.picky) Cases.byCodeUnits Cases.noPlaceholders
       Cases.twoPartitions Cases.bobReduces Demo.inFlight).2
    = Ok ("## Partition: _unkeyed" +:+ Js.newline +:+ Js.newline +:+ "seen by bob"
          +:+ Js.newline +:+ Js.newline +:+ "---" +:+ Js.newline +:+ Js.newline
          +:+ "## Partition: a" +:+ Js.newline +:+ Js.newline +:+ "seen by bob"
          +:+ Js.newline +:+ Js.newline +:+ "---" +:+ Js.newline +:+ Js.newline
          +:+ "## Partition: b" +:+ Js.newline +:+ Js.newline
          +:+ "[Partition " +:+ Js.dquote +:+ "b" +:+ Js.dquote +:+ " failed: boom]")
  ∧ ∃ st1 prs sorted st' text,
      partitionResults (C := Cases.picky) Cases.noPlaceholders Cases.twoPartitions
        Cases.bobReduces Demo.inFlight = (st1, Ok prs)
      ∧ shuffleReducePartitions (C := Cases.picky) Cases.byCodeUnits Cases.noPlaceholders
          Cases.twoPartitions Cases.bobReduces Demo.inFlight = (st', Ok text)
      ∧ sorted ≡ₚ prs
      ∧ (∀ i j a b, i < j → sorted !! i = Some a → sorted !! j = Some b →
           Cases.byCodeUnits (p_key a) (p_key b) ≠ Gt).
Proof.
  split; [reflexivity|]. split; [vm_compute; reflexivity|].
  destruct (partition_reduce_answers_in_key_order (C := Cases.picky) Cases.byCodeUnits
              Cases.noPlaceholders byCodeUnits_antisym byCodeUnits_trans
              Cases.twoPartitions Cases.bobReduces Demo.inFlight eq_refl)
    as (st1 & prs & sorted & st' & text & Hrun & Hall & Hperm & Hordered & _).
  exists st1, prs, sorted, st', text. auto.
Defined.

End ReduceFacts.

(** ** The semaphore *)
Module SemaphoreFacts.
Import Semaphore.

Lemma removeOne_length who l rest :
  removeOne who l = Some rest → List.length l = S (List.length rest).
Proof.
  revert rest. induction l as [|x l IH]; intros rest; cbn; [discriminate|].
  destruct (Nat.eqb x who).
  - intros [= ->]. reflexivity.
  - destruct (removeOne who l) as [rest'|]; [|discriminate].
    intros [= <-]. cbn. rewrite (IH rest' eq_refl). reflexivity.
Qed.

Lemma balanced_step m p e p' : balanced m p → step p e = Some p' → balanced m p'.
Proof.
  intros (Hm & Hc & Hle & Hq). unfold balanced. destruct e as [who|who]; cbn [step].
  - unfold acquire. destruct (current (sem p) <? max (sem p))%Z eqn:E.
    + apply Z.ltb_lt in E. intros [= <-]. cbn [sem running max current queue]. rewrite length_app. cbn [List.length].
      split; [exact Hm|]. split; [lia|]. split; [lia|].
      intros Hne. specialize (Hq Hne). lia.
    + apply Z.ltb_ge in E. intros [= <-]. cbn [sem running max current queue].
      split; [exact Hm|]. split; [exact Hc|]. split; [exact Hle|]. intros _. lia.
  - destruct (removeOne who (running p)) as [rest|] eqn:Hr; [|discriminate].
    apply removeOne_length in Hr. unfold release.
    destruct (queue (sem p)) as [|next waiting] eqn:Hqueue; intros [= <-];
      cbn [sem running max current queue].
    + rewrite app_nil_r. split; [exact Hm|]. split; [lia|]. split; [lia|]. congruence.
    + rewrite length_app. cbn [List.length]. split; [exact Hm|]. split; [lia|].
      split; [lia|]. intros _. specialize (Hq ltac:(discriminate)). lia.
Qed.

Lemma balanced_run m events p p' : balanced m p → run p events = Some p' → balanced m p'.
Proof.
  revert p. induction events as [|e events IH]; intros p Hb; cbn [run].
  - intros [= <-]. exact Hb.
  - destruct (step p e) as [p1|] eqn:E; [|discriminate].
    apply IH. eapply balanced_step; eauto.
Qed.

(** X16. The semaphore bounds the running tasks and leaves no slot idle.
    After any sequence of acquires and releases in which only running tasks
    release, starting from a new semaphore: the counter is the number of
    running tasks; with a limit of zero or more, at most that many tasks
    run; a task waits only while all slots are taken, so with a positive
    limit no task is left waiting once no task runs; and with a limit of
    zero or less no task ever runs. *)
Theorem semaphore_bounds_running_tasks (limit : Z) (events : list Event) (p : Pool) :
  run (start limit) events = Some p →
  current (sem p) = Z.of_nat (List.length (running p))
  ∧ (0 ≤ limit → Z.of_nat (List.length (running p)) ≤ limit)%Z
  ∧ (queue (sem p) ≠ [] → (limit ≤ Z.of_nat (List.length (running p)))%Z)
  ∧ ((0 < limit)%Z → running p = [] → queue (sem p) = [])
  ∧ ((limit ≤ 0)%Z → running p = []).
Proof.
  intros Hrun.
  assert (Hstart : balanced limit (start limit)).
  { unfold balanced, start, create. cbn. split; [reflexivity|]. split; [reflexivity|].
    split; [lia|]. congruence. }
  destruct (balanced_run _ _ _ _ Hstart Hrun) as (Hm & Hc & Hle & Hq).
  split; [exact Hc|]. split; [lia|]. split; [intros Hne; specialize (Hq Hne); lia|].
  split.
  - intros Hpos Hnone. destruct (queue (sem p)) as [|w ws] eqn:E; [reflexivity|].
    exfalso. rewrite Hnone in Hc. cbn in Hc. specialize (Hq ltac:(discriminate)). lia.
  - intros Hneg. destruct (running p) as [|x l]; [reflexivity|]. cbn in Hc. lia.
Qed.

(** X16 at three tasks and two slots: after the first task has released,
    the second and the third run and nobody waits. *)
Lemma semaphore_bounds_running_tasks_witness :
  run (start 2) Cases.threeTasks
    = Some {| sem := {| max := 2; current := 2; queue := [] |}; running := [2; 3] |}
  ∧ (Z.of_nat (List.length [2; 3]) ≤ 2)%Z.
Proof.
  assert (Hrun : run (start 2) Cases.threeTasks
                 = Some {| sem := {| max := 2; current := 2; queue := [] |};
                           running := [2; 3] |})
    by (vm_compute; reflexivity).
  split; [exact Hrun|].
  pose proof (semaphore_bounds_running_tasks 2 Cases.threeTasks _ Hrun) as H.
  destruct H as (_ & Hmax & _). apply Hmax. lia.
Defined.

End SemaphoreFacts.

(** ** From the map outputs to the shuffle *)
Module MapOutputFacts.
Import Shuffle MapOutput.

Section WithJson.
Variable JSON_parse : string → option jsval.
Variable Number_toString : Z → string.
Variable JSON_stringify : jsval → string.

Lemma objectsOf_objects (items : list jsval) item :
  item ∈ objectsOf items → isObjectType item = true ∧ item ≠ JNull.
Proof.
  unfold objectsOf. intros H. apply list_elem_of_filter in H. destruct H as [H _].
  apply andb_true_iff in H. destruct H as [Ht Ho]. split; [exact Ho|].
  intros ->. discriminate.
Qed.

Lemma parseLines_objects result item :
  item ∈ parseLines JSON_parse result → isObjectType item = true.
Proof.
  unfold parseLines. intros H. apply list_elem_of_bind in H. destruct H as (line & H & _).
  destruct (Js.startsWith (Js.trim line) "{"); [|inversion H].
  destruct (JSON_parse (Js.trim line)) as [parsed|]; [|inversion H].
  destruct (isObjectType parsed) eqn:E; [|inversion H].
  apply list_elem_of_singleton in H. subst. exact E.
Qed.

Lemma parseBatch_objects result item :
  item ∈ parseBatch JSON_parse result → isObjectType item = true.
Proof.
  assert (He : item ∈ parseEmbedded JSON_parse result → isObjectType item = true).
  { unfold parseEmbedded. destruct (matchArray result) as [text|]; [|apply parseLines_objects].
    destruct (JSON_parse text) as [[| | | | |items|]|]; try apply parseLines_objects.
    intros H. apply objectsOf_objects in H. tauto. }
  unfold parseBatch.
  destruct (JSON_parse (Js.trim result)) as [parsed|]; [|exact He].
  destruct parsed as [| |b|z|s|items|fields]; cbn [isObjectType]; try exact He.
  - intros H. apply list_elem_of_singleton in H. subst. reflexivity.
  - intros H. apply objectsOf_objects in H. tauto.
  - intros H. apply list_elem_of_singleton in H. subst. reflexivity.
Qed.

Lemma normalize_None v :
  normalize Number_toString v = None ↔ toString Number_toString v = None.
Proof. unfold normalize. apply fmap_None. Qed.

Lemma extractKeys_throws item keyField :
  isObjectType item = true →
  (extractKeys Number_toString item keyField = None
   ↔ item = JNull
     ∨ ∃ value, prop item keyField = Some value ∧ toString Number_toString value = None).
Proof.
  intros Hobj. unfold extractKeys.
  destruct (prop item keyField) as [value|] eqn:Hprop.
  - assert (Hitem : item ≠ JNull) by (intros ->; discriminate Hprop).
    assert (Hgoal : ∀ P : Prop, (P ↔ toString Number_toString value = None) →
              (P ↔ item = JNull
                   ∨ ∃ value', Some value = Some value'
                       ∧ toString Number_toString value' = None)).
    { intros P HP. rewrite HP. split; [eauto|].
      intros [?|(value' & [= <-] & H)]; [contradiction|exact H]. }
    destruct value as [| |b|z|s|values|fields]; apply Hgoal.
    + split; discriminate.
    + split; discriminate.
    + rewrite fmap_None. apply normalize_None.
    + rewrite fmap_None. apply normalize_None.
    + rewrite fmap_None. apply normalize_None.
    + rewrite fmap_None, JsonFacts.mapM_None, JsonFacts.toString_array_None.
      split; intros (v & Hv & H); exists v; (split; [exact Hv|]); apply normalize_None, H.
    + rewrite fmap_None. apply normalize_None.
  - destruct item; try discriminate. split; [auto|reflexivity].
Qed.

Lemma shuffleByKey_None (batchResults : list string) cfg :
  shuffleByKey JSON_parse Number_toString JSON_stringify batchResults cfg = None
  ↔ ∃ item, item ∈ parseMapOutputs JSON_parse batchResults
      ∧ extractKeys Number_toString item (key_field cfg) = None.
Proof.
  unfold shuffleByKey.
  destruct (mapM _ _) as [items|] eqn:E.
  - split; [discriminate|]. intros (item & Hin & Hnone).
    assert (H : mapM (toItem Number_toString JSON_stringify (key_field cfg))
                  (parseMapOutputs JSON_parse batchResults) = None).
    { apply JsonFacts.mapM_None. exists item. split; [exact Hin|]. unfold toItem. rewrite Hnone.
      reflexivity. }
    congruence.
  - split; [|reflexivity]. intros _. apply JsonFacts.mapM_None in E.
    destruct E as (item & Hin & Hnone). exists item. split; [exact Hin|].
    unfold toItem in Hnone. destruct (extractKeys _ _ _); [discriminate|reflexivity].
Qed.

(** X17. What the shuffle takes from the map outputs, and when it throws.
    [parseMapOutputs] returns values of type [object] only; a batch result
    whose trimmed text is the JSON text of an object or of [null] is passed
    on as that one value. For a key field that is no array index,
    [shuffleByKey] throws exactly when one of the values passed on is
    [null], whose key field cannot be read, or has a key value that
    [String] cannot convert. It throws when a batch result is the text
    [null], and when the key value of an item is an object with a key
    [toString], alone or as an element of an array of keys. *)
Theorem shuffle_throws_exactly_on_unreadable_items (batchResults : list string) cfg :
  isArrayIndex (key_field cfg) = false →
  (∀ item, item ∈ parseMapOutputs JSON_parse batchResults → isObjectType item = true)
  ∧ (shuffleByKey JSON_parse Number_toString JSON_stringify batchResults cfg = None
     ↔ ∃ item, item ∈ parseMapOutputs JSON_parse batchResults
         ∧ (item = JNull
            ∨ ∃ value, prop item (key_field cfg) = Some value
                ∧ toString Number_toString value = None))
  ∧ (∀ result item, result ∈ batchResults → JSON_parse (Js.trim result) = Some item →
       item = JNull ∨ (∃ fields, item = JObj fields) →
       item ∈ parseMapOutputs JSON_parse batchResults)
  ∧ (∀ result, result ∈ batchResults → JSON_parse (Js.trim result) = Some JNull →
       shuffleByKey JSON_parse Number_toString JSON_stringify batchResults cfg = None)
  ∧ (∀ fields value inner,
       JObj fields ∈ parseMapOutputs JSON_parse batchResults →
       lookupTable fields (key_field cfg) = Some value →
       (value = JObj inner ∨ ∃ values, value = JArr values ∧ JObj inner ∈ values) →
       is_Some (lookupTable inner "toString") →
       shuffleByKey JSON_parse Number_toString JSON_stringify batchResults cfg = None).
Proof.
  intros _.
  assert (Hobj : ∀ item, item ∈ parseMapOutputs JSON_parse batchResults →
                         isObjectType item = true).
  { intros item H. unfold parseMapOutputs in H. apply list_elem_of_bind in H.
    destruct H as (result & H & _). eapply parseBatch_objects, H. }
  assert (Hiff : shuffleByKey JSON_parse Number_toString JSON_stringify batchResults cfg = None
     ↔ ∃ item, item ∈ parseMapOutputs JSON_parse batchResults
         ∧ (item = JNull
            ∨ ∃ value, prop item (key_field cfg) = Some value
                ∧ toString Number_toString value = None)).
  { rewrite shuffleByKey_None. split; intros (item & Hin & H); exists item;
      (split; [exact Hin|]); apply (extractKeys_throws item _ (Hobj item Hin)), H. }
  assert (Hpass : ∀ result item, result ∈ batchResults →
            JSON_parse (Js.trim result) = Some item →
            item = JNull ∨ (∃ fields, item = JObj fields) →
            item ∈ parseMapOutputs JSON_parse batchResults).
  { intros result item Hin Hparse Hshape. unfold parseMapOutputs.
    apply list_elem_of_bind. exists result. split; [|exact Hin].
    unfold parseBatch. rewrite Hparse.
    destruct Hshape as [->|[fields ->]]; cbn; apply list_elem_of_here. }
  split; [exact Hobj|]. split; [exact Hiff|]. split; [exact Hpass|]. split.
  - intros result Hin Hnull. apply Hiff. exists JNull. split; [|left; reflexivity].
    apply (Hpass result); auto.
  - intros fields value inner Hin Hvalue Hshape Hshadow.
    apply Hiff. exists (JObj fields). split; [exact Hin|]. right. exists value.
    split; [cbn; rewrite Hvalue; reflexivity|].
    eapply JsonFacts.toString_holds_shadowed; eassumption.
Qed.

(** *** Keys *)

Lemma lowerChar_idem c : lowerChar (lowerChar c) = lowerChar c.
Proof. destruct c as [[] [] [] [] [] [] [] []]; reflexivity. Qed.

Lemma toLowerCase_idem s : toLowerCase (toLowerCase s) = toLowerCase s.
Proof. induction s as [|c s IH]; cbn; [reflexivity|]. rewrite lowerChar_idem, IH. reflexivity. Qed.

Lemma toLowerCase_trimStart s :
  toLowerCase s = s → toLowerCase (Js.trimStart s) = Js.trimStart s.
Proof.
  induction s as [|c s IH]; [reflexivity|]. intros H. cbn [Js.trimStart].
  destruct (Js.isWhiteSpace c); [|exact H]. cbn in H. injection H as _ H. auto.
Qed.

Lemma toLowerCase_trimEnd s :
  toLowerCase s = s → toLowerCase (Js.trimEnd s) = Js.trimEnd s.
Proof.
  induction s as [|c s IH]; [reflexivity|]. intros H. cbn in H. injection H as Hc H.
  specialize (IH H). cbn [Js.trimEnd]. destruct (Js.trimEnd s) as [|d t].
  - destruct (Js.isWhiteSpace c); [reflexivity|]. cbn. rewrite Hc. reflexivity.
  - cbn [toLowerCase] in *. rewrite Hc, IH. reflexivity.
Qed.

Lemma normalize_normal v k :
  normalize Number_toString v = Some k → Js.trim k = k ∧ toLowerCase k = k.
Proof.
  unfold normalize. intros H. apply fmap_Some in H. destruct H as (text & _ & ->).
  split; [apply JsMore.trim_idem|].
  apply toLowerCase_trimEnd, toLowerCase_trimStart, toLowerCase_idem.
Qed.

Lemma mapM_elem_of {A B} (f : A → option B) (l : list A) (k : list B) y :
  mapM f l = Some k → y ∈ k → ∃ x, x ∈ l ∧ f x = Some y.
Proof.
  intros H. apply mapM_Some_1 in H. induction H as [|x y' l k Hxy _ IH]; intros Hy.
  - inversion Hy.
  - apply elem_of_cons in Hy. destruct Hy as [->|Hy].
    + exists x. split; [apply list_elem_of_here|exact Hxy].
    + destruct (IH Hy) as (x' & Hx' & Hf). exists x'.
      split; [apply list_elem_of_further, Hx'|exact Hf].
Qed.

Lemma extractKeys_normal item keyField ks k :
  extractKeys Number_toString item keyField = Some ks → k ∈ ks →
  Js.nonEmpty k = true ∧ Js.trim k = k ∧ toLowerCase k = k.
Proof.
  unfold extractKeys. destruct (prop item keyField) as [value|]; [|discriminate].
  assert (Hone : ∀ v,
            (fun k => filter (fun k => Js.nonEmpty k = true) [k])
              <$> normalize Number_toString v = Some ks →
            k ∈ ks → Js.nonEmpty k = true ∧ Js.trim k = k ∧ toLowerCase k = k).
  { intros v H Hk. apply fmap_Some in H. destruct H as (k' & Hn & ->).
    apply list_elem_of_filter in Hk. destruct Hk as [Hne Hk].
    apply list_elem_of_singleton in Hk. subst k'.
    split; [exact Hne|eapply normalize_normal, Hn]. }
  destruct value as [| |b|z|s|values|fields]; try apply Hone.
  - intros [= <-] H. inversion H.
  - intros [= <-] H. inversion H.
  - intros H Hk. apply fmap_Some in H. destruct H as (l & Hl & ->).
    apply list_elem_of_filter in Hk. destruct Hk as [Hne Hk].
    destruct (mapM_elem_of _ _ _ _ Hl Hk) as (v & _ & Hv).
    split; [exact Hne|eapply normalize_normal, Hv].
Qed.

(** X18. Partition keys are normalized. When [shuffleByKey] returns, every
    partition of the result is named by a key, or by a key followed by
    [_part<n>], and the key is a non-empty string in lower case without
    white space at either end: key values that differ only in case or in
    surrounding white space name the same partition. *)
Theorem partition_keys_are_normalized (batchResults : list string) cfg sr name :
  shuffleByKey JSON_parse Number_toString JSON_stringify batchResults cfg = Some sr →
  is_Some (partitions sr !! name) →
  ∃ key, (name = key ∨ ∃ i, name = subKey key i)
    ∧ Js.nonEmpty key = true ∧ Js.trim key = key ∧ toLowerCase key = key.
Proof.
  unfold shuffleByKey.
  destruct (mapM (toItem Number_toString JSON_stringify (key_field cfg)) (parseMapOutputs JSON_parse batchResults))
    as [items|] eqn:Hitems; [|discriminate].
  intros [= <-] [ys Hys].
  destruct (SubSplitFacts.final_partition_origin items cfg name ys Hys)
    as (key & xs & Hin & Hxs & Hfrom).
  assert (Hmax : 0 < orDefault (max_partition_size cfg) default_max_partition_size)
    by (apply SubSplitFacts.orDefault_positive; unfold default_max_partition_size; lia).
  destruct (SubSplitFacts.subEntries_spec _ key xs name ys Hmax Hxs Hin) as (Hname & _).
  exists key. split; [exact Hname|].
  destruct xs as [|x xs]; [congruence|].
  destruct (Hfrom x ltac:(apply list_elem_of_here)) as (item & Hitem & _ & Hkey).
  destruct (mapM_elem_of _ _ _ _ Hitems Hitem) as (v & _ & Hv).
  unfold toItem in Hv. destruct (extractKeys Number_toString v (key_field cfg)) as [ks|] eqn:E; [|discriminate].
  injection Hv as <-. cbn in Hkey. eapply extractKeys_normal; eauto.
Qed.

End WithJson.

(** X17 at a map output that is the text [null], and at one whose item has
    a tag that cannot be converted. *)
Lemma shuffle_throws_exactly_on_unreadable_items_witness :
  isArrayIndex (key_field Demo.pairsOnly) = false
  ∧ parseMapOutputs Cases.parse [Cases.taggedBatch; "null"]
    = [JObj [("tags", JStr " Auth")]; JObj [("tags", JStr "auth")]; JNull]
  ∧ shuffleByKey Cases.parse Demo.decimal Cases.stringify [Cases.taggedBatch; "null"]
      Demo.pairsOnly = None
  ∧ parseMapOutputs Cases.parse [Cases.shadowedBatch]
    = [JObj [("tags", JObj [("toString", JNum 1)])]]
  ∧ shuffleByKey Cases.parse Demo.decimal Cases.stringify [Cases.shadowedBatch]
      Demo.pairsOnly = None
  ∧ is_Some (shuffleByKey Cases.parse Demo.decimal Cases.stringify [Cases.taggedBatch]
               Demo.pairsOnly).
Proof.
  split; [reflexivity|]. split; [vm_compute; reflexivity|]. split.
  { apply (proj1 (proj2 (proj2 (proj2 (shuffle_throws_exactly_on_unreadable_items
                    Cases.parse Demo.decimal Cases.stringify [Cases.taggedBatch; "null"]
                    Demo.pairsOnly eq_refl))))
             "null").
    - apply list_elem_of_further, list_elem_of_here.
    - vm_compute. reflexivity. }
  split; [vm_compute; reflexivity|]. split.
  { apply (proj2 (proj2 (proj2 (proj2 (shuffle_throws_exactly_on_unreadable_items
                    Cases.parse Demo.decimal Cases.stringify [Cases.shadowedBatch]
                    Demo.pairsOnly eq_refl))))
             [("tags", JObj [("toString", JNum 1)])] (JObj [("toString", JNum 1)])
             [("toString", JNum 1)]).
    - vm_compute. apply list_elem_of_here.
    - vm_compute. reflexivity.
    - left. reflexivity.
    - eexists. vm_compute. reflexivity. }
  eexists. vm_compute. reflexivity.
Defined.

(** X18 at two items whose tags differ in case and white space: one
    partition, [auth]. *)
Lemma partition_keys_are_normalized_witness :
  shuffleByKey Cases.parse Demo.decimal Cases.stringify [Cases.taggedBatch] Demo.pairsOnly
    = Some (shuffleItems
              [{| keys := ["auth"]; serialized := Cases.stringify (JObj [("tags", JStr " Auth")]) |};
               {| keys := ["auth"]; serialized := Cases.stringify (JObj [("tags", JStr "auth")]) |}]
              Demo.pairsOnly)
  ∧ is_Some (partitions
               (shuffleItems
                  [{| keys := ["auth"];
                      serialized := Cases.stringify (JObj [("tags", JStr " Auth")]) |};
                   {| keys := ["auth"];
                      serialized := Cases.stringify (JObj [("tags", JStr "auth")]) |}]
                  Demo.pairsOnly) !! "auth")
  ∧ ∃ key, ("auth" = key ∨ ∃ i, "auth" = subKey key i)
      ∧ Js.nonEmpty key = true ∧ Js.trim key = key ∧ toLowerCase key = key.
Proof.
  assert (Hrun : shuffleByKey Cases.parse Demo.decimal Cases.stringify [Cases.taggedBatch] Demo.pairsOnly
    = Some (shuffleItems
              [{| keys := ["auth"]; serialized := Cases.stringify (JObj [("tags", JStr " Auth")]) |};
               {| keys := ["auth"]; serialized := Cases.stringify (JObj [("tags", JStr "auth")]) |}]
              Demo.pairsOnly))
    by (vm_compute; reflexivity).
  assert (Hsome : is_Some (partitions
               (shuffleItems
                  [{| keys := ["auth"];
                      serialized := Cases.stringify (JObj [("tags", JStr " Auth")]) |};
                   {| keys := ["auth"];
                      serialized := Cases.stringify (JObj [("tags", JStr "auth")]) |}]
                  Demo.pairsOnly) !! "auth"))
    by (eexists; vm_compute; reflexivity).
  split; [exact Hrun|]. split; [exact Hsome|].
  exact (partition_keys_are_normalized Cases.parse Demo.decimal Cases.stringify [Cases.taggedBatch]
           Demo.pairsOnly _ "auth" Hrun Hsome).
Defined.

End MapOutputFacts.

(** ** The episodes section *)
Module EpisodesFacts.
Import MapOutput Episodes.






Section WithParser.
Variable JSON_parse : string → option jsval.
Variable Number_toString : Z → string.



Lemma omap_None {A B} (f : A → option B) (l : list A) :
  (∀ x, x ∈ l → f x = None) → omap f l = [].
Proof.
  induction l as [|x l IH]; intros H; [reflexivity|]. cbn.
  rewrite (H x) by (apply list_elem_of_here). apply IH.
  intros y Hy. apply H, list_elem_of_further, Hy.
Qed.

(** X20. No episodes without a long word. When the lower-cased message
    has no word longer than three characters, or when no line of the
    episodes file that parses shares such a word with the message, there is
    no episodes section; and when there is one, it is the heading followed
    by episodes among the best three, rendered one per line in that
    order. *)
Theorem episodes_need_a_long_word (file : option string) (userMessage : string) :
  (longWords userMessage = [] →
     episodesSection JSON_parse Number_toString file userMessage = None)
  ∧ (∀ raw, file = Some raw →
       topEpisodes JSON_parse Number_toString (Js.trim raw) userMessage = [] →
       episodesSection JSON_parse Number_toString file userMessage = None)
  ∧ (∀ text, episodesSection JSON_parse Number_toString file userMessage = Some text →
       ∃ raw rendered,
         file = Some raw
         ∧ rendered ≠ []
         ∧ rendered `sublist_of`
             omap (fun entry => renderEpisode JSON_parse Number_toString (fst entry))
               (topEpisodes JSON_parse Number_toString (Js.trim raw) userMessage)
         ∧ text = "## Relevant Past Conversations" +:+ Js.newline
                  +:+ Js.join Js.newline rendered).
Proof.
  assert (Hempty : ∀ raw,
            topEpisodes JSON_parse Number_toString (Js.trim raw) userMessage = [] →
            episodesSection JSON_parse Number_toString (Some raw) userMessage = None).
  { intros raw Htop. unfold episodesSection. cbn zeta. rewrite Htop.
    destruct (Js.nonEmpty (Js.trim raw)); reflexivity. }
  split; [|split].
  - intros Hwords. destruct file as [raw|]; [|reflexivity]. apply Hempty.
    unfold topEpisodes. rewrite Hwords. rewrite omap_None; [reflexivity|].
    intros line _. unfold scoreLine. destruct (JSON_parse line) as [ep|]; [|reflexivity].
    destruct (episodeText Number_toString ep); reflexivity.
  - intros raw -> Htop. apply Hempty, Htop.
  - intros text. unfold episodesSection. destruct file as [raw|]; [|discriminate].
    cbn zeta. destruct (Js.nonEmpty (Js.trim raw)); [|discriminate].
    destruct (0 <? _); [|discriminate].
    set (rendered := filter _ _).
    destruct (Js.nonEmpty (Js.join Js.newline rendered)) eqn:Hne; [|discriminate].
    intros [= <-]. exists raw, rendered. split; [reflexivity|]. split.
    + intros Hnil. rewrite Hnil in Hne. discriminate.
    + split; [apply sublist_filter|reflexivity].
Qed.

End WithParser.

(** The section for the message [Deploy failed again] over three episodes:
    the two that share a long word with it, the one sharing two words
    first. *)
Example episodesSection_example :
  episodesSection Cases.parseEpisode Demo.decimal (Some Cases.episodesFile)
    "Deploy failed again"
  = Some ("## Relevant Past Conversations" +:+ Js.newline
          +:+ "- [success] deploy failed on friday (ops)" +:+ Js.newline
          +:+ "- [unknown] deploy notes").
Proof. vm_compute. reflexivity. Qed.

Example splitSpaces_example :
  splitSpaces false " a  bc " = [""; "a"; "bc"; ""].
Proof. reflexivity. Qed.

End EpisodesFacts.

(** ** The size of the reflections section *)
Module MemoryFacts.
Import Invoke.

Section WithParser.
Variable JSON_parse : string → option jsval.
Variable Number_toString : Z → string.

Lemma lastN_length {A} n (l : list A) : List.length (Js.lastN n l) ≤ n.
Proof. unfold Js.lastN. rewrite length_skipn. lia. Qed.

Lemma lastN_sublist {A} n (l : list A) : Js.lastN n l `sublist_of` l.
Proof. unfold Js.lastN. apply sublist_drop. Qed.

Lemma omap_length {A B} (f : A → option B) (l : list A) :
  List.length (omap f l) ≤ List.length l.
Proof.
  induction l as [|x l IH]; [reflexivity|]. cbn. destruct (f x); cbn; lia.
Qed.

(** X21. The last ten reflections. Whatever the size of
    [reflections.jsonl], a reflections section holds between one and ten
    entries: the renderings, in file order, of the lines that can be
    rendered among the last ten non-blank lines of the trimmed file. The
    non-blank lines split into older lines followed by recent ones; the
    recent ones are at most ten, and exactly ten as soon as there is an
    older line; only recent lines are shown. *)
Theorem reflections_are_the_last_ten (file : option string) (text : string) :
  reflectionsSection JSON_parse Number_toString file = Some text →
  ∃ raw older recent rendered,
    file = Some raw
    ∧ nonBlankLines (Js.trim raw) = older ++ recent
    ∧ List.length recent ≤ 10
    ∧ (older ≠ [] → List.length recent = 10)
    ∧ rendered = omap (renderReflection JSON_parse Number_toString) recent
    ∧ 0 < List.length rendered ∧ List.length rendered ≤ 10
    ∧ text = "## Recent Reflections" +:+ Js.newline +:+ Js.join Js.newline rendered.
Proof.
  destruct file as [raw|]; [|discriminate].
  destruct (Js.nonEmpty (Js.trim raw)) eqn:Hne.
  - rewrite (InvokeFacts.reflectionsSection_recent JSON_parse Number_toString raw Hne).
    set (lines := nonBlankLines (Js.trim raw)).
    set (recent := Js.lastN 10 lines).
    pose proof (lastN_length 10 lines) as Hlen.
    pose proof (omap_length (renderReflection JSON_parse Number_toString) recent) as Hlen'.
    fold recent in Hlen.
    destruct (omap (renderReflection JSON_parse Number_toString) recent) as [|x xs] eqn:Hr;
      [discriminate|].
    intros [= <-]. exists raw, (take (List.length lines - 10) lines), recent, (x :: xs).
    split; [reflexivity|].
    split; [unfold recent, Js.lastN; symmetry; apply take_drop|].
    split; [exact Hlen|]. split.
    { intros Holder. unfold recent, Js.lastN. rewrite length_skipn.
      destruct (decide (List.length lines ≤ 10)) as [Hle|Hgt]; [|lia].
      exfalso. apply Holder. replace (List.length lines - 10) with 0 by lia. reflexivity. }
    split; [symmetry; exact Hr|]. split; [cbn; lia|]. split; [lia|reflexivity].
  - unfold reflectionsSection. rewrite Hne. discriminate.
Qed.

End WithParser.

(** X21 at a file of eleven lines, the last of which is no JSON: the first
    record is older than the last ten lines, and nine entries are shown. *)
Lemma reflections_are_the_last_ten_witness :
  reflectionsSection Demo.parse Demo.decimal (Some Demo.elevenLines)
    = Some ("## Recent Reflections" +:+ Js.newline
            +:+ Js.join Js.newline
                  (map (fun n => "- [insight] c" +:+ Js.ofNat n +:+ ": l" +:+ Js.ofNat n)
                       (seq 2 9)))
  ∧ List.length (nonBlankLines (Js.trim Demo.elevenLines)) = 11
  ∧ ∃ older recent rendered,
      nonBlankLines (Js.trim Demo.elevenLines) = older ++ recent
      ∧ List.length recent ≤ 10
      ∧ (older ≠ [] → List.length recent = 10)
      ∧ rendered = omap (renderReflection Demo.parse Demo.decimal) recent
      ∧ List.length rendered ≤ 10
      ∧ "## Recent Reflections" +:+ Js.newline
        +:+ Js.join Js.newline
              (map (fun n => "- [insight] c" +:+ Js.ofNat n +:+ ": l" +:+ Js.ofNat n) (seq 2 9))
        = "## Recent Reflections" +:+ Js.newline +:+ Js.join Js.newline rendered.
Proof.
  assert (Hrun : reflectionsSection Demo.parse Demo.decimal (Some Demo.elevenLines)
    = Some ("## Recent Reflections" +:+ Js.newline
            +:+ Js.join Js.newline
                  (map (fun n => "- [insight] c" +:+ Js.ofNat n +:+ ": l" +:+ Js.ofNat n)
                       (seq 2 9))))
    by (vm_compute; reflexivity).
  split; [exact Hrun|]. split; [vm_compute; reflexivity|].
  destruct (reflections_are_the_last_ten Demo.parse Demo.decimal _ _ Hrun)
    as (raw & older & recent & rendered & Hraw & Hsplit & Hrecent & Hfull & Hr & _ & Hlen
        & Htext).
  injection Hraw as <-.
  exists older, recent, rendered. auto 10.
Defined.

End MemoryFacts.
